(** * ragam: track resolution and streaming proxy

    A shallow embedding of [server.cjs] (the JioSaavn matcher and the [/proxy]
    handler) and of [src/services/youtubeService.js] (provider search, the
    resolver and the stream selection), with the properties of the
    specification stated over it.

    JavaScript strings are modelled as lists of characters.  A character
    [c : ascii] stands for the UTF-16 code unit of the same number, so the
    alphabet is U+0000..U+00FF; on that alphabet [trim], [toLowerCase], the
    regular-expression classes [\w] and [\s] and [encodeURIComponent] are
    given as ECMAScript defines them. *)

From Stdlib Require Import ZArith Ascii String Lia.
From stdpp Require Import base option list strings pretty sorting gmap.

Local Open Scope Z_scope.

(** ** Strings *)

Abbreviation jstring := (list ascii).

Definition str (s : string) : jstring := list_ascii_of_string s.

Definition code (c : ascii) : Z := Z.of_N (N_of_ascii c).

Definition between (lo hi : Z) (c : ascii) : bool :=
  (lo <=? code c) && (code c <=? hi).

(** WhiteSpace and LineTerminator code units below 256: TAB, LF, VT, FF, CR,
    SP and NBSP.  It is the set [String.prototype.trim] strips and the
    class [\s]. *)
Definition isWhiteSpace (c : ascii) : bool :=
  between 9 13 c || (code c =? 32) || (code c =? 160).

(** The class [\w]: [A-Za-z0-9_]. *)
Definition isWordChar (c : ascii) : bool :=
  between 65 90 c || between 97 122 c || between 48 57 c || (code c =? 95).

(** Unicode simple lower-casing on U+0000..U+00FF: [A-Z] and the capital
    letters U+00C0..U+00DE (U+00D7, the multiplication sign, apart). *)
Definition toLowerCaseChar (c : ascii) : ascii :=
  if between 65 90 c || (between 192 222 c && negb (code c =? 215))
  then ascii_of_N (N_of_ascii c + 32)
  else c.

Definition toLowerCase (s : jstring) : jstring := map toLowerCaseChar s.

Fixpoint dropWhile {A} (p : A -> bool) (l : list A) : list A :=
  match l with
  | [] => []
  | x :: l' => if p x then dropWhile p l' else l
  end.

Fixpoint takeWhile {A} (p : A -> bool) (l : list A) : list A :=
  match l with
  | [] => []
  | x :: l' => if p x then x :: takeWhile p l' else []
  end.

Definition trimStart (s : jstring) : jstring := dropWhile isWhiteSpace s.
Definition trimEnd (s : jstring) : jstring := rev (dropWhile isWhiteSpace (rev s)).
Definition trim (s : jstring) : jstring := trimEnd (trimStart s).

(** [s.startsWith(p)] *)
Fixpoint startsWith (s p : jstring) {struct p} : bool :=
  match p, s with
  | [], _ => true
  | _ :: _, [] => false
  | b :: p', a :: s' => if decide (a = b) then startsWith s' p' else false
  end.

(** [s.endsWith(p)] *)
Definition endsWith (s p : jstring) : bool := startsWith (rev s) (rev p).

(** [s.includes(p)] *)
Fixpoint includes (s p : jstring) : bool :=
  startsWith s p ||
  match s with
  | [] => false
  | _ :: s' => includes s' p
  end.

(** A string is falsy exactly when it is empty. *)
Definition truthyStr (s : jstring) : bool :=
  match s with [] => false | _ => true end.

(** ** Percent-encoding *)

(** The upper-case hexadecimal digit of a nibble. *)
Definition hexDigit (n : Z) : ascii :=
  ascii_of_N (Z.to_N (if n <? 10 then 48 + n else 55 + n)).

(** [%XX] for one octet. *)
Definition percentOctet (b : Z) : jstring :=
  ["%"%char; hexDigit (Z.shiftr b 4); hexDigit (Z.land b 15)].

(** The characters [encodeURIComponent] leaves alone: letters, digits and
    [- _ . ! ~ * ' ( )]. *)
Definition uriUnescaped (c : ascii) : bool :=
  between 65 90 c || between 97 122 c || between 48 57 c ||
  bool_decide (c ∈ str "-_.!~*'()").

(** UTF-8 octets of a code point below U+0100. *)
Definition utf8 (c : ascii) : list Z :=
  if code c <? 128 then [code c]
  else [Z.lor 192 (Z.shiftr (code c) 6); Z.lor 128 (Z.land (code c) 63)].

Definition encodeChar (c : ascii) : jstring :=
  if uriUnescaped c then [c] else flat_map percentOctet (utf8 c).

Definition encodeURIComponent (s : jstring) : jstring := flat_map encodeChar s.

Definition hexValue (c : ascii) : option Z :=
  if between 48 57 c then Some (code c - 48)
  else if between 65 70 c then Some (code c - 55)
  else if between 97 102 c then Some (code c - 87)
  else None.

Definition charOfCode (n : Z) : ascii := ascii_of_N (Z.to_N n).

(** [decodeURIComponent], the percent-decoding by which a query parameter
    such as [url] is read back from a request line.  [None] stands for a
    [URIError] (a [%] not followed by two hexadecimal digits, an octet
    sequence that is not UTF-8) and also for an escape that denotes a code
    point above U+00FF, which this alphabet does not have. *)
Fixpoint decodeURIComponent (s : jstring) : option jstring :=
  match s with
  | [] => Some []
  | c :: rest =>
      if decide (c = "%"%char) then
        match rest with
        | h1 :: h2 :: rest1 =>
            match hexValue h1, hexValue h2 with
            | Some a, Some b =>
                let B := 16 * a + b in
                if B <? 128 then cons (charOfCode B) <$> decodeURIComponent rest1
                else if (194 <=? B) && (B <=? 195) then
                  match rest1 with
                  | p :: h3 :: h4 :: rest2 =>
                      match hexValue h3, hexValue h4 with
                      | Some a', Some b' =>
                          let B' := 16 * a' + b' in
                          if bool_decide (p = "%"%char) && (Z.land B' 192 =? 128) then
                            cons (charOfCode (Z.lor (Z.shiftl (Z.land B 31) 6) (Z.land B' 63)))
                              <$> decodeURIComponent rest2
                          else None
                      | _, _ => None
                      end
                  | _ => None
                  end
                else None
            | _, _ => None
            end
        | _ => None
        end
      else cons c <$> decodeURIComponent rest
  end.

(** ** Values and exceptions *)

#[local] Set Warnings "-register-all".

(** The values the services handle: what [JSON.parse] yields, [undefined],
    [NaN], and the built-in function a property read can reach.  Numbers are
    the integers, which a double holds exactly up to 2^53; an object lists
    its properties in source order. *)
Inductive jsval :=
| VUndef
| VNull
| VBool (b : bool)
| VNum (z : Z)
| VNaN
| VStr (s : jstring)
| VArr (l : list jsval)
| VObj (kv : list (string * jsval))
| VFun (name : string).

Inductive exn :=
| Error (message : jstring)
| TypeError
| SyntaxError
| NetworkError.

Inductive result (A : Type) :=
| Ok (a : A)
| Throw (e : exn).
Arguments Ok {A} a.
Arguments Throw {A} e.

Definition bindR {A B} (m : result A) (f : A -> result B) : result B :=
  match m with
  | Ok a => f a
  | Throw e => Throw e
  end.

Notation "x <- m ;; k" := (bindR m (fun x => k))
  (at level 100, m at next level, right associativity).

Definition mapResult {A B} (f : A -> B) (m : result A) : result B :=
  x <- m ;; Ok (f x).

Fixpoint mapR {A B} (f : A -> result B) (l : list A) : result (list B) :=
  match l with
  | [] => Ok []
  | x :: l' => y <- f x ;; ys <- mapR f l' ;; Ok (y :: ys)
  end.

Fixpoint filterR {A} (p : A -> result bool) (l : list A) : result (list A) :=
  match l with
  | [] => Ok []
  | x :: l' => b <- p x ;; ys <- filterR p l' ;; Ok (if b then x :: ys else ys)
  end.

(** ToBoolean *)
Definition truthy (v : jsval) : bool :=
  match v with
  | VUndef | VNull | VBool false | VNum 0 | VNaN | VStr [] => false
  | _ => true
  end.

(** [a || b] on values already computed. *)
Definition orElse (a b : jsval) : jsval := if truthy a then a else b.

Definition nullish (v : jsval) : bool :=
  match v with
  | VUndef | VNull => true
  | _ => false
  end.

(** An own property of an object; the last of several with one name stays,
    as in [JSON.parse]. *)
Fixpoint lookupKey (k : string) (kv : list (string * jsval)) : option jsval :=
  match kv with
  | [] => None
  | (k', v) :: kv' =>
      match lookupKey k kv' with
      | Some w => Some w
      | None => if decide (k = k') then Some v else None
      end
  end.

(** [v.k] for [v] neither [undefined] nor [null], for the property names the
    services read.  Of these names the prototypes define [length] (strings,
    arrays, functions), [name] (functions) and [link], the
    [String.prototype.link] method that every string inherits. *)
Definition prop (v : jsval) (k : string) : jsval :=
  match v with
  | VObj kv => default VUndef (lookupKey k kv)
  | VArr l => if decide (k = "length"%string) then VNum (Z.of_nat (length l)) else VUndef
  | VStr s =>
      if decide (k = "length"%string) then VNum (Z.of_nat (length s))
      else if decide (k = "link"%string) then VFun "link"
      else VUndef
  | VFun name =>
      if decide (k = "length"%string) then VNum 1
      else if decide (k = "name"%string) then VStr (str name)
      else VUndef
  | _ => VUndef
  end.

(** [v.k] *)
Definition get (v : jsval) (k : string) : result jsval :=
  if nullish v then Throw TypeError else Ok (prop v k).

(** [v?.k] *)
Definition optGet (v : jsval) (k : string) : jsval :=
  if nullish v then VUndef else prop v k.

(** [l[l.length - 1]] *)
Definition lastElement (l : list jsval) : jsval := default VUndef (last l).

(** [l[i]] *)
Definition element (l : list jsval) (i : nat) : jsval := default VUndef (l !! i).

(** ToString.  An object from JSON has no callable [toString] of its own: it
    prints through [Object.prototype.toString], unless an own property hides
    that method, and then the conversion fails.  An array prints its
    elements joined by commas, [undefined] and [null] as nothing. *)
Fixpoint ToString (v : jsval) : result jstring :=
  match v with
  | VUndef => Ok (str "undefined")
  | VNull => Ok (str "null")
  | VBool b => Ok (str (if b then "true" else "false"))
  | VNum z => Ok (str (pretty z))
  | VNaN => Ok (str "NaN")
  | VStr s => Ok s
  | VArr l =>
      (fix join (l : list jsval) : result jstring :=
         match l with
         | [] => Ok []
         | x :: l' =>
             s <- (if nullish x then Ok [] else ToString x) ;;
             match l' with
             | [] => Ok s
             | _ => r <- join l' ;; Ok (s ++ str "," ++ r)
             end
         end) l
  | VObj kv =>
      match lookupKey "toString" kv with
      | Some _ => Throw TypeError
      | None => Ok (str "[object Object]")
      end
  | VFun name => Ok (str "function " ++ str name ++ str "() { [native code] }")
  end.

(** The value of a digit in a radix, when it is one. *)
Definition digitValue (radix : Z) (c : ascii) : option Z :=
  let d := if between 48 57 c then code c - 48
           else if between 97 122 c then code c - 87
           else if between 65 90 c then code c - 55
           else radix in
  if d <? radix then Some d else None.

(** The longest run of digits at the head of [s], as a number; [acc] is the
    number read so far, [None] before the first digit. *)
Fixpoint parseDigits (radix : Z) (acc : option Z) (s : jstring) : option Z :=
  match s with
  | [] => acc
  | c :: s' =>
      match digitValue radix c with
      | Some d => parseDigits radix (Some (default 0 acc * radix + d)) s'
      | None => acc
      end
  end.

(** [parseInt(s)] with no radix given: leading white space, a sign, [0x] or
    [0X] for radix 16, then digits; [NaN] when there is no digit. *)
Definition parseIntStr (s : jstring) : jsval :=
  let s1 := trimStart s in
  let '(sign, s2) :=
    match s1 with
    | "-"%char :: r => (-1, r)
    | "+"%char :: r => (1, r)
    | _ => (1, s1)
    end in
  let '(radix, s3) :=
    match s2 with
    | "0"%char :: "x"%char :: r => (16, r)
    | "0"%char :: "X"%char :: r => (16, r)
    | _ => (10, s2)
    end in
  match parseDigits radix None s3 with
  | Some n => VNum (sign * n)
  | None => VNaN
  end.

(** [parseInt(v)] *)
Definition parseInt (v : jsval) : result jsval := mapResult parseIntStr (ToString v).

(** [a - b] on numbers. *)
Definition minus (a b : jsval) : jsval :=
  match a, b with
  | VNum x, VNum y => VNum (x - y)
  | _, _ => VNaN
  end.

(** [s.split(sep)] for a separator that is not empty; [skip] characters of
    a separator just found remain to be passed over. *)
Fixpoint splitFrom (sep s : jstring) (skip : nat) (piece : jstring) : list jstring :=
  match s with
  | [] => [piece]
  | c :: s' =>
      match skip with
      | S k => splitFrom sep s' k piece
      | O =>
          if startsWith s sep then piece :: splitFrom sep s' (length sep - 1) []
          else splitFrom sep s' 0 (piece ++ [c])
      end
  end.

Definition split (s sep : jstring) : list jstring := splitFrom sep s 0 [].

(** The stable sort by a compare function, on the results the function
    gives: a negative number puts the first argument first, a positive one
    the second, and zero, for which [NaN] counts, leaves the two as they
    were.  It is the order ECMAScript fixes for [Array.prototype.sort] when
    the compare function is consistent; it is written as an insertion
    sort. *)
Fixpoint insertBy {A} (cmp : A -> A -> result Z) (x : A) (l : list A)
  : result (list A) :=
  match l with
  | [] => Ok [x]
  | y :: l' =>
      c <- cmp x y ;;
      if c <=? 0 then Ok (x :: y :: l') else mapResult (cons y) (insertBy cmp x l')
  end.

Fixpoint stableSort {A} (cmp : A -> A -> result Z) (l : list A) : result (list A) :=
  match l with
  | [] => Ok []
  | x :: l' => sorted <- stableSort cmp l' ;; insertBy cmp x sorted
  end.

(** A compare function that is, on the elements of [l], the difference of
    integer keys, as [(a, b) => b.key - a.key] is when every key is a
    number.  Such a function is a consistent comparator in the sense of
    ECMAScript. *)
Definition consistentOn {A} (cmp : A -> A -> result Z) (l : list A) : Prop :=
  exists key : A -> Z, forall a b, a ∈ l -> b ∈ l -> cmp a b = Ok (key b - key a).

(** What ECMAScript asks of [Array.prototype.sort], the engine's: the array
    it leaves is a permutation of the array it was given, and with a
    consistent comparator it is in the order of the stable sort.  With a
    compare function that is not consistent, as one that gives [NaN] for
    some pairs and numbers for others, the order is the engine's own. *)
Definition conforming {A} (sort : (A -> A -> result Z) -> list A -> result (list A))
  : Prop :=
  (forall cmp l r, sort cmp l = Ok r -> r ≡ₚ l) /\
  (forall cmp l, consistentOn cmp l -> sort cmp l = stableSort cmp l).

(** ** server.cjs *)

Module Server.

(** *** class JioSaavn *)

Record Artist := { artist_name : jstring; artist_id : jstring }.

Record Artists := { primary : list Artist; all : list Artist }.

(** The payload [_createSongPayload] builds. *)
Record Song := {
  song_id : jstring;
  song_name : jstring;
  song_duration : jsval;
  song_album : jstring;
  song_artists : Artists;
  song_downloadUrl : jstring;
  song_image : jstring
}.

(** [_parseArtists] on an array of strings. *)
Definition _parseArtists (artists : list jstring) : list Artist :=
  map (fun artist => {| artist_name := artist; artist_id := [] |}) artists.

(** [(text || '').toString().trim().toLowerCase().replace(/[^\w\s]/g, '')] *)
Definition normalize (text : jstring) : jstring :=
  List.filter (fun c => isWordChar c || isWhiteSpace c) (toLowerCase (trim text)).

(** [(a, b) => a.startsWith(b) || b.startsWith(a)] *)
Definition startsEither (a b : jstring) : bool :=
  startsWith a b || startsWith b a.

(** [startsEither(normalize(a), normalize(b))], the comparison both tests of
    [_findMatchingTrack] make. *)
Definition namesOverlap (a b : jstring) : bool :=
  startsEither (normalize a) (normalize b).

Definition allArtists (track : Song) : list jstring :=
  map artist_name (primary (song_artists track) ++ all (song_artists track)).

Definition artistMatches (artist : jstring) (track : Song) : bool :=
  existsb (fun a => namesOverlap artist a) (allArtists track).

Definition titleMatches (title : jstring) (track : Song) : bool :=
  namesOverlap title (song_name track).

(** The [for ... of] loop of [_findMatchingTrack]: [Some track] when the loop
    returns [track], [None] when it runs to its end. *)
Fixpoint matchingLoop (processedResults : list Song) (title artist : jstring)
  : option Song :=
  match processedResults with
  | [] => None
  | track :: rest =>
      if titleMatches title track && (artistMatches artist track || negb (truthyStr artist))
      then Some track
      else matchingLoop rest title artist
  end.

(** [_findMatchingTrack]; [None] is [undefined]. *)
Definition _findMatchingTrack (processedResults : list Song) (title artist : jstring)
  : option Song :=
  match matchingLoop processedResults title artist with
  | Some track => Some track
  | None =>
      match find (titleMatches title) processedResults with
      | Some t => Some t
      | None => head processedResults
      end
  end.

(** *** The [/proxy] handler *)

Definition port : jstring := str "3001".

(** [req]: the [url] query parameter and the [Range] header, when sent. *)
Record Request := {
  query_url : option jstring;
  headers_range : option jstring
}.

(** The upstream [response] of node-fetch.  [headers] maps a header name to
    the text [response.headers.get] gives for it; [text] is what
    [response.text()] resolves to, [None] when reading the body fails. *)
Record Response := {
  status : Z;
  statusText : jstring;
  headers : gmap string jstring;
  text : option jstring
}.

(** [response.ok] *)
Definition ok (response : Response) : bool :=
  (200 <=? status response) && (status response <=? 299).

(** What [fetch(url, { method: 'GET', headers })] settles to. *)
Inductive Fetched :=
| Rejected
| Fulfilled (response : Response).

(** How the handler ends the reply: [res.send(text)], or
    [response.body.pipe(res)]. *)
Inductive Body :=
| Send (body : jstring)
| Pipe.

(** The reply as the handler's calls on [res] leave it: the status
    [res.status] sets, 200 when it is not called; the headers the handler
    sets with [res.setHeader]; and [res.send] or the pipe.  What Express
    does to the headers of a reply that is sent ([res.send] sets
    [Content-Length] from the body it sends and adds a charset to the
    [Content-Type] of a text) is not the handler's and is not in the record:
    [replyHeaders] are the headers of the reply as it leaves only when the
    body is piped. *)
Record Reply := {
  statusCode : Z;
  replyHeaders : gmap string jstring;
  replyBody : Body
}.

(** [/https?:\/\/[^\s]+/] tried at the head of [s]: the text matched and the
    text after it. *)
Definition matchScheme (scheme s : jstring) : option (jstring * jstring) :=
  if startsWith s scheme then
    let rest := drop (length scheme) s in
    match takeWhile (fun c => negb (isWhiteSpace c)) rest with
    | [] => None
    | run => Some (scheme ++ run, dropWhile (fun c => negb (isWhiteSpace c)) rest)
    end
  else None.

Definition matchUrl (s : jstring) : option (jstring * jstring) :=
  match matchScheme (str "https://") s with
  | Some m => Some m
  | None => matchScheme (str "http://") s
  end.

(** [text.replace(/(https?:\/\/[^\s]+)/g, replacer)]: the leftmost match is
    replaced and the scan goes on after it.  Each step consumes a character,
    so [length text] steps are enough. *)
Fixpoint replaceUrls (steps : nat) (replacer : jstring -> jstring) (text : jstring)
  : jstring :=
  match steps with
  | O => text
  | S steps' =>
      match text with
      | [] => []
      | c :: text' =>
          match matchUrl text with
          | Some (m, rest) => replacer m ++ replaceUrls steps' replacer rest
          | None => c :: replaceUrls steps' replacer text'
          end
      end
  end.

Definition baseProxyUrl : jstring :=
  str "http://localhost:" ++ port ++ str "/proxy?url=".

Definition rewritePlaylist (playlistText : jstring) : jstring :=
  replaceUrls (length playlistText)
    (fun m => baseProxyUrl ++ encodeURIComponent m) playlistText.

Definition isManifest (contentType url : jstring) : bool :=
  includes contentType (str "mpegurl") || endsWith url (str ".m3u8").

(** [if (h) res.setHeader(name, h)] for [h = response.headers.get(name)]. *)
Definition copyHeader (name : string) (response : Response)
    (hs : gmap string jstring) : gmap string jstring :=
  match headers response !! name with
  | Some h => if truthyStr h then <[name := h]> hs else hs
  | None => hs
  end.

(** [response.headers.get('Content-Type') || 'application/vnd.apple.mpegurl'] *)
Definition contentTypeOf (response : Response) : jstring :=
  match headers response !! "Content-Type"%string with
  | Some t => if truthyStr t then t else str "application/vnd.apple.mpegurl"
  | None => str "application/vnd.apple.mpegurl"
  end.

(** [req.headers.range], when it is sent and not empty. *)
Definition rangeOf (req : Request) : option jstring :=
  match headers_range req with
  | Some r => if truthyStr r then Some r else None
  | None => None
  end.

(** [app.get('/proxy', ...)], given what the fetch settles to for a target
    and the [Range] header passed on. *)
Definition proxy (fetch : jstring -> option jstring -> Fetched) (req : Request)
  : Reply :=
  match query_url req with
  | None | Some [] =>
      {| statusCode := 400; replyHeaders := ∅; replyBody := Send (str "Missing url") |}
  | Some url =>
      match fetch url (rangeOf req) with
      | Rejected =>
          {| statusCode := 500; replyHeaders := ∅; replyBody := Send (str "Proxy failed") |}
      | Fulfilled response =>
          if negb (ok response) then
            {| statusCode := status response; replyHeaders := ∅;
               replyBody := Send (statusText response) |}
          else
            let contentType := contentTypeOf response in
            let hs :=
              copyHeader "Content-Range" response
                (copyHeader "Content-Length" response
                  (<["Access-Control-Allow-Origin"%string := str "*"]>
                    (<["Content-Type"%string := contentType]> ∅))) in
            let code := match rangeOf req with Some _ => 206 | None => 200 end in
            if isManifest contentType url then
              match text response with
              | Some playlistText =>
                  {| statusCode := code; replyHeaders := hs;
                     replyBody := Send (rewritePlaylist playlistText) |}
              | None =>
                  {| statusCode := 500; replyHeaders := hs;
                     replyBody := Send (str "Proxy failed") |}
              end
            else
              {| statusCode := code; replyHeaders := hs; replyBody := Pipe |}
      end
  end.

End Server.

(** ** src/services/youtubeService.js *)

Module Service.

Definition JIOSAAVN_API_URL : jstring :=
  str "https://jiosavan-ytify.vercel.app/api/search/songs".
Definition STREAM_API_BASE : jstring := str "https://yt.omada.cafe".

(** A [response] of [fetch]: its status and what [response.json()] resolves
    to, [None] when the body is not JSON. *)
Record Response := {
  status : Z;
  json : option jsval
}.

Definition ok (response : Response) : bool :=
  (200 <=? status response) && (status response <=? 299).

Inductive Fetched :=
| Rejected
| Fulfilled (response : Response).

(** What the module takes from outside: the network ([net n url] is what the
    [n]-th fetch of a run settles to when it asks for [url]), the draws of
    [Math.random().toString(36)], the settings of [instanceService],
    [new URL(u)] with its [hostname] set and printed again, [None] when [u]
    is not a URL, and [Array.prototype.sort] of the engine the module runs
    in, given the compare function as the sort reads it. *)
Record Env := {
  net : nat -> jstring -> Fetched;
  randomId : nat -> jstring;
  getSavedInstance : jstring;
  getSearchProvider : jstring;
  getAudioQuality : jstring;
  withHostname : jstring -> jstring -> option jstring;
  sort : (jsval -> jsval -> result Z) -> list jsval -> result (list jsval)
}.

(** The run so far: the URLs fetched, oldest first, and the number of random
    draws. *)
Record World := {
  fetched : list jstring;
  draws : nat
}.

(** An [async] function body: it reads and extends the run and returns or
    throws. *)
Definition M (A : Type) : Type := World -> result A * World.

Definition ret {A} (a : A) : M A := fun w => (Ok a, w).
Definition throw {A} (e : exn) : M A := fun w => (Throw e, w).
Definition liftR {A} (r : result A) : M A := fun w => (r, w).

Definition bind {A B} (m : M A) (f : A -> M B) : M B := fun w =>
  match m w with
  | (Ok a, w') => f a w'
  | (Throw e, w') => (Throw e, w')
  end.

(** [try { m } catch (error) { handler }] *)
Definition tryCatch {A} (m : M A) (handler : exn -> M A) : M A := fun w =>
  match m w with
  | (Ok a, w') => (Ok a, w')
  | (Throw e, w') => handler e w'
  end.

Notation "x <~ m ;; k" := (bind m (fun x => k))
  (at level 100, m at next level, right associativity).

Fixpoint mapM {A B} (f : A -> M B) (l : list A) : M (list B) :=
  match l with
  | [] => ret []
  | x :: l' => y <~ f x ;; ys <~ mapM f l' ;; ret (y :: ys)
  end.

Section Service.

Context (env : Env).

(** [await fetch(url)] *)
Definition fetch (url : jstring) : M Response := fun w =>
  let w' := {| fetched := fetched w ++ [url]; draws := draws w |} in
  match net env (length (fetched w)) url with
  | Rejected => (Throw NetworkError, w')
  | Fulfilled response => (Ok response, w')
  end.

(** [await response.json()] *)
Definition readJson (response : Response) : M jsval :=
  match json response with
  | Some data => ret data
  | None => throw SyntaxError
  end.

(** [Math.random().toString(36)] *)
Definition random : M jstring := fun w =>
  (Ok (randomId env (draws w)), {| fetched := fetched w; draws := S (draws w) |}).

(** *** Search results *)

Record ArtistRef := { a_name : jsval }.

(** The object both searches build for an item. *)
Record Candidate := {
  c_id : jsval;
  c_title : jsval;
  c_name : jsval;
  c_thumbnail : jsval;
  c_channelTitle : jsval;
  c_duration : jsval;
  c_url : jsval;
  c_isOfficial : jsval;
  c_artists : list ArtistRef
}.

(** [Array.isArray(v) ? v[v.length - 1]?.link || v[v.length - 1]?.url : v] *)
Definition lastLinkOrUrl (v : jsval) : jsval :=
  match v with
  | VArr l => orElse (optGet (lastElement l) "link") (optGet (lastElement l) "url")
  | _ => v
  end.

(** The artists of a JioSaavn item. *)
Definition itemArtists (item : jsval) : result (list ArtistRef) :=
  artists <- get item "artists" ;;
  if truthy (optGet artists "primary") then
    match prop artists "primary" with
    | VArr l => mapR (fun a => n <- get a "name" ;; Ok {| a_name := n |}) l
    | _ => Throw TypeError
    end
  else
    match artists with
    | VArr l =>
        mapR (fun a =>
                match a with
                | VStr _ => Ok {| a_name := a |}
                | _ => n <- get a "name" ;; Ok {| a_name := n |}
                end) l
    | _ =>
        match prop item "primaryArtists" with
        | VStr s => Ok [{| a_name := VStr s |}]
        | _ => Ok []
        end
    end.

(** The callback of [results.map] in [searchJioSaavn]. *)
Definition jioSaavnCandidate (item : jsval) : M Candidate :=
  image <~ liftR (mapResult lastLinkOrUrl (get item "image")) ;;
  downloadUrl <~ liftR (mapResult lastLinkOrUrl (get item "downloadUrl")) ;;
  artists <~ liftR (itemArtists item) ;;
  id <~ (if truthy (prop item "id") then ret (prop item "id")
         else r <~ random ;; ret (VStr r)) ;;
  ret {| c_id := id;
         c_title := orElse (prop item "name") (prop item "title");
         c_name := orElse (prop item "name") (prop item "title");
         c_thumbnail := image;
         c_channelTitle :=
           orElse (match artists with a :: _ => a_name a | [] => VUndef end)
                  (VStr (str "Unknown Artist"));
         c_duration :=
           match prop item "duration" with
           | VStr d => parseIntStr d
           | d => d
           end;
         c_url := downloadUrl;
         c_isOfficial := VBool true;
         c_artists := artists |}.

(** [data.data?.results || data.results || data.data || []] *)
Definition resultsOf (data : jsval) : result jsval :=
  d <- get data "data" ;;
  Ok (orElse (orElse (orElse (optGet d "results") (prop data "results")) d) (VArr [])).

Definition searchJioSaavn (query : jstring) : M (list Candidate) :=
  tryCatch
    (response <~ fetch (JIOSAAVN_API_URL ++ str "?query=" ++ encodeURIComponent query
                          ++ str "&page=0&limit=10") ;;
     if negb (ok response) then throw (Error (str "JioSaavn search failed"))
     else
       data <~ readJson response ;;
       results <~ liftR (resultsOf data) ;;
       match results with
       | VArr items => mapM jioSaavnCandidate items
       | _ => ret []
       end)
    (fun error => ret []).

(** The callback of [data.items.filter] in [searchYouTube]. *)
Definition isStream (item : jsval) : result bool :=
  isShort <- get item "isShort" ;;
  if truthy isShort then Ok false
  else
    match prop item "type" with
    | VStr type => Ok (bool_decide (type = str "stream"))
    | _ => Ok false
    end.

(** The callback of [.map] in [searchYouTube]; [filter] is ['music_songs']. *)
Definition youTubeCandidate (item : jsval) : result Candidate :=
  uploaderName <- get item "uploaderName" ;;
  match orElse uploaderName (VStr (str "Unknown")) with
  | VStr uploader =>
      let uploaderName :=
        if negb (endsWith uploader (str " - Topic")) then uploader ++ str " - Topic"
        else uploader in
      match prop item "url" with
      | VStr url =>
          let videoId :=
            match split url (str "v=") !! 1%nat with
            | Some piece => VStr piece
            | None => VUndef
            end in
          Ok {| c_id := videoId;
                c_title := prop item "title";
                c_name := prop item "title";
                c_thumbnail := prop item "thumbnail";
                c_channelTitle := VStr uploaderName;
                c_duration := prop item "duration";
                c_url := VNull;
                c_isOfficial := VUndef;
                c_artists := [{| a_name := VStr uploaderName |}] |}
      | _ => Throw TypeError
      end
  | _ => Throw TypeError
  end.

Definition searchYouTube (query : jstring) : M (list Candidate) :=
  tryCatch
    (response <~ fetch (getSavedInstance env ++ str "/search?q="
                          ++ encodeURIComponent query ++ str "&filter=music_songs") ;;
     if negb (ok response) then
       throw (Error (str "Search API error: " ++ str (pretty (status response))))
     else
       data <~ readJson response ;;
       items <~ liftR (get data "items") ;;
       if negb (truthy items) then ret []
       else
         match items with
         | VArr l => liftR (kept <- filterR isStream l ;; mapR youTubeCandidate kept)
         | _ => throw TypeError
         end)
    (fun error => throw error).

(** [smartSearch] *)
Definition smartSearch (query : jstring) : M (list Candidate) :=
  if decide (getSearchProvider env = str "jiosaavn") then searchJioSaavn query
  else searchYouTube query.

(** *** Stream selection *)

(** [parseInt(a.bitrate || 0)] *)
Definition bitrateOf (a : jsval) : result jsval :=
  b <- get a "bitrate" ;;
  parseInt (orElse b (VNum 0)).

(** The compare function handed to [audioStreams.sort]. *)
Definition compareBitrate (a b : jsval) : result jsval :=
  bitrateA <- bitrateOf a ;;
  bitrateB <- bitrateOf b ;;
  Ok (minus bitrateB bitrateA).

(** What the sort makes of the function's result: [NaN] counts as zero. *)
Definition sortCompare (a b : jsval) : result Z :=
  v <- compareBitrate a b ;;
  Ok (match v with VNum d => d | _ => 0 end).

(** [audioStreams.sort((a, b) => ...)] *)
Definition sortStreams (audioStreams : list jsval) : result (list jsval) :=
  sort env sortCompare audioStreams.

(** The choice among the sorted streams. *)
Definition selectStream (quality : jstring) (audioStreams : list jsval) : jsval :=
  if decide (quality = str "high") then element audioStreams 0
  else if decide (quality = str "low") then element audioStreams (length audioStreams - 1)
  else element audioStreams (length audioStreams / 2).

(** The callback of [data.adaptiveFormats.filter]. *)
Definition isAudio (format : jsval) : result bool :=
  type <- get format "type" ;;
  if truthy type then
    match type with
    | VStr t => Ok (startsWith t (str "audio"))
    | _ => Throw TypeError
    end
  else Ok false.

Definition getStreamUrl (videoId : jsval) : M jstring :=
  tryCatch
    (id <~ liftR (ToString videoId) ;;
     response <~ fetch (STREAM_API_BASE ++ str "/api/v1/videos/" ++ id) ;;
     if negb (ok response) then
       throw (Error (str "Stream API error: " ++ str (pretty (status response))))
     else
       data <~ readJson response ;;
       adaptiveFormats <~ liftR (get data "adaptiveFormats") ;;
       if negb (truthy adaptiveFormats)
          || match prop adaptiveFormats "length" with VNum 0 => true | _ => false end
       then throw (Error (str "No adaptive formats found"))
       else
         match adaptiveFormats with
         | VArr formats =>
             audioStreams <~ liftR (filterR isAudio formats) ;;
             match audioStreams with
             | [] => throw (Error (str "No audio streams found"))
             | _ =>
                 let quality := getAudioQuality env in
                 sorted <~ liftR (sortStreams audioStreams) ;;
                 let selectedStream := selectStream quality sorted in
                 url <~ liftR (u <- get selectedStream "url" ;; ToString u) ;;
                 match withHostname env url (str "yt.omada.cafe") with
                 | Some originalUrl => ret originalUrl
                 | None => throw TypeError
                 end
             end
         | _ => throw TypeError
         end)
    (fun error => throw error).

(** *** The resolver *)

Record TrackArtist := { ta_name : option jstring }.

(** A track as the player hands it over; [None] is a property that is not
    there. *)
Record Track := {
  t_url : option jstring;
  t_id : option jstring;
  t_name : option jstring;
  t_title : option jstring;
  t_artists : option (list TrackArtist);
  t_channelTitle : option jstring
}.

Definition truthyOpt (o : option jstring) : bool := from_option truthyStr false o.

(** [a || b] on properties. *)
Definition orOpt (a b : option jstring) : option jstring :=
  if truthyOpt a then a else b.

(** A property inside a template literal. *)
Definition interpolate (o : option jstring) : jstring := default (str "undefined") o.

(** [`${track.name || track.title} ${artistName}`.trim()] with
    [artistName = track.artists && track.artists[0] ? track.artists[0].name : ""] *)
Definition strictQuery (track : Track) : jstring :=
  let artistName :=
    match t_artists track with
    | Some (a :: _) => ta_name a
    | _ => Some []
    end in
  trim (interpolate (orOpt (t_name track) (t_title track)) ++ str " "
          ++ interpolate artistName).

(** [(track.name || track.title || "").trim()] *)
Definition retryQuery (track : Track) : jstring :=
  trim (default [] (orOpt (orOpt (t_name track) (t_title track)) (Some []))).

(** One attempt of [getJioSaavnAudioUrl]: the search is made when the query
    is not empty and [results] is kept otherwise; [searchJioSaavn] is inside
    a [try] whose [catch] only warns. *)
Definition attempt (query : jstring) (results : list Candidate) : M (list Candidate) :=
  tryCatch
    (if truthyStr query then searchJioSaavn query else ret results)
    (fun error => ret results).

Definition getJioSaavnAudioUrl (track : Track) : M jsval :=
  match t_url track with
  | Some (c :: u) => ret (VStr (c :: u))
  | _ =>
      results <~ attempt (strictQuery track) [] ;;
      results <~ (match results with
                  | [] => attempt (retryQuery track) results
                  | _ => ret results
                  end) ;;
      match results with
      | [] => throw (Error (str "Track not found on JioSaavn"))
      | first :: _ => ret (c_url first)
      end
  end.

(** [`${track.name || track.title} ${artistNames}`] with [artistNames =
    track.artists ? track.artists.map(a => a.name).join(' ') :
    (track.channelTitle || '')] *)
Definition youTubeQuery (track : Track) : jstring :=
  let artistNames :=
    match t_artists track with
    | Some artists =>
        (fix join (l : list TrackArtist) : jstring :=
           match l with
           | [] => []
           | [a] => default [] (ta_name a)
           | a :: l' => default [] (ta_name a) ++ str " " ++ join l'
           end) artists
    | None => default [] (orOpt (t_channelTitle track) (Some []))
    end in
  interpolate (orOpt (t_name track) (t_title track)) ++ str " " ++ artistNames.

Definition getYouTubeAudioUrl (track : Track) : M jsval :=
  tryCatch
    (match t_url track with
     | Some (c :: u) => ret (VStr (c :: u))
     | _ =>
         videoId <~ (if negb (truthyOpt (t_id track))
                        || negb (bool_decide (length (default [] (t_id track)) = 11%nat))
                     then
                       searchResults <~ searchYouTube (youTubeQuery track) ;;
                       match searchResults with
                       | [] => throw (Error (str "No matching videos found on YouTube"))
                       | first :: _ => ret (c_id first)
                       end
                     else ret (VStr (default [] (t_id track)))) ;;
         audioUrl <~ getStreamUrl videoId ;;
         ret (VStr audioUrl)
     end)
    (fun error => throw error).

(** [getAudioUrlForTrack] *)
Definition getAudioUrlForTrack (track : Track) : M jsval :=
  if decide (getSearchProvider env = str "jiosaavn") then getJioSaavnAudioUrl track
  else getYouTubeAudioUrl track.

End Service.

End Service.

(** ** Vocabulary of the properties *)

(** The characters [normalize] keeps. *)
Definition keptChar (c : ascii) : bool := isWordChar c || isWhiteSpace c.

(** [t] is the first element of [l] that satisfies [P]. *)
Definition firstSuch {A} (P : A -> Prop) (l : list A) (t : A) : Prop :=
  exists l1 l2, l = l1 ++ t :: l2 /\ P t /\ Forall (fun x => ~ P x) l1.

(** The title of a track overlaps the title asked for. *)
Definition titleOverlaps (title : jstring) (track : Server.Song) : Prop :=
  Server.namesOverlap title (Server.song_name track) = true.

(** The title overlaps, and the artist asked for is empty or overlaps one of
    the track's artists, primary and all taken together. *)
Definition fullyMatches (title artist : jstring) (track : Server.Song) : Prop :=
  titleOverlaps title track /\
  (artist = [] \/
   exists a, a ∈ Server.primary (Server.song_artists track)
                  ++ Server.all (Server.song_artists track)
             /\ Server.namesOverlap artist (Server.artist_name a) = true).

(** A candidate [{name, artists: [...]}] as [_createSongPayload] and
    [_parseArtists] shape it. *)
Definition song (name : string) (artists : list string) : Server.Song :=
  {| Server.song_id := [];
     Server.song_name := str name;
     Server.song_duration := VNum 0;
     Server.song_album := [];
     Server.song_artists :=
       {| Server.primary := Server._parseArtists (map str artists);
          Server.all := [] |};
     Server.song_downloadUrl := [];
     Server.song_image := [] |}.

(** No character of [s] is white space. *)
Definition noSpace (s : jstring) : Prop := Forall (fun c => isWhiteSpace c = false) s.

(** [s] is empty or starts with white space. *)
Definition spaceAtStart (s : jstring) : Prop :=
  match s with
  | [] => True
  | c :: _ => isWhiteSpace c = true
  end.

(** [s] is empty or ends with white space. *)
Definition spaceAtEnd (s : jstring) : Prop :=
  match last s with
  | Some c => isWhiteSpace c = true
  | None => True
  end.

(** A token that looks like an absolute URL: a scheme [http://] or
    [https://], then at least one character, and no white space. *)
Definition urlToken (tok : jstring) : Prop :=
  exists scheme run,
    (scheme = str "https://" \/ scheme = str "http://") /\
    tok = scheme ++ run /\ run <> [] /\ noSpace run.

Definition LF : jstring := [ascii_of_N 10].

(** A media playlist with one segment. *)
Definition playlist : jstring :=
  str "#EXTM3U" ++ LF ++ str "#EXTINF:10," ++ LF ++ str "https://host/seg1.ts" ++ LF.

(** An upstream that answers every request with [response]. *)
Definition answering (response : Server.Response)
  : jstring -> option jstring -> Server.Fetched :=
  fun _ _ => Server.Fulfilled response.

(** A request for [url] with a [Range] header. *)
Definition rangeRequest (url range : string) : Server.Request :=
  {| Server.query_url := Some (str url); Server.headers_range := Some (str range) |}.

(** An upstream answer 206 to [Range: bytes=0-99]. *)
Definition partialContent : Server.Response :=
  {| Server.status := 206;
     Server.statusText := str "Partial Content";
     Server.headers :=
       <["Content-Range"%string := str "bytes 0-99/1000"]>
         (<["Content-Length"%string := str "100"]>
           (<["Content-Type"%string := str "audio/mp4"]> ∅));
     Server.text := Some [] |}.

(** An upstream answer 404. *)
Definition notFound : Server.Response :=
  {| Server.status := 404;
     Server.statusText := str "Not Found";
     Server.headers := <["Content-Type"%string := str "text/plain"]> ∅;
     Server.text := Some (str "Not Found") |}.


(** An upstream answer 200 that carries the playlist. *)
Definition playlistResponse : Server.Response :=
  {| Server.status := 200;
     Server.statusText := str "OK";
     Server.headers := <["Content-Type"%string := str "application/vnd.apple.mpegurl"]> ∅;
     Server.text := Some playlist |}.

(** The bitrate the sort reads off a stream is the number [k]. *)
Definition hasBitrate (v : jsval) (k : Z) : Prop := Service.bitrateOf v = Ok (VNum k).

(** [a] does not come after [b] in descending order of bitrate. *)
Definition bitrateGe (a b : jsval) : Prop :=
  forall ka kb, hasBitrate a ka -> hasBitrate b kb -> kb <= ka.

(** An audio format with the bitrate as the stream API prints it. *)
Definition variant (bitrate : string) : jsval :=
  VObj [("type"%string, VStr (str "audio/webm; codecs=opus"));
        ("bitrate"%string, VStr (str bitrate));
        ("url"%string,
           VStr (str "https://rr1.googlevideo.com/videoplayback?id=" ++ str bitrate))].

(** An audio format with no bitrate. *)
Definition variantNoBitrate : jsval :=
  VObj [("type"%string, VStr (str "audio/mp4"));
        ("url"%string, VStr (str "https://rr1.googlevideo.com/videoplayback?id=none"))].

(** The URL [searchJioSaavn] fetches for a query. *)
Definition jioSaavnUrl (query : jstring) : jstring :=
  Service.JIOSAAVN_API_URL ++ str "?query=" ++ encodeURIComponent query
    ++ str "&page=0&limit=10".

(** The URL [searchYouTube] fetches for a query. *)
Definition youTubeUrl (env : Service.Env) (query : jstring) : jstring :=
  Service.getSavedInstance env ++ str "/search?q=" ++ encodeURIComponent query
    ++ str "&filter=music_songs".

(** What the next fetch settles to. *)
Definition nextFetch (env : Service.Env) (w : Service.World) (url : jstring)
  : Service.Fetched :=
  Service.net env (length (Service.fetched w)) url.

(** An [async] function that fetches nothing. *)
Definition keepsFetched {A} (m : Service.M A) : Prop :=
  forall w, Service.fetched (snd (m w)) = Service.fetched w.

(** The run before anything is fetched. *)
Definition start : Service.World := {| Service.fetched := []; Service.draws := 0 |}.

(** The title and the artists of a candidate the services build, when they
    are strings. *)
Definition candidateTitle (c : Service.Candidate) : jstring :=
  match Service.c_name c with
  | VStr s => s
  | _ => []
  end.

Definition candidateArtists (c : Service.Candidate) : list jstring :=
  flat_map (fun a => match Service.a_name a with VStr s => [s] | _ => [] end)
    (Service.c_artists c).

(** The selection of the specification's TextMatcher, in its words, on the
    candidates the services build: the first candidate whose title overlaps
    the title asked for and whose artists, unless no artist is asked for,
    include one that overlaps the artist asked for; else the first whose
    title overlaps; else the first candidate. *)
Definition selectBestCandidate (candidates : list Service.Candidate)
    (titleQuery artistQuery : jstring) : option Service.Candidate :=
  let title c := Server.namesOverlap titleQuery (candidateTitle c) in
  let artist c :=
    negb (truthyStr artistQuery)
    || existsb (Server.namesOverlap artistQuery) (candidateArtists c) in
  match find (fun c => title c && artist c) candidates with
  | Some c => Some c
  | None =>
      match find title candidates with
      | Some c => Some c
      | None => head candidates
      end
  end.

(** A host name put into an [https] URL, for the settings of the examples. *)
Definition setHost (url host : jstring) : option jstring :=
  if startsWith url (str "https://") then
    Some (str "https://" ++ host
            ++ dropWhile (fun c => negb (bool_decide (c = "/"%char))) (drop 8 url))
  else None.

(** Settings with a given provider and network, in an engine whose sort is
    the stable sort. *)
Definition settings (provider : string) (net : nat -> jstring -> Service.Fetched)
  : Service.Env :=
  {| Service.net := net;
     Service.randomId := fun _ => str "0.4fzyo82mvyr";
     Service.getSavedInstance := str "https://pipedapi.kavin.rocks";
     Service.getSearchProvider := str provider;
     Service.getAudioQuality := str "high";
     Service.withHostname := setHost;
     Service.sort := stableSort |}.

(** A song as the JioSaavn search API lists it. *)
Definition saavnSong (id name artist url : string) : jsval :=
  VObj [("id"%string, VStr (str id));
        ("name"%string, VStr (str name));
        ("duration"%string, VNum 200);
        ("artists"%string,
           VObj [("primary"%string, VArr [VObj [("name"%string, VStr (str artist))]])]);
        ("downloadUrl"%string,
           VArr [VObj [("quality"%string, VStr (str "320kbps"));
                       ("url"%string, VStr (str url))]])].

(** The answer of the JioSaavn search API with these songs. *)
Definition saavnAnswer (songs : list jsval) : Service.Fetched :=
  Service.Fulfilled
    {| Service.status := 200;
       Service.json :=
         Some (VObj [("success"%string, VBool true);
                     ("data"%string, VObj [("results"%string, VArr songs)])]) |}.

Definition starboy : jsval :=
  saavnSong "s1" "Starboy" "The Weeknd" "https://aac.saavncdn.com/starboy.mp4".
Definition blindingLights : jsval :=
  saavnSong "s2" "Blinding Lights" "The Weeknd" "https://aac.saavncdn.com/blinding.mp4".

(** The track "Blinding Lights" by The Weeknd, with no URL and no video id. *)
Definition blindingLightsTrack : Service.Track :=
  {| Service.t_url := None;
     Service.t_id := Some (str "4y1LsJpmMti1PfRQV9AWWe");
     Service.t_name := Some (str "Blinding Lights");
     Service.t_title := None;
     Service.t_artists := Some [{| Service.ta_name := Some (str "The Weeknd") |}];
     Service.t_channelTitle := None |}.

(** A track whose name is two spaces, with no artist. *)
Definition blankTrack : Service.Track :=
  {| Service.t_url := None;
     Service.t_id := None;
     Service.t_name := Some (str "  ");
     Service.t_title := None;
     Service.t_artists := None;
     Service.t_channelTitle := None |}.

(** A provider that lists "Starboy" before "Blinding Lights" whatever is
    asked. *)
Definition starboyFirst : Service.Env :=
  settings "jiosaavn" (fun _ _ => saavnAnswer [starboy; blindingLights]).

(** A provider that finds nothing at the first search and "Blinding Lights"
    from the second on. *)
Definition secondTime : Service.Env :=
  settings "jiosaavn"
    (fun n _ => match n with O => saavnAnswer [] | _ => saavnAnswer [blindingLights] end).

(** A search backend that is down. *)
Definition unavailable : Service.Env :=
  settings "youtube"
    (fun _ _ => Service.Fulfilled {| Service.status := 503; Service.json := None |}).

(** The same track with the id of its video. *)
Definition blindingLightsVideo : Service.Track :=
  {| Service.t_url := None;
     Service.t_id := Some (str "4NRXx6U8ABQ");
     Service.t_name := Some (str "Blinding Lights");
     Service.t_title := None;
     Service.t_artists := Some [{| Service.ta_name := Some (str "The Weeknd") |}];
     Service.t_channelTitle := None |}.

(** An item of the search backend's answer. *)
Definition pipedItem (url title uploader : string) : jsval :=
  VObj [("url"%string, VStr (str url));
        ("type"%string, VStr (str "stream"));
        ("title"%string, VStr (str title));
        ("uploaderName"%string, VStr (str uploader));
        ("duration"%string, VNum 200);
        ("isShort"%string, VBool false)].

(** Settings for the YouTube provider where every fetch is answered with
    status 200 and the JSON [data]. *)
Definition youTubeAnswering (data : jsval) : Service.Env :=
  settings "youtube"
    (fun _ _ => Service.Fulfilled {| Service.status := 200; Service.json := Some data |}).

(** A search backend that finds nothing. *)
Definition noItems : Service.Env := youTubeAnswering (VObj [("items"%string, VArr [])]).

(** A search backend whose answer is not JSON. *)
Definition notJson : Service.Env :=
  settings "youtube"
    (fun _ _ => Service.Fulfilled {| Service.status := 200; Service.json := None |}).

(** A network that is down. *)
Definition offline : Service.Env := settings "youtube" (fun _ _ => Service.Rejected).

(** A backend that lists two videos for every search. *)
Definition twoVideos : Service.Env :=
  youTubeAnswering
    (VObj [("items"%string,
            VArr [pipedItem "/watch?v=34Na4j8AVgA" "Starboy" "The Weeknd";
                  pipedItem "/watch?v=4NRXx6U8ABQ" "Blinding Lights" "The Weeknd - Topic"])]).

(** A stream API that offers a video format and the four audio variants. *)
Definition fourVariants : Service.Env :=
  youTubeAnswering
    (VObj [("adaptiveFormats"%string,
            VArr (VObj [("type"%string, VStr (str "video/mp4"));
                        ("bitrate"%string, VStr (str "2500000"));
                        ("url"%string, VStr (str "https://rr1.googlevideo.com/video"))]
                  :: map variant ["128"; "320"; "64"; "256"]))]).
(** ** server.cjs: the class [JioSaavn] on the values of the API *)

Module JioSaavn.

Definition baseURL : jstring := str "https://www.jiosaavn.com/api.php".

(** The characters the serializer of [URLSearchParams] leaves alone: letters,
    digits and [* - . _]. *)
Definition formUnescaped (c : ascii) : bool :=
  between 65 90 c || between 97 122 c || between 48 57 c ||
  bool_decide (c ∈ str "*-._").

(** A space becomes [+]; the other characters are percent-encoded as UTF-8. *)
Definition formEncodeChar (c : ascii) : jstring :=
  if formUnescaped c then [c]
  else if code c =? 32 then str "+"
  else flat_map percentOctet (utf8 c).

Definition formEncode (s : jstring) : jstring := flat_map formEncodeChar s.

Fixpoint joinWith (sep : jstring) (l : list jstring) : jstring :=
  match l with
  | [] => []
  | [s] => s
  | s :: l' => s ++ sep ++ joinWith sep l'
  end.

(** [params.toString()] of a [URLSearchParams] *)
Definition serialize (params : list (jstring * jstring)) : jstring :=
  joinWith (str "&")
    (map (fun p => formEncode (fst p) ++ str "=" ++ formEncode (snd p)) params).

(** A parameter with a default value: the default stands in for
    [undefined]. *)
Definition orDefault (v d : jsval) : jsval :=
  match v with
  | VUndef => d
  | _ => v
  end.

(** [v.toString()] *)
Definition toStringOf (v : jsval) : result jstring :=
  if nullish v then Throw TypeError else ToString v.

(** [_buildSearchURL(query, limit = 10)] *)
Definition _buildSearchURL (query : jstring) (limit : jsval) : result jstring :=
  n <- toStringOf (orDefault limit (VNum 10)) ;;
  Ok (baseURL ++ str "?"
        ++ serialize [(str "_format", str "json");
                      (str "_marker", str "0");
                      (str "api_version", str "4");
                      (str "ctx", str "web6dot0");
                      (str "__call", str "search.getResults");
                      (str "q", query);
                      (str "p", str "0");
                      (str "n", n)]).

(** An entry of [artists.primary] and [artists.all]. *)
Record ArtistPayload := { a_name : jsval; a_id : jsval }.

(** The object [_createSongPayload] returns; [p_album] is [album.name],
    [p_primary] and [p_all] are [artists.primary] and [artists.all]. *)
Record Payload := {
  p_id : jsval;
  p_name : jsval;
  p_duration : jsval;
  p_album : jsval;
  p_primary : list ArtistPayload;
  p_all : list ArtistPayload;
  p_downloadUrl : jsval;
  p_image : jsval
}.

(** [_parseArtists] *)
Definition _parseArtists (artists : jsval) : result (list ArtistPayload) :=
  match artists with
  | VArr l =>
      mapR (fun artist =>
              match artist with
              | VStr _ => Ok {| a_name := artist; a_id := VStr [] |}
              | _ =>
                  n <- get artist "name" ;;
                  Ok {| a_name := orElse (orElse n (prop artist "title")) (VStr []);
                        a_id := orElse (prop artist "id") (VStr []) |}
              end) l
  | _ => Ok []
  end.

(** [_createSongPayload] *)
Definition _createSongPayload (rawSong : jsval) : result Payload :=
  id <- get rawSong "id" ;;
  duration <- parseInt (orElse (prop rawSong "duration") (VStr (str "0"))) ;;
  primary <- _parseArtists (orElse (orElse (prop rawSong "primary_artists")
                                           (prop rawSong "artists")) (VArr [])) ;;
  all <- _parseArtists (orElse (prop rawSong "all_artists") (VArr [])) ;;
  Ok {| p_id := id;
        p_name := orElse (orElse (prop rawSong "title") (prop rawSong "song")) (VStr []);
        p_duration := duration;
        p_album := orElse (orElse (prop rawSong "album") (prop rawSong "album_name"))
                          (VStr []);
        p_primary := primary;
        p_all := all;
        p_downloadUrl :=
          orElse (orElse (orElse (prop rawSong "download_url") (prop rawSong "media_url"))
                         (prop rawSong "media_preview_url")) (VStr []);
        p_image := orElse (orElse (prop rawSong "image") (prop rawSong "thumbnail"))
                          (VStr []) |}.

(** [normalize] of [_findMatchingTrack] on a value:
    [(text || '').toString().trim().toLowerCase().replace(/[^\w\s]/g, '')] *)
Definition normalize (text : jsval) : result jstring :=
  s <- toStringOf (orElse text (VStr [])) ;;
  Ok (Server.normalize s).

(** [startsEither(normalize(a), normalize(b))] *)
Definition overlap (a b : jsval) : result bool :=
  na <- normalize a ;;
  nb <- normalize b ;;
  Ok (Server.startsEither na nb).

(** [[...(track.artists.primary || []), ...(track.artists.all || [])].map(a => a.name)] *)
Definition allArtists (track : Payload) : list jsval :=
  map a_name (p_primary track ++ p_all track).

(** [allArtists.some(a => startsEither(normalize(artist), normalize(a)))] *)
Fixpoint someOverlap (artist : jsval) (allArtists : list jsval) : result bool :=
  match allArtists with
  | [] => Ok false
  | a :: rest =>
      b <- overlap artist a ;;
      if b then Ok true else someOverlap artist rest
  end.

(** The [for ... of] loop of [_findMatchingTrack]. *)
Fixpoint matchingLoop (processedResults : list Payload) (title artist : jstring)
  : result (option Payload) :=
  match processedResults with
  | [] => Ok None
  | track :: rest =>
      artistMatches <- someOverlap (VStr artist) (allArtists track) ;;
      titleMatches <- overlap (VStr title) (p_name track) ;;
      if titleMatches && (artistMatches || negb (truthyStr artist)) then Ok (Some track)
      else matchingLoop rest title artist
  end.

(** [processedResults.find(t => startsEither(normalize(title), normalize(t.name)))] *)
Fixpoint findTitle (processedResults : list Payload) (title : jstring)
  : result (option Payload) :=
  match processedResults with
  | [] => Ok None
  | t :: rest =>
      b <- overlap (VStr title) (p_name t) ;;
      if b then Ok (Some t) else findTitle rest title
  end.

(** [_findMatchingTrack]; [None] is [undefined]. *)
Definition _findMatchingTrack (processedResults : list Payload) (title artist : jstring)
  : result (option Payload) :=
  m <- matchingLoop processedResults title artist ;;
  match m with
  | Some track => Ok (Some track)
  | None =>
      f <- findTitle processedResults title ;;
      match f with
      | Some t => Ok (Some t)
      | None => Ok (head processedResults)
      end
  end.

Section Class.

(** What [fetch(url, { headers: this.headers })] settles to. *)
Context (net : jstring -> Service.Fetched).

(** [await fetch(url, ...)] and [await response.json()]: the status of the
    response is not looked at. *)
Definition fetchJson (url : jstring) : result jsval :=
  match net url with
  | Service.Rejected => Throw NetworkError
  | Service.Fulfilled response =>
      match Service.json response with
      | Some data => Ok data
      | None => Throw SyntaxError
      end
  end.

(** [search(title, artist)]; its [catch] logs the error and throws it
    again. *)
Definition search (title artist : jstring) : result Payload :=
  url <- _buildSearchURL (title ++ str " " ++ artist) VUndef ;;
  data <- fetchJson url ;;
  r <- get data "results" ;;
  let results := orElse r (VArr []) in
  match prop results "length" with
  | VNum 0 => Throw (Error (str "No results found"))
  | _ =>
      match results with
      | VArr l =>
          processedResults <- mapR _createSongPayload l ;;
          matchingTrack <- _findMatchingTrack processedResults title artist ;;
          match matchingTrack with
          | Some track => Ok track
          | None => Throw (Error (str "No matching track found"))
          end
      | _ => Throw TypeError
      end
  end.

(** [searchAll(query, limit = 10)]; the list is the [results] of the object
    returned. *)
Definition searchAll (query : jstring) (limit : jsval) : result (list Payload) :=
  url <- _buildSearchURL query (orDefault limit (VNum 10)) ;;
  data <- fetchJson url ;;
  r <- get data "results" ;;
  let results := orElse r (VArr []) in
  match prop results "length" with
  | VNum 0 => Ok []
  | _ =>
      match results with
      | VArr l => mapR _createSongPayload l
      | _ => Throw TypeError
      end
  end.

End Class.

End JioSaavn.

(** ** server.cjs: the endpoints [/jiosaavn/search], [/jiosaavn/search/all]
    and [/scrape] *)

Module Endpoints.

(** The body of a JSON reply: [res.json(result)], [{ error: '...' }] with a
    text of the handler, or [{ error: error.message }] for an error caught. *)
Inductive JsonBody (A : Type) :=
| Result (a : A)
| ErrorText (message : jstring)
| ErrorMessage (error : exn).
Arguments Result {A} a.
Arguments ErrorText {A} message.
Arguments ErrorMessage {A} error.

Record Reply (A : Type) := {
  statusCode : Z;
  body : JsonBody A
}.
Arguments statusCode {A} _.
Arguments body {A} _.

(** [req.query] of [/jiosaavn/search]; a parameter is a string when it is
    given. *)
Record SearchQuery := {
  query_title : option jstring;
  query_artist : option jstring
}.

(** [app.get('/jiosaavn/search', ...)] *)
Definition jiosaavnSearch (net : jstring -> Service.Fetched) (req : SearchQuery)
  : Reply JioSaavn.Payload :=
  match query_title req with
  | None | Some [] => {| statusCode := 400; body := ErrorText (str "Missing title") |}
  | Some title =>
      let artist :=
        match query_artist req with
        | Some a => a
        | None => []
        end in
      match JioSaavn.search net title artist with
      | Ok result => {| statusCode := 200; body := Result result |}
      | Throw error => {| statusCode := 500; body := ErrorMessage error |}
      end
  end.

(** [req.query] of [/jiosaavn/search/all] *)
Record SearchAllQuery := {
  query_q : option jstring;
  query_limit : option jstring
}.

(** [app.get('/jiosaavn/search/all', ...)]; the list is the [results] of the
    object sent. *)
Definition jiosaavnSearchAll (net : jstring -> Service.Fetched) (req : SearchAllQuery)
  : Reply (list JioSaavn.Payload) :=
  match query_q req with
  | None | Some [] => {| statusCode := 400; body := ErrorText (str "Missing query") |}
  | Some q =>
      let limit :=
        match query_limit req with
        | Some l => VStr l
        | None => VNum 20
        end in
      match (n <- parseInt limit ;; JioSaavn.searchAll net q n) with
      | Ok result => {| statusCode := 200; body := Result result |}
      | Throw error => {| statusCode := 500; body := ErrorMessage error |}
      end
  end.

Definition INVIDIOUS_API : jstring := str "https://yt.omada.cafe".

(** [{ bitrate: parseInt(v.bitrate), url: v.url, type: v.type }] *)
Record AudioStream := {
  s_bitrate : jsval;
  s_url : jsval;
  s_type : jsval
}.

(** What [/scrape] takes from outside: the fetch, [yt-dlp] ([None] when the
    promise is rejected), [new URL(u)] with its [hostname] set and printed
    again, [None] when [u] is not a URL, and [Array.prototype.sort] of the
    engine, given the compare function as the sort reads it. *)
Record Env := {
  fetch : jstring -> Service.Fetched;
  ytdlp : jstring -> option jsval;
  withHostname : jstring -> jstring -> option jstring;
  sort : (AudioStream -> AudioStream -> result Z) -> list AudioStream
         -> result (list AudioStream)
}.

(** [(a, b) => b.bitrate - a.bitrate] as the sort reads it: [NaN] counts as
    zero. *)
Definition compareStreams (a b : AudioStream) : result Z :=
  Ok (match minus (s_bitrate b) (s_bitrate a) with VNum d => d | _ => 0 end).

Definition audioStream (v : jsval) : result AudioStream :=
  bitrate <- parseInt (prop v "bitrate") ;;
  Ok {| s_bitrate := bitrate; s_url := prop v "url"; s_type := prop v "type" |}.

Section Scrape.

Context (env : Env).

(** The first [try] of [/scrape]: [Ok (Some proxiedUrl)] when the handler
    replies from it, [Ok None] when it comes to its end without a reply,
    [Throw] when it throws. *)
Definition invidious (videoId : jstring) : result (option jstring) :=
  match fetch env (INVIDIOUS_API ++ str "/api/v1/videos/" ++ videoId) with
  | Service.Rejected => Throw NetworkError
  | Service.Fulfilled invidiousResponse =>
      if Service.ok invidiousResponse then
        match Service.json invidiousResponse with
        | None => Throw SyntaxError
        | Some data =>
            if truthy data && truthy (prop data "adaptiveFormats") then
              match prop data "adaptiveFormats" with
              | VArr formats =>
                  kept <- filterR Service.isAudio formats ;;
                  audioStreams <- mapR audioStream kept ;;
                  match audioStreams with
                  | [] => Ok None
                  | _ =>
                      sorted <- sort env compareStreams audioStreams ;;
                      match sorted with
                      | bestAudio :: _ =>
                          if truthy (s_url bestAudio) then
                            u <- ToString (s_url bestAudio) ;;
                            match withHostname env u (str "yt.omada.cafe") with
                            | Some originalStreamUrl =>
                                Ok (Some (Server.baseProxyUrl
                                            ++ encodeURIComponent originalStreamUrl))
                            | None => Throw TypeError
                            end
                          else Ok None
                      | [] => Ok None
                      end
                  end
              | _ => Throw TypeError
              end
            else Ok None
        end
      else Ok None
  end.

(** [req.query] of [/scrape] *)
Record ScrapeQuery := { query_videoId : option jstring }.

(** [app.get('/scrape', ...)]; the text is the [url] of the object sent. *)
Definition scrape (req : ScrapeQuery) : Reply jstring :=
  match query_videoId req with
  | None | Some [] => {| statusCode := 400; body := ErrorText (str "Missing videoId") |}
  | Some videoId =>
      match invidious videoId with
      | Ok (Some proxiedUrl) => {| statusCode := 200; body := Result proxiedUrl |}
      | _ =>
          match ytdlp env (str "https://www.youtube.com/watch?v=" ++ videoId) with
          | Some (VStr streamUrl) =>
              {| statusCode := 200;
                 body := Result (Server.baseProxyUrl ++ encodeURIComponent (trim streamUrl)) |}
          | _ => {| statusCode := 500; body := ErrorText (str "Failed to scrape") |}
          end
      end
  end.

End Scrape.

End Endpoints.


(** ** Vocabulary of the further properties *)

(** The characters a normalized string is made of: lower-case letters,
    digits, the underscore and white space. *)
Definition normalChar (c : ascii) : bool :=
  between 97 122 c || between 48 57 c || (code c =? 95) || isWhiteSpace c.

(** The characters [encodeURIComponent] puts out: the ones it leaves alone
    and the percent sign of its escapes. *)
Definition uriSafe (c : ascii) : bool :=
  uriUnescaped c || bool_decide (c = "%"%char).

(** The names of the headers the [/proxy] handler sets. *)
Definition proxyHeaderNames : list string :=
  ["Content-Type"; "Access-Control-Allow-Origin"; "Content-Length"; "Content-Range"]%string.

(** An upstream answer 200 with a body and no header at all. *)
Definition bareResponse (body : string) : Server.Response :=
  {| Server.status := 200;
     Server.statusText := str "OK";
     Server.headers := ∅;
     Server.text := Some (str body) |}.

(** A request for [url] without a [Range] header. *)
Definition plainRequest (url : string) : Server.Request :=
  {| Server.query_url := Some (str url); Server.headers_range := None |}.

(** An [async] function that adds at most [n] fetches to the run. *)
Definition fetchesAtMost {A} (n : nat) (m : Service.M A) : Prop :=
  forall w, exists l,
    Service.fetched (snd (m w)) = Service.fetched w ++ l /\ (length l <= n)%nat.

(** The bitrate the sort reads off a stream is the number [k], as a test. *)
Definition bitrateIs (k : Z) (v : jsval) : bool :=
  match Service.bitrateOf v with
  | Ok (VNum k') => k' =? k
  | _ => false
  end.

(** A track that has a direct URL. *)
Definition resolvedTrack : Service.Track :=
  {| Service.t_url := Some (str "https://aac.saavncdn.com/blinding.mp4");
     Service.t_id := None;
     Service.t_name := Some (str "Blinding Lights");
     Service.t_title := None;
     Service.t_artists := None;
     Service.t_channelTitle := None |}.

(** A track with nothing but an artist. *)
Definition namelessTrack : Service.Track :=
  {| Service.t_url := None;
     Service.t_id := None;
     Service.t_name := None;
     Service.t_title := None;
     Service.t_artists := Some [{| Service.ta_name := Some (str "The Weeknd") |}];
     Service.t_channelTitle := None |}.

(** A provider whose list of results has a [null] in it. *)
Definition nullAmongResults : Service.Env :=
  settings "jiosaavn" (fun _ _ => saavnAnswer [starboy; VNull; blindingLights]).

(** A stream API that offers video formats only. *)
Definition videoOnly : Service.Env :=
  youTubeAnswering
    (VObj [("adaptiveFormats"%string,
            VArr [VObj [("type"%string, VStr (str "video/mp4"));
                        ("bitrate"%string, VStr (str "2500000"));
                        ("url"%string, VStr (str "https://rr1.googlevideo.com/video"))]])]).

(** A stream API that has no formats. *)
Definition noFormats : Service.Env := youTubeAnswering (VObj [("adaptiveFormats"%string, VArr [])]).

(** The URL [getStreamUrl] fetches for a video id. *)
Definition streamUrl (id : jstring) : jstring :=
  Service.STREAM_API_BASE ++ str "/api/v1/videos/" ++ id.

(** What a candidate of [searchYouTube] looks like: the channel is a string
    ending in [" - Topic"], it is the one artist, there is no direct URL and
    name and title are one value. *)
Definition topicCandidate (c : Service.Candidate) : Prop :=
  exists channel,
    Service.c_channelTitle c = VStr channel /\
    endsWith channel (str " - Topic") = true /\
    Service.c_artists c = [{| Service.a_name := VStr channel |}] /\
    Service.c_url c = VNull /\
    Service.c_name c = Service.c_title c.

(** A value an [a || b || ''] chain ends in: a truthy value or the empty
    string. *)
Definition filled (v : jsval) : Prop := truthy v = true \/ v = VStr [].

(** A number, [NaN] included. *)
Definition numeric (v : jsval) : Prop := v = VNaN \/ exists z, v = VNum z.

(** What every payload of [_createSongPayload] looks like. *)
Definition wellFormed (p : JioSaavn.Payload) : Prop :=
  filled (JioSaavn.p_name p) /\ filled (JioSaavn.p_album p) /\
  filled (JioSaavn.p_downloadUrl p) /\ filled (JioSaavn.p_image p) /\
  numeric (JioSaavn.p_duration p) /\
  Forall (fun a => filled (JioSaavn.a_name a) /\ filled (JioSaavn.a_id a))
    (JioSaavn.p_primary p ++ JioSaavn.p_all p).

(** The payload has the name and the artists of the song, as strings. *)
Definition typedAs (p : JioSaavn.Payload) (s : Server.Song) : Prop :=
  JioSaavn.p_name p = VStr (Server.song_name s) /\
  map JioSaavn.a_name (JioSaavn.p_primary p)
    = map (fun a => VStr (Server.artist_name a)) (Server.primary (Server.song_artists s)) /\
  map JioSaavn.a_name (JioSaavn.p_all p)
    = map (fun a => VStr (Server.artist_name a)) (Server.all (Server.song_artists s)).

(** A song as the JioSaavn API of [server.cjs] lists it. *)
Definition rawSong (id title : string) (artists : list string) : jsval :=
  VObj [("id"%string, VStr (str id));
        ("title"%string, VStr (str title));
        ("duration"%string, VStr (str "200"));
        ("primary_artists"%string, VArr (map (fun a => VStr (str a)) artists));
        ("media_preview_url"%string, VStr (str "https://preview.saavncdn.com/" ++ str id))].

(** The payload of such a song. *)
Definition payloadOf (id title : string) (artists : list string) : JioSaavn.Payload :=
  {| JioSaavn.p_id := VStr (str id);
     JioSaavn.p_name := VStr (str title);
     JioSaavn.p_duration := VNum 200;
     JioSaavn.p_album := VStr [];
     JioSaavn.p_primary :=
       map (fun a => {| JioSaavn.a_name := VStr (str a); JioSaavn.a_id := VStr [] |}) artists;
     JioSaavn.p_all := [];
     JioSaavn.p_downloadUrl := VStr (str "https://preview.saavncdn.com/" ++ str id);
     JioSaavn.p_image := VStr [] |}.

(** An API that answers every request with [status] and the JSON [data]. *)
Definition apiAnswering (status : Z) (data : jsval) : jstring -> Service.Fetched :=
  fun _ => Service.Fulfilled {| Service.status := status; Service.json := Some data |}.

(** The page [/scrape] hands to [yt-dlp] for a video id. *)
Definition watchUrl (videoId : jstring) : jstring :=
  str "https://www.youtube.com/watch?v=" ++ videoId.

(** The bitrate [/scrape] reads off a format is the number [k]. *)
Definition scrapeBitrate (v : jsval) (k : Z) : Prop :=
  parseInt (prop v "bitrate") = Ok (VNum k).

(** What the stream API says of a video that has a video format and four
    audio formats. *)
Definition formatsData : jsval :=
  VObj [("adaptiveFormats"%string,
         VArr (VObj [("type"%string, VStr (str "video/mp4"));
                     ("bitrate"%string, VStr (str "2500000"));
                     ("url"%string, VStr (str "https://rr1.googlevideo.com/video"))]
               :: map variant ["128"; "320"; "64"; "256"]))].

(** The surroundings of [/scrape]: every fetch is settled as [fetched] says
    and [yt-dlp] ends as [download] says; the engine's sort is the stable
    sort. *)
Definition scrapeEnv (fetched : Service.Fetched) (download : option jsval) : Endpoints.Env :=
  {| Endpoints.fetch := fun _ => fetched;
     Endpoints.ytdlp := fun _ => download;
     Endpoints.withHostname := setHost;
     Endpoints.sort := stableSort |}.

(** A request to [/scrape] for a video. *)
Definition scrapeRequest (videoId : string) : Endpoints.ScrapeQuery :=
  {| Endpoints.query_videoId := Some (str videoId) |}.

(** The characters the serializer of [URLSearchParams] puts out: the ones it
    leaves alone, the plus sign of a space and the percent sign of its
    escapes. *)
Definition formSafe (c : ascii) : bool :=
  JioSaavn.formUnescaped c || bool_decide (c = "+"%char) || bool_decide (c = "%"%char).

(** The URL of the JioSaavn API up to the value of [q]. *)
Definition searchPrefix : jstring :=
  str "https://www.jiosaavn.com/api.php?_format=json&_marker=0&api_version=4&ctx=web6dot0&__call=search.getResults&q=".

(** * Properties *)

(** ** Characters and strings *)

Ltac each_char c :=
  destruct c as [[] [] [] [] [] [] [] []]; vm_compute; try reflexivity; try discriminate; auto.

Example trim_white_space :
  trim ([ascii_of_N 160; ascii_of_N 9] ++ str " a b " ++ [ascii_of_N 10]) = str "a b".
Proof. reflexivity. Qed.

Example toLowerCase_latin1 :
  toLowerCase (str "AbZ_9" ++ [ascii_of_N 201; ascii_of_N 215; ascii_of_N 223])
  = str "abz_9" ++ [ascii_of_N 233; ascii_of_N 215; ascii_of_N 223].
Proof. reflexivity. Qed.

Example encodeURIComponent_url :
  encodeURIComponent (str "https://host/seg1.ts?a=b c&d=(e)")
  = str "https%3A%2F%2Fhost%2Fseg1.ts%3Fa%3Db%20c%26d%3D(e)".
Proof. reflexivity. Qed.

Example encodeURIComponent_e_acute : encodeURIComponent [ascii_of_N 233] = str "%C3%A9".
Proof. reflexivity. Qed.

Example decodeURIComponent_malformed :
  decodeURIComponent (str "100%") = None /\ decodeURIComponent (str "%C3(") = None.
Proof. split; reflexivity. Qed.

Example parseInt_strings :
  parseIntStr (str "128000") = VNum 128000 /\
  parseIntStr (str "  -42px") = VNum (-42) /\
  parseIntStr (str "0x1F") = VNum 31 /\
  parseIntStr (str "abc") = VNaN /\
  parseIntStr (str "") = VNaN.
Proof. repeat split; reflexivity. Qed.

Example ToString_values :
  ToString (VArr [VNum (-12); VNull; VStr (str "a"); VArr [VNum 1; VNum 2]])
    = Ok (str "-12,,a,1,2") /\
  ToString (VObj [("bitrate"%string, VNum 1)]) = Ok (str "[object Object]") /\
  ToString (VObj [("toString"%string, VNull)]) = Throw TypeError.
Proof. repeat split; reflexivity. Qed.

Example split_watch_url :
  split (str "/watch?v=4NRXx6U8ABQ") (str "v=") = [str "/watch?"; str "4NRXx6U8ABQ"] /\
  split (str "/channel/UC") (str "v=") = [str "/channel/UC"].
Proof. split; reflexivity. Qed.

Lemma toLowerCaseChar_idem c : toLowerCaseChar (toLowerCaseChar c) = toLowerCaseChar c.
Proof. each_char c. Qed.

Lemma dropWhile_idem {A} (p : A -> bool) l : dropWhile p (dropWhile p l) = dropWhile p l.
Proof.
  induction l as [|x l IH]; simpl; [done|].
  destruct (p x) eqn:E; [done|]. simpl. by rewrite E.
Qed.

Lemma dropWhile_snoc {A} (p : A -> bool) l c :
  p c = false -> dropWhile p (l ++ [c]) = dropWhile p l ++ [c].
Proof.
  intros Hc. induction l as [|x l IH]; simpl; [by rewrite Hc|].
  by destruct (p x).
Qed.

Lemma dropWhile_head {A} (p : A -> bool) c l : p c = false -> dropWhile p (c :: l) = c :: l.
Proof. intros Hc. simpl. by rewrite Hc. Qed.

Lemma dropWhile_Forall {A} (P : A -> Prop) (p : A -> bool) l :
  Forall P l -> Forall P (dropWhile p l).
Proof.
  induction 1 as [|x l Hx Hl IH]; simpl; [constructor|].
  destruct (p x); [done|by constructor].
Qed.

Lemma trim_Forall (P : ascii -> Prop) s : Forall P s -> Forall P (trim s).
Proof.
  intros H. unfold trim, trimEnd, trimStart.
  apply Forall_rev, dropWhile_Forall, Forall_rev, dropWhile_Forall, H.
Qed.

(** A trimmed string has no white space at either end, so trimming it again
    changes nothing. *)
Lemma trim_idem s : trim (trim s) = trim s.
Proof.
  unfold trim, trimEnd, trimStart.
  set (s' := dropWhile isWhiteSpace s).
  assert (Hs' : dropWhile isWhiteSpace s' = s') by apply dropWhile_idem.
  assert (Hhead : dropWhile isWhiteSpace (rev (dropWhile isWhiteSpace (rev s')))
                  = rev (dropWhile isWhiteSpace (rev s'))).
  { destruct s' as [|c r] eqn:E; [done|].
    assert (Hc : isWhiteSpace c = false).
    { simpl in Hs'. destruct (isWhiteSpace c) eqn:Hc; [|done].
      exfalso. assert (Hlen : length (dropWhile isWhiteSpace r) = S (length r)) by (by rewrite Hs').
      clear -Hlen. revert Hlen. generalize (isWhiteSpace). intros p.
      assert (forall l : list ascii, (length (dropWhile p l) <= length l)%nat) as Hle.
      { induction l as [|x l IH]; simpl; [lia|]. destruct (p x); simpl; lia. }
      specialize (Hle r). lia. }
    simpl rev. rewrite (dropWhile_snoc _ _ _ Hc), rev_app_distr. simpl.
    by rewrite Hc. }
  rewrite Hhead, rev_involutive, dropWhile_idem. done.
Qed.

Lemma startsWith_prefix s p : startsWith s p = true <-> p `prefix_of` s.
Proof.
  revert s. induction p as [|b p IH]; intros s; simpl.
  - split; [intros _; apply prefix_nil|done].
  - destruct s as [|a s]; simpl.
    + split; [done|]. intros [k Hk]. discriminate.
    + destruct (decide (a = b)) as [->|Hne].
      * rewrite IH. split; [apply prefix_cons|apply prefix_cons_inv_2].
      * split; [done|]. intros H. by apply prefix_cons_inv_1 in H.
Qed.

(** ** The matcher of [server.cjs] *)

Section Matcher.

Import Server.

Lemma normalize_chars x :
  Forall (fun c => keptChar c = true /\ toLowerCaseChar c = c) (normalize x).
Proof.
  unfold normalize, toLowerCase.
  induction (trim x) as [|c l IH]; simpl; [constructor|].
  destruct (isWordChar (toLowerCaseChar c) || isWhiteSpace (toLowerCaseChar c)) eqn:E;
    [|done].
  constructor; [|done]. split; [done|apply toLowerCaseChar_idem].
Qed.

Lemma normalize_of_normal s :
  Forall (fun c => keptChar c = true /\ toLowerCaseChar c = c) s ->
  normalize s = trim s.
Proof.
  intros H. apply (trim_Forall _ _) in H. unfold normalize, toLowerCase.
  induction H as [|c l [Hk Hl] _ IH]; simpl; [done|].
  rewrite Hl. unfold keptChar in Hk. rewrite Hk. by f_equal.
Qed.

Example normalize_strips :
  normalize (str "  Blinding Lights (Remix)! ") = str "blinding lights remix".
Proof. reflexivity. Qed.

Example normalize_exposes_space :
  normalize (str "Wake Me Up !") = str "wake me up ".
Proof. reflexivity. Qed.

(** C9, as stated, fails: stripping the punctuation of ["Wake Me Up !"]
    leaves a space at the end of the result, which a second [normalize]
    trims away. *)
Lemma normalize_not_idempotent :
  normalize (normalize (str "Wake Me Up !")) <> normalize (str "Wake Me Up !").
Proof. vm_compute. discriminate. Qed.

(** C9, amended: a second [normalize] only trims what the first one left,
    [normalize (normalize x) = trim (normalize x)], so that [normalize] is
    idempotent from its second application on. *)
Theorem normalize_twice x :
  normalize (normalize x) = trim (normalize x) /\
  normalize (normalize (normalize x)) = normalize (normalize x).
Proof.
  assert (H1 : normalize (normalize x) = trim (normalize x))
    by apply normalize_of_normal, normalize_chars.
  split; [done|].
  rewrite H1 at 1.
  rewrite normalize_of_normal by apply trim_Forall, normalize_chars.
  by rewrite trim_idem.
Qed.

Lemma namesOverlap_prefix a b :
  namesOverlap a b = true <->
  normalize b `prefix_of` normalize a \/ normalize a `prefix_of` normalize b.
Proof.
  unfold namesOverlap, startsEither.
  rewrite orb_true_iff, !startsWith_prefix. done.
Qed.

(** C8, as stated, fails: ["weeknd"] ends ["the weeknd"] but does not begin
    it, so the two names do not overlap. *)
Lemma namesOverlap_the_weeknd :
  namesOverlap (str "the weeknd") (str "weeknd") = false.
Proof. reflexivity. Qed.

(** C8, amended: [namesOverlap a b] holds exactly when one normalized string
    is a prefix of the other; so it holds of ["the weeknd"] and ["the"], and
    fails of ["the weeknd"] and ["weeknd"] and of ["abc"] and ["xyz"]. *)
Theorem namesOverlap_iff_prefix :
  (forall a b,
     namesOverlap a b = true <->
     normalize a `prefix_of` normalize b \/ normalize b `prefix_of` normalize a) /\
  namesOverlap (str "the weeknd") (str "the") = true /\
  namesOverlap (str "the weeknd") (str "weeknd") = false /\
  namesOverlap (str "abc") (str "xyz") = false.
Proof.
  split; [|done].
  intros a b. rewrite namesOverlap_prefix. tauto.
Qed.

Lemma titleMatches_spec title track :
  titleMatches title track = true <-> titleOverlaps title track.
Proof. done. Qed.

Lemma loopTest_spec title artist track :
  titleMatches title track && (artistMatches artist track || negb (truthyStr artist)) = true
  <-> fullyMatches title artist track.
Proof.
  unfold fullyMatches, titleOverlaps, titleMatches, artistMatches, allArtists.
  rewrite andb_true_iff, orb_true_iff, existsb_exists.
  split; intros [Ht Ha]; (split; [done|]).
  - destruct Ha as [(n & Hn & Ho)|Ha].
    + right. apply in_map_iff in Hn as (a & <- & Ha).
      exists a. by rewrite list_elem_of_In.
    + left. by destruct artist.
  - destruct Ha as [->|(a & Ha & Ho)]; [by right|].
    left. exists (artist_name a). split; [|done].
    apply in_map. by apply list_elem_of_In.
Qed.

Lemma matchingLoop_Some cs title artist t :
  matchingLoop cs title artist = Some t <-> firstSuch (fullyMatches title artist) cs t.
Proof.
  induction cs as [|c cs IH]; simpl.
  - split; [done|]. intros (l1 & l2 & H & _). by destruct l1.
  - destruct (titleMatches title c && _) eqn:E.
    + apply loopTest_spec in E. split.
      * intros [= <-]. exists [], cs. split; [done|]. split; [exact E|constructor].
      * intros (l1 & l2 & H & Ht & Hl1). destruct l1 as [|x l1]; simpl in H.
        { by injection H as -> _. }
        injection H as <- _. by apply Forall_cons in Hl1 as [? _].
    + assert (Hc : ~ fullyMatches title artist c).
      { intros H. apply loopTest_spec in H. congruence. }
      rewrite IH. split.
      * intros (l1 & l2 & -> & Ht & Hl1). exists (c :: l1), l2.
        split; [done|]. split; [exact Ht|by constructor].
      * intros (l1 & l2 & H & Ht & Hl1). destruct l1 as [|x l1]; simpl in H.
        { injection H as -> _. done. }
        injection H as <- ->. apply Forall_cons in Hl1 as [_ Hl1].
        by exists l1, l2.
Qed.

Lemma matchingLoop_None cs title artist :
  matchingLoop cs title artist = None <->
  Forall (fun t => ~ fullyMatches title artist t) cs.
Proof.
  induction cs as [|c cs IH]; simpl; [done|].
  destruct (titleMatches title c && _) eqn:E.
  - apply loopTest_spec in E. split; [done|].
    intros H. by apply Forall_cons in H as [? _].
  - rewrite IH. split; [|by intros [_ ?]%Forall_cons].
    intros H. constructor; [|done].
    intros Hc. apply loopTest_spec in Hc. congruence.
Qed.

Lemma find_firstSuch {A} (p : A -> bool) (l : list A) t :
  find p l = Some t <-> firstSuch (fun x => p x = true) l t.
Proof.
  induction l as [|c l IH]; simpl.
  - split; [done|]. intros (l1 & l2 & H & _). by destruct l1.
  - destruct (p c) eqn:E.
    + split.
      * intros [= <-]. exists [], l. split; [done|]. split; [exact E|constructor].
      * intros (l1 & l2 & H & Ht & Hl1). destruct l1 as [|x l1]; simpl in H.
        { by injection H as -> _. }
        injection H as <- _. by apply Forall_cons in Hl1 as [? _].
    + rewrite IH. split.
      * intros (l1 & l2 & -> & Ht & Hl1). exists (c :: l1), l2.
        split; [done|]. split; [exact Ht|constructor; [congruence|done]].
      * intros (l1 & l2 & H & Ht & Hl1). destruct l1 as [|x l1]; simpl in H.
        { injection H as -> _. congruence. }
        injection H as <- ->. apply Forall_cons in Hl1 as [_ Hl1].
        by exists l1, l2.
Qed.

Lemma find_None {A} (p : A -> bool) (l : list A) :
  find p l = None <-> Forall (fun x => p x <> true) l.
Proof.
  induction l as [|c l IH]; simpl; [done|].
  destruct (p c) eqn:E.
  - split; [done|]. intros H. by apply Forall_cons in H as [? _].
  - rewrite IH. split; [|by intros [_ ?]%Forall_cons].
    intros H. constructor; [congruence|done].
Qed.

(** C1: [_findMatchingTrack] returns the first candidate that matches title
    and artist; when there is none, the first whose title matches; when
    there is none either, the first candidate; and nothing for an empty
    list.  For the two "Blinding Lights" candidates, asked for with the
    artist "Weeknd", the result is the first candidate. *)
Theorem findMatchingTrack_two_tiers :
  (forall cs title artist,
     (forall t, firstSuch (fullyMatches title artist) cs t ->
                _findMatchingTrack cs title artist = Some t) /\
     (Forall (fun t => ~ fullyMatches title artist t) cs ->
      forall t, firstSuch (titleOverlaps title) cs t ->
                _findMatchingTrack cs title artist = Some t) /\
     (Forall (fun t => ~ titleOverlaps title t) cs ->
      _findMatchingTrack cs title artist = head cs) /\
     _findMatchingTrack [] title artist = None) /\
  _findMatchingTrack
    [song "Blinding Lights" ["The Weeknd"]; song "Blinding Lights (Remix)" ["DJ X"]]
    (str "Blinding Lights") (str "Weeknd")
  = Some (song "Blinding Lights" ["The Weeknd"]).
Proof.
  split; [|reflexivity].
  intros cs title artist. unfold _findMatchingTrack. repeat split.
  - intros t Ht. apply matchingLoop_Some in Ht. by rewrite Ht.
  - intros Hnone t Ht. apply matchingLoop_None in Hnone. rewrite Hnone.
    apply (find_firstSuch (titleMatches title)) in Ht. by rewrite Ht.
  - intros Hnone.
    assert (Hfull : Forall (fun t => ~ fullyMatches title artist t) cs).
    { eapply Forall_impl; [exact Hnone|]. intros t Ht [Hf _]. done. }
    apply matchingLoop_None in Hfull. rewrite Hfull.
    assert (Hfind : find (titleMatches title) cs = None) by (by apply find_None).
    by rewrite Hfind.
Qed.

(** C1 at the candidates of the specification: asked for with "Weeknd"
    nobody matches title and artist and the first candidate is the first
    title match; asked for with "The Weeknd" the first candidate matches
    both; and a title that overlaps no candidate gives the first candidate. *)
Lemma findMatchingTrack_two_tiers_witness :
  let candidates :=
    [song "Blinding Lights" ["The Weeknd"]; song "Blinding Lights (Remix)" ["DJ X"]] in
  _findMatchingTrack candidates (str "Blinding Lights") (str "Weeknd")
    = Some (song "Blinding Lights" ["The Weeknd"]) /\
  _findMatchingTrack candidates (str "Blinding Lights") (str "The Weeknd")
    = Some (song "Blinding Lights" ["The Weeknd"]) /\
  _findMatchingTrack candidates (str "Starboy") (str "The Weeknd") = head candidates.
Proof.
  intros candidates. split; [|split].
  - apply (proj1 (proj2 (proj1 findMatchingTrack_two_tiers _ _ _))).
    + apply matchingLoop_None. reflexivity.
    + apply (find_firstSuch (titleMatches (str "Blinding Lights"))). reflexivity.
  - apply (proj1 (proj1 findMatchingTrack_two_tiers _ _ _)).
    apply matchingLoop_Some. reflexivity.
  - apply (proj1 (proj2 (proj2 (proj1 findMatchingTrack_two_tiers _ _ _)))).
    apply (find_None (titleMatches (str "Starboy"))). reflexivity.
Defined.

End Matcher.

(** ** The proxy of [server.cjs] *)

Section Proxy.

Import Server.

Lemma encodeChar_decode c s :
  decodeURIComponent (encodeChar c ++ s) = cons c <$> decodeURIComponent s.
Proof. destruct c as [[] [] [] [] [] [] [] []]; cbn; reflexivity. Qed.

(** Percent-decoding undoes [encodeURIComponent]. *)
Lemma decode_encode x : decodeURIComponent (encodeURIComponent x) = Some x.
Proof.
  induction x as [|c x IH]; [done|].
  change (encodeURIComponent (c :: x)) with (encodeChar c ++ encodeURIComponent x).
  by rewrite encodeChar_decode, IH.
Qed.

Lemma takeWhile_dropWhile {A} (p : A -> bool) l : takeWhile p l ++ dropWhile p l = l.
Proof.
  induction l as [|x l IH]; simpl; [done|].
  destruct (p x); simpl; [by f_equal|done].
Qed.

Lemma dropWhile_length {A} (p : A -> bool) l : (length (dropWhile p l) <= length l)%nat.
Proof. induction l as [|x l IH]; simpl; [lia|]. destruct (p x); simpl; lia. Qed.

(** The run of characters that are not white space, in front of a text that
    is empty or starts with white space, is read whole and no further. *)
Lemma span_run run post :
  noSpace run -> spaceAtStart post ->
  takeWhile (fun c => negb (isWhiteSpace c)) (run ++ post) = run /\
  dropWhile (fun c => negb (isWhiteSpace c)) (run ++ post) = post.
Proof.
  intros Hrun Hpost. induction Hrun as [|c run Hc _ IH]; simpl.
  - destruct post as [|d post]; simpl in *; [done|]. by rewrite Hpost.
  - rewrite Hc. simpl. destruct IH as [-> ->]. done.
Qed.

Lemma startsWith_app s p : startsWith (p ++ s) p = true.
Proof. apply startsWith_prefix. by exists s. Qed.

Lemma matchScheme_token scheme run post :
  run <> [] -> noSpace run -> spaceAtStart post ->
  matchScheme scheme (scheme ++ run ++ post) = Some (scheme ++ run, post).
Proof.
  intros Hne Hrun Hpost. unfold matchScheme.
  rewrite startsWith_app, drop_app_length.
  destruct (span_run run post Hrun Hpost) as [-> ->].
  by destruct run.
Qed.

(** At a URL token that white space or the end of the text follows, the
    pattern matches the token and nothing more. *)
Lemma matchUrl_token tok post :
  urlToken tok -> spaceAtStart post -> matchUrl (tok ++ post) = Some (tok, post).
Proof.
  intros (scheme & run & Hs & -> & Hne & Hrun) Hpost. unfold matchUrl.
  rewrite <- app_assoc.
  destruct Hs as [-> | ->].
  - by rewrite matchScheme_token.
  - rewrite (matchScheme_token (str "http://")) by done.
    assert (matchScheme (str "https://") (str "http://" ++ run ++ post) = None) as ->; [|done].
    unfold matchScheme. simpl. destruct (run ++ post) as [|c r]; [done|].
    destruct (decide (c = "/"%char)) as [->|]; [|done].
    destruct r as [|d r]; [done|]. by destruct (decide (d = "/"%char)).
Qed.

(** What a match leaves: the match and the rest make up the text, the match
    is not empty and has no white space, and the rest is empty or starts
    with white space. *)
Lemma matchScheme_Some scheme s m rest :
  noSpace scheme -> matchScheme scheme s = Some (m, rest) ->
  s = m ++ rest /\ m <> [] /\ noSpace m /\ spaceAtStart rest.
Proof.
  intros Hscheme. unfold matchScheme.
  destruct (startsWith s scheme) eqn:E; [|done].
  apply startsWith_prefix in E as [k ->]. rewrite drop_app_length.
  pose proof (takeWhile_dropWhile (fun c => negb (isWhiteSpace c)) k) as Hk.
  destruct (takeWhile _ k) as [|c run] eqn:Erun; [done|].
  intros [= <- <-]. rewrite <- app_assoc, Hk. split; [done|].
  split; [by destruct scheme|]. split.
  - apply Forall_app. split; [done|]. rewrite <- Erun. clear.
    induction k as [|x k IH]; simpl; [constructor|].
    destruct (isWhiteSpace x) eqn:E; simpl; [constructor|by constructor].
  - clear. induction k as [|x k IH]; simpl; [done|].
    destruct (isWhiteSpace x) eqn:E; simpl; [done|apply IH].
Qed.

Lemma matchUrl_Some s m rest :
  matchUrl s = Some (m, rest) ->
  s = m ++ rest /\ m <> [] /\ noSpace m /\ spaceAtStart rest.
Proof.
  unfold matchUrl.
  destruct (matchScheme (str "https://") s) as [[m' rest']|] eqn:E.
  - intros [= <- <-]. revert E. apply matchScheme_Some.
    repeat constructor.
  - apply matchScheme_Some. repeat constructor.
Qed.

Lemma replaceUrls_steps f n m s :
  (length s <= n)%nat -> (length s <= m)%nat -> replaceUrls n f s = replaceUrls m f s.
Proof.
  revert m s. induction n as [|n IH]; intros m s Hn Hm.
  - destruct s; [|simpl in Hn; lia]. by destruct m.
  - destruct m as [|m]; [destruct s; [done|simpl in Hm; lia]|].
    simpl. destruct s as [|c s]; [done|].
    destruct (matchUrl (c :: s)) as [[hit rest]|] eqn:E.
    + apply matchUrl_Some in E as (Hs & Hne & _ & _).
      assert (length rest < length (c :: s))%nat.
      { rewrite Hs, length_app. destruct hit; [done|simpl; lia]. }
      f_equal. apply IH; simpl in *; lia.
    + f_equal. apply IH; simpl in *; lia.
Qed.

Lemma rewritePlaylist_nil : rewritePlaylist [] = [].
Proof. done. Qed.

Lemma replaceUrls_cons f c s :
  replaceUrls (length (c :: s)) f (c :: s) =
  match matchUrl (c :: s) with
  | Some (m, rest) => f m ++ replaceUrls (length rest) f rest
  | None => c :: replaceUrls (length s) f s
  end.
Proof.
  change (replaceUrls (length (c :: s)) f (c :: s)) with
    (match matchUrl (c :: s) with
     | Some (m, rest) => f m ++ replaceUrls (length s) f rest
     | None => c :: replaceUrls (length s) f s
     end).
  destruct (matchUrl (c :: s)) as [[hit rest]|] eqn:E; [|done].
  f_equal. apply replaceUrls_steps; [|done].
  apply matchUrl_Some in E as (Hs & Hne & _ & _).
  apply (f_equal length) in Hs. rewrite length_app in Hs.
  destruct hit; [done|]. simpl in *. lia.
Qed.

Lemma rewritePlaylist_cons c s :
  rewritePlaylist (c :: s) =
  match matchUrl (c :: s) with
  | Some (m, rest) => baseProxyUrl ++ encodeURIComponent m ++ rewritePlaylist rest
  | None => c :: rewritePlaylist s
  end.
Proof.
  unfold rewritePlaylist. rewrite replaceUrls_cons.
  destruct (matchUrl (c :: s)) as [[hit rest]|]; [|done].
  by rewrite <- app_assoc.
Qed.

Lemma spaceAtEnd_has_space s :
  s <> [] -> spaceAtEnd s -> exists c, c ∈ s /\ isWhiteSpace c = true.
Proof.
  unfold spaceAtEnd. intros Hne Hs. destruct (last s) as [c|] eqn:E.
  - exists c. split; [by apply last_Some_elem_of|done].
  - by apply last_None in E.
Qed.

Lemma spaceAtEnd_suffix a b : b <> [] -> spaceAtEnd (a ++ b) -> spaceAtEnd b.
Proof.
  unfold spaceAtEnd. intros Hne. rewrite last_app.
  destruct (last b) eqn:E; [done|]. by apply last_None in E.
Qed.

Lemma noSpace_spaceAtEnd s : s <> [] -> noSpace s -> ~ spaceAtEnd s.
Proof.
  intros Hne Hs He. destruct (spaceAtEnd_has_space s Hne He) as (c & Hc & Hw).
  unfold noSpace in Hs. rewrite Forall_forall in Hs. specialize (Hs c Hc). congruence.
Qed.

(** A run that stops inside [k] is the same run whatever follows [k]. *)
Lemma span_app (p : ascii -> bool) k post :
  (exists c, c ∈ k /\ p c = false) ->
  takeWhile p (k ++ post) = takeWhile p k /\
  dropWhile p (k ++ post) = dropWhile p k ++ post.
Proof.
  intros (c & Hc & Hp). induction k as [|x k IH]; [by apply elem_of_nil in Hc|].
  simpl. destruct (p x) eqn:E; [|done].
  apply elem_of_cons in Hc as [->|Hc]; [congruence|].
  destruct (IH Hc) as [-> ->]. done.
Qed.

(** A match inside a text that ends with white space does not reach the end
    of the text, so it is the same match whatever follows the text. *)
Lemma matchScheme_app scheme pre post :
  noSpace scheme -> pre <> [] -> spaceAtEnd pre ->
  matchScheme scheme (pre ++ post) =
  match matchScheme scheme pre with
  | Some (m, rest) => Some (m, rest ++ post)
  | None => None
  end.
Proof.
  intros Hscheme Hne Hend.
  destruct (spaceAtEnd_has_space pre Hne Hend) as (c & Hc & Hw).
  unfold noSpace in Hscheme. rewrite Forall_forall in Hscheme.
  unfold matchScheme. destruct (startsWith pre scheme) eqn:E.
  - apply startsWith_prefix in E as [k ->].
    rewrite <- app_assoc, startsWith_app, !drop_app_length.
    apply elem_of_app in Hc as [Hc|Hc]; [specialize (Hscheme c Hc); congruence|].
    destruct (span_app (fun c => negb (isWhiteSpace c)) k post) as [-> ->].
    { exists c. by rewrite Hw. }
    by destruct (takeWhile _ k).
  - destruct (startsWith (pre ++ post) scheme) eqn:E'; [|done].
    exfalso. apply startsWith_prefix in E'.
    destruct (prefix_weak_total pre scheme (pre ++ post)) as [[j ->]|H];
      [by exists post|done| |].
    + assert (isWhiteSpace c = false); [|congruence].
      apply Hscheme, elem_of_app. by left.
    + apply startsWith_prefix in H. congruence.
Qed.

Lemma matchUrl_app pre post :
  pre <> [] -> spaceAtEnd pre ->
  matchUrl (pre ++ post) =
  match matchUrl pre with
  | Some (m, rest) => Some (m, rest ++ post)
  | None => None
  end.
Proof.
  intros Hne Hend. unfold matchUrl.
  rewrite !matchScheme_app by (done || (repeat constructor)).
  by destruct (matchScheme (str "https://") pre) as [[m rest]|].
Qed.

(** The rewriting of a text that ends with white space does not depend on
    what follows it. *)
Lemma rewritePlaylist_app pre post :
  spaceAtEnd pre ->
  rewritePlaylist (pre ++ post) = rewritePlaylist pre ++ rewritePlaylist post.
Proof.
  remember (length pre) as n eqn:Hn. revert pre Hn.
  induction n as [n IH] using lt_wf_ind. intros pre -> Hend.
  destruct pre as [|c p]; [done|].
  change ((c :: p) ++ post) with (c :: (p ++ post)).
  rewrite !rewritePlaylist_cons.
  change (c :: (p ++ post)) with ((c :: p) ++ post).
  rewrite matchUrl_app by done.
  destruct (matchUrl (c :: p)) as [[m rest]|] eqn:E.
  - apply matchUrl_Some in E as (Hs & Hm & Hns & _).
    assert (Hrest : rest <> []).
    { intros ->. rewrite app_nil_r in Hs. rewrite Hs in Hend.
      by apply noSpace_spaceAtEnd in Hend. }
    rewrite Hs in Hend. apply spaceAtEnd_suffix in Hend; [|done].
    rewrite (IH (length rest)); [by rewrite <- !app_assoc| |done|done].
    rewrite Hs, length_app. destruct m; [done|simpl; lia].
  - simpl. f_equal. destruct p as [|d p]; [done|].
    apply (IH (length (d :: p))); [simpl; lia|done|].
    by apply (spaceAtEnd_suffix [c]).
Qed.

(** Every URL token that white space or the ends of the text delimit is
    replaced by the proxy base followed by the encoded token. *)
Lemma rewritePlaylist_token pre tok post :
  spaceAtEnd pre -> urlToken tok -> spaceAtStart post ->
  rewritePlaylist (pre ++ tok ++ post) =
  rewritePlaylist pre ++ baseProxyUrl ++ encodeURIComponent tok ++ rewritePlaylist post.
Proof.
  intros Hpre Htok Hpost. rewrite rewritePlaylist_app by done. f_equal.
  assert (Hne : tok <> []).
  { destruct Htok as (scheme & run & _ & -> & Hrun & _). by destruct scheme, run. }
  destruct tok as [|c tok]; [done|].
  change ((c :: tok) ++ post) with (c :: (tok ++ post)).
  rewrite rewritePlaylist_cons.
  change (c :: (tok ++ post)) with ((c :: tok) ++ post).
  by rewrite matchUrl_token.
Qed.

Lemma copyHeader_same name response hs h :
  headers response !! name = Some h -> truthyStr h = true ->
  copyHeader name response hs !! name = Some h.
Proof. intros Hh Ht. unfold copyHeader. rewrite Hh, Ht. apply lookup_insert_eq. Qed.

Lemma copyHeader_other name name' response hs :
  name <> name' -> copyHeader name response hs !! name' = hs !! name'.
Proof.
  intros Hne. unfold copyHeader. destruct (headers response !! name) as [h|]; [|done].
  destruct (truthyStr h); [|done]. by apply lookup_insert_ne.
Qed.






(** C5: for a manifest (the content type contains [mpegurl] or the target
    ends with [.m3u8]) the body sent is the rewritten text; in it every URL
    token that white space delimits is replaced by the proxy base followed by
    the percent-encoded token; percent-decoding an encoded token gives the
    token back; and the token [https://host/seg1.ts] becomes
    [http://localhost:3001/proxy?url=https%3A%2F%2Fhost%2Fseg1.ts]. *)
Theorem manifest_rewrite :
  (forall fetch req url response playlistText,
     query_url req = Some url -> truthyStr url = true ->
     fetch url (rangeOf req) = Fulfilled response -> ok response = true ->
     text response = Some playlistText ->
     includes (contentTypeOf response) (str "mpegurl") = true
     \/ endsWith url (str ".m3u8") = true ->
     replyBody (proxy fetch req) = Send (rewritePlaylist playlistText)) /\
  (forall pre tok post,
     spaceAtEnd pre -> urlToken tok -> spaceAtStart post ->
     rewritePlaylist (pre ++ tok ++ post) =
     rewritePlaylist pre ++ baseProxyUrl ++ encodeURIComponent tok ++ rewritePlaylist post) /\
  (forall x, decodeURIComponent (encodeURIComponent x) = Some x) /\
  rewritePlaylist playlist =
    str "#EXTM3U" ++ LF ++ str "#EXTINF:10," ++ LF
      ++ str "http://localhost:3001/proxy?url=https%3A%2F%2Fhost%2Fseg1.ts" ++ LF.
Proof.
  split; [|split; [|split]].
  - intros fetch req url response playlistText Hurl Hu Hfetch Hok Htext Hm.
    unfold proxy. rewrite Hurl. destruct url as [|c u]; [done|].
    rewrite Hfetch, Hok. simpl negb. cbv iota.
    assert (isManifest (contentTypeOf response) (c :: u) = true) as ->.
    { unfold isManifest. apply orb_true_iff. done. }
    by rewrite Htext.
  - apply rewritePlaylist_token.
  - apply decode_encode.
  - reflexivity.
Qed.

(** C5 at the playlist: the upstream's answer is a manifest and the reply
    carries the rewritten text, and the segment URL is a token between two
    line ends. *)
Lemma manifest_rewrite_witness :
  replyBody (proxy (answering playlistResponse)
               {| query_url := Some (str "https://host/live.m3u8"); headers_range := None |})
  = Send (rewritePlaylist playlist) /\
  rewritePlaylist ((str "#EXTM3U" ++ LF) ++ str "https://host/seg1.ts" ++ LF) =
  rewritePlaylist (str "#EXTM3U" ++ LF) ++ baseProxyUrl
    ++ encodeURIComponent (str "https://host/seg1.ts") ++ rewritePlaylist LF.
Proof.
  split.
  - apply (proj1 manifest_rewrite (answering playlistResponse) _
             (str "https://host/live.m3u8") playlistResponse playlist);
      try reflexivity.
    left. reflexivity.
  - apply (proj1 (proj2 manifest_rewrite)).
    + reflexivity.
    + exists (str "https://"), (str "host/seg1.ts").
      split; [by left|]. split; [reflexivity|]. split; [discriminate|].
      repeat constructor.
    + reflexivity.
Defined.

End Proxy.

(** ** Stream selection in [youtubeService.js] *)

Section Streams.

Import Service.

Example sort_shuffled :
  stableSort sortCompare (map variant ["128"; "320"; "64"; "256"])
  = Ok (map variant ["320"; "256"; "128"; "64"]).
Proof. reflexivity. Qed.

Lemma sortCompare_numeric a b ka kb :
  hasBitrate a ka -> hasBitrate b kb -> sortCompare a b = Ok (kb - ka).
Proof.
  unfold hasBitrate, sortCompare, compareBitrate. intros -> ->. done.
Qed.

Lemma hasBitrate_inj v k k' : hasBitrate v k -> hasBitrate v k' -> k = k'.
Proof. unfold hasBitrate. intros -> [= ->]. done. Qed.

Lemma bitrateGe_trans a b c :
  (exists k, hasBitrate b k) -> bitrateGe a b -> bitrateGe b c -> bitrateGe a c.
Proof.
  intros [kb Hb] Hab Hbc ka kc Ha Hc.
  specialize (Hab ka kb Ha Hb). specialize (Hbc kb kc Hb Hc). lia.
Qed.

Lemma insertBy_numeric x l :
  (exists k, hasBitrate x k) -> Forall (fun v => exists k, hasBitrate v k) l ->
  StronglySorted bitrateGe l ->
  exists r, insertBy sortCompare x l = Ok r /\ r ≡ₚ x :: l /\ StronglySorted bitrateGe r.
Proof.
  intros [kx Hx] Hl Hs. induction l as [|y l IH]; simpl.
  - exists [x]. repeat split; [done|]. repeat constructor.
  - apply Forall_cons in Hl as [[ky Hy] Hl].
    apply StronglySorted_inv in Hs as [Hs Hyl].
    rewrite (sortCompare_numeric x y kx ky) by done. simpl.
    destruct (ky - kx <=? 0) eqn:E.
    + exists (x :: y :: l). split; [done|]. split; [done|].
      assert (Hxy : bitrateGe x y).
      { intros k k' H H'. rewrite (hasBitrate_inj _ _ _ H Hx), (hasBitrate_inj _ _ _ H' Hy). lia. }
      constructor; [by constructor|]. constructor; [done|].
      eapply Forall_impl; [exact Hyl|]. intros z Hz.
      eapply bitrateGe_trans; [by exists ky|done|done].
    + destruct (IH Hl Hs) as (r & -> & Hp & Hr). exists (y :: r).
      split; [done|]. split; [rewrite Hp; apply Permutation_swap|].
      constructor; [done|]. rewrite Hp. constructor; [|done].
      intros k k' H H'. rewrite (hasBitrate_inj _ _ _ H Hy), (hasBitrate_inj _ _ _ H' Hx). lia.
Qed.

(** When every stream has a numeric bitrate the sort succeeds, keeps the
    streams, and leaves them in descending order of bitrate. *)
Lemma stableSort_numeric l :
  Forall (fun v => exists k, hasBitrate v k) l ->
  exists r, stableSort sortCompare l = Ok r /\ r ≡ₚ l /\ StronglySorted bitrateGe r.
Proof.
  induction 1 as [|x l Hx Hl IH]; simpl.
  - exists []. repeat split; [done|constructor].
  - destruct IH as (r & -> & Hp & Hr). simpl.
    destruct (insertBy_numeric x r Hx) as (r' & -> & Hp' & Hr'); [by rewrite Hp|done|].
    exists r'. split; [done|]. split; [by rewrite Hp', Hp|done].
Qed.

Lemma insertBy_Permutation {A} (cmp : A -> A -> result Z) x l r :
  insertBy cmp x l = Ok r -> r ≡ₚ x :: l.
Proof.
  revert r. induction l as [|y l IH]; intros r; simpl.
  - by intros [= <-].
  - destruct (cmp x y) as [c|e]; simpl; [|done].
    destruct (c <=? 0); [by intros [= <-]|].
    destruct (insertBy cmp x l) as [r'|e]; simpl; [|done].
    intros [= <-]. rewrite (IH r' eq_refl). apply Permutation_swap.
Qed.

Lemma stableSort_Permutation {A} (cmp : A -> A -> result Z) l r :
  stableSort cmp l = Ok r -> r ≡ₚ l.
Proof.
  revert r. induction l as [|x l IH]; intros r; simpl.
  - by intros [= <-].
  - destruct (stableSort cmp l) as [s|e]; simpl; [|done].
    intros H. apply insertBy_Permutation in H. by rewrite H, (IH s eq_refl).
Qed.

(** The stable sort is a sort as ECMAScript asks for. *)
Lemma stableSort_conforming {A} : conforming (@stableSort A).
Proof. split; [apply stableSort_Permutation|done]. Qed.

(** With numbers for all bitrates the compare function is the difference of
    the bitrates. *)
Lemma numeric_consistent l :
  Forall (fun v => exists k, hasBitrate v k) l -> consistentOn sortCompare l.
Proof.
  intros H. rewrite Forall_forall in H.
  exists (fun v => match bitrateOf v with Ok (VNum k) => k | _ => 0 end).
  intros a b Ha Hb. destruct (H a Ha) as [ka Hka]. destruct (H b Hb) as [kb Hkb].
  rewrite (sortCompare_numeric a b ka kb Hka Hkb).
  unfold hasBitrate in Hka, Hkb. by rewrite Hka, Hkb.
Qed.

Lemma sortStreams_numeric env l :
  conforming (sort env) ->
  Forall (fun v => exists k, hasBitrate v k) l ->
  exists r, sortStreams env l = Ok r /\ r ≡ₚ l /\ StronglySorted bitrateGe r.
Proof.
  intros [_ Hc] Hnum. unfold sortStreams.
  rewrite (Hc sortCompare l (numeric_consistent l Hnum)).
  by apply stableSort_numeric.
Qed.

(** Streams that cannot be told apart by the compare function, as one
    stream whose bitrate is not a number next to one other stream: every
    comparison counts as zero, and the sort leaves the list as it is. *)
Lemma sortStreams_incomparable env l :
  conforming (sort env) ->
  (forall a b, a ∈ l -> b ∈ l -> sortCompare a b = Ok 0) ->
  sortStreams env l = Ok l.
Proof.
  intros [_ Hc] H0. unfold sortStreams.
  rewrite (Hc sortCompare l) by (exists (fun _ => 0); intros a b Ha Hb; by rewrite H0).
  assert (Hsub : forall l', l' ⊆ l -> stableSort sortCompare l' = Ok l').
  { induction l' as [|x l' IH]; intros Hl'; [done|]. simpl.
    rewrite IH by set_solver. simpl.
    destruct l' as [|y l']; [done|]. simpl.
    rewrite H0 by set_solver. done. }
  by apply Hsub.
Qed.

Lemma sorted_last_least l b :
  StronglySorted bitrateGe l -> last l = Some b ->
  forall a, a ∈ l -> a = b \/ bitrateGe a b.
Proof.
  intros Hs Hb a Ha. apply last_Some in Hb as [l' ->].
  apply elem_of_app in Ha as [Ha|Ha].
  - right. induction l' as [|x l' IH]; [by apply elem_of_nil in Ha|].
    simpl in Hs. apply StronglySorted_inv in Hs as [Hs Hx].
    apply elem_of_cons in Ha as [->|Ha]; [|by apply IH].
    rewrite Forall_forall in Hx. apply Hx, elem_of_app. right. by left.
  - left. by apply list_elem_of_singleton in Ha.
Qed.

Lemma bitrateGe_refl v : bitrateGe v v.
Proof. intros k k' H H'. rewrite (hasBitrate_inj _ _ _ H H'). lia. Qed.

Lemma element_lookup l i v : l !! i = Some v -> element l i = v.
Proof. unfold element. by intros ->. Qed.

Lemma selectStream_high l : selectStream (str "high") l = element l 0.
Proof. done. Qed.

Lemma selectStream_low l : selectStream (str "low") l = element l (length l - 1).
Proof. done. Qed.

Lemma selectStream_medium l : selectStream (str "medium") l = element l (length l / 2).
Proof. done. Qed.

(** What [getStreamUrl] returns once the formats are fetched and filtered:
    the URL of the stream chosen among the sorted ones, with the host name
    replaced. *)
Lemma getStreamUrl_selects env videoId id w response data formats audioStreams sorted :
  ToString videoId = Ok id ->
  net env (length (fetched w)) (STREAM_API_BASE ++ str "/api/v1/videos/" ++ id)
    = Fulfilled response ->
  ok response = true -> json response = Some data ->
  get data "adaptiveFormats" = Ok (VArr formats) ->
  filterR isAudio formats = Ok audioStreams -> audioStreams <> [] ->
  sortStreams env audioStreams = Ok sorted ->
  fst (getStreamUrl env videoId w) =
    (url <- (u <- get (selectStream (getAudioQuality env) sorted) "url" ;; ToString u) ;;
     match withHostname env url (str "yt.omada.cafe") with
     | Some originalUrl => Ok originalUrl
     | None => Throw TypeError
     end).
Proof.
  intros Hid Hnet Hok Hjson Hformats Hfilter Hne Hsort.
  cbv [getStreamUrl tryCatch bind liftR fetch readJson ret throw fst].
  rewrite Hid, Hnet, Hok, Hjson, Hformats. cbv beta iota.
  destruct formats as [|f formats]; [simpl in Hfilter; by injection Hfilter as <-|].
  replace (negb (truthy (VArr (f :: formats)))
           || match prop (VArr (f :: formats)) "length" with
              | VNum 0 => true
              | _ => false
              end) with false by done.
  simpl negb. cbv beta iota. rewrite Hfilter.
  destruct audioStreams as [|a audioStreams]; [done|].
  cbv beta iota. rewrite Hsort.
  destruct (u <- get (selectStream (getAudioQuality env) sorted) "url" ;; ToString u)
    as [url|e]; cbv [bindR]; [|done].
  by destruct (withHostname env url (str "yt.omada.cafe")).
Qed.

(** C2, as stated, fails for a list in which a bitrate is not a number: the
    compare function gives [NaN] for that stream and every other, which the
    sort takes for "equal"; of the two streams here the one listed first
    stays first, and [high] selects it, not the stream of 128. *)
Lemma high_selects_unparseable :
  bitrateOf (variant "abc") = Ok VNaN /\
  hasBitrate (variant "128") 128 /\
  sortCompare (variant "abc") (variant "128") = Ok 0 /\
  sortCompare (variant "128") (variant "abc") = Ok 0 /\
  sortStreams fourVariants [variant "abc"; variant "128"]
    = Ok [variant "abc"; variant "128"] /\
  selectStream (str "high") [variant "abc"; variant "128"] = variant "abc" /\
  variant "abc" <> variant "128".
Proof. repeat split; try reflexivity. discriminate. Qed.

(** C2, amended: in an engine whose sort is as ECMAScript asks, a list of
    audio variants that is not empty, each with a number for its bitrate (an
    absent one counts as 0), is sorted in descending order of bitrate;
    [high] selects the first of the sorted list, which has the highest
    bitrate, [low] the last, which has the lowest, and [medium] the element
    at index [length / 2]; the URL of the element selected among the sorted
    ones is what [getStreamUrl] returns, the host name replaced.  For the
    bitrates 320, 256, 128 and 64 these are 320, 64 and 128.  A stream whose
    bitrate is not a number next to one other stream is left in its place
    by every such engine, so that [high] selects the stream listed first. *)
Theorem stream_quality_selection :
  (forall env audioStreams,
     conforming (sort env) ->
     audioStreams <> [] ->
     Forall (fun v => exists k, hasBitrate v k) audioStreams ->
     exists sorted,
       sortStreams env audioStreams = Ok sorted /\
       sorted ≡ₚ audioStreams /\
       StronglySorted bitrateGe sorted /\
       (sorted !! 0%nat = Some (selectStream (str "high") sorted) /\
        forall v, v ∈ audioStreams -> bitrateGe (selectStream (str "high") sorted) v) /\
       (last sorted = Some (selectStream (str "low") sorted) /\
        forall v, v ∈ audioStreams -> bitrateGe v (selectStream (str "low") sorted)) /\
       sorted !! (length audioStreams / 2)%nat = Some (selectStream (str "medium") sorted)) /\
  (forall env videoId id w response data formats audioStreams sorted,
     ToString videoId = Ok id ->
     net env (length (fetched w)) (STREAM_API_BASE ++ str "/api/v1/videos/" ++ id)
       = Fulfilled response ->
     ok response = true -> json response = Some data ->
     get data "adaptiveFormats" = Ok (VArr formats) ->
     filterR isAudio formats = Ok audioStreams -> audioStreams <> [] ->
     sortStreams env audioStreams = Ok sorted ->
     fst (getStreamUrl env videoId w) =
       (url <- (u <- get (selectStream (getAudioQuality env) sorted) "url" ;; ToString u) ;;
        match withHostname env url (str "yt.omada.cafe") with
        | Some originalUrl => Ok originalUrl
        | None => Throw TypeError
        end)) /\
  (forall env,
     conforming (sort env) ->
     exists sorted,
       sortStreams env (map variant ["320"; "256"; "128"; "64"]) = Ok sorted /\
       selectStream (str "high") sorted = variant "320" /\
       selectStream (str "low") sorted = variant "64" /\
       selectStream (str "medium") sorted = variant "128" /\
       sorted !! 2%nat = Some (variant "128")) /\
  (forall env a b,
     conforming (sort env) ->
     bitrateOf a = Ok VNaN -> (exists vb, bitrateOf b = Ok vb) ->
     sortStreams env [a; b] = Ok [a; b] /\
     selectStream (str "high") [a; b] = a).
Proof.
  split; [|split; [apply getStreamUrl_selects|split]].
  - intros env l Hengine Hne Hnum.
    destruct (sortStreams_numeric env l Hengine Hnum) as (sorted & Hsort & Hp & Hs).
    exists sorted. split; [done|]. split; [done|]. split; [done|].
    assert (Hlen : length sorted = length l) by (by rewrite Hp).
    assert (Hpos : (0 < length sorted)%nat).
    { rewrite Hlen. destruct l; [done|simpl; lia]. }
    split; [|split].
    + destruct sorted as [|top rest]; [simpl in Hpos; lia|].
      split; [done|]. intros v Hv. rewrite <- Hp in Hv.
      change (selectStream (str "high") (top :: rest)) with top.
      apply elem_of_cons in Hv as [->|Hv]; [apply bitrateGe_refl|].
      apply StronglySorted_inv in Hs as [_ Htop].
      rewrite Forall_forall in Htop. by apply Htop.
    + assert (Hlast : last sorted = Some (selectStream (str "low") sorted)).
      { rewrite selectStream_low, last_lookup.
        replace (pred (length sorted)) with (length sorted - 1)%nat by lia.
        destruct (lookup_lt_is_Some_2 sorted (length sorted - 1)%nat) as [b Hb]; [lia|].
        rewrite Hb. f_equal. symmetry. by apply element_lookup. }
      split; [done|]. intros v Hv. rewrite <- Hp in Hv.
      destruct (sorted_last_least _ _ Hs Hlast v Hv) as [->|H]; [apply bitrateGe_refl|done].
    + rewrite selectStream_medium, <- Hlen.
      destruct (lookup_lt_is_Some_2 sorted (length sorted / 2)%nat) as [m Hm].
      { apply Nat.div_lt; lia. }
      rewrite Hm. f_equal. symmetry. by apply element_lookup.
  - intros env [_ Hc]. exists (map variant ["320"; "256"; "128"; "64"]).
    split; [|repeat split; reflexivity].
    unfold sortStreams. rewrite Hc; [reflexivity|].
    apply numeric_consistent. repeat constructor; eexists; reflexivity.
  - intros env a b Hengine Ha [vb Hb]. split; [|reflexivity].
    apply sortStreams_incomparable; [done|].
    assert (Haa : sortCompare a a = Ok 0).
    { unfold sortCompare, compareBitrate. by rewrite Ha. }
    assert (Hab : sortCompare a b = Ok 0).
    { unfold sortCompare, compareBitrate. rewrite Ha, Hb. simpl. by destruct vb. }
    assert (Hba : sortCompare b a = Ok 0).
    { unfold sortCompare, compareBitrate. rewrite Ha, Hb. simpl. by destruct vb. }
    assert (Hbb : sortCompare b b = Ok 0).
    { unfold sortCompare, compareBitrate. rewrite Hb. simpl.
      destruct vb; simpl; try reflexivity. by rewrite Z.sub_diag. }
    intros x y Hx Hy.
    apply elem_of_cons in Hx as [->|Hx]; [|apply list_elem_of_singleton in Hx as ->];
      (apply elem_of_cons in Hy as [->|Hy]; [|apply list_elem_of_singleton in Hy as ->]);
      done.
Qed.

(** C2 at the four variants of the specification, given out of order, at a
    stream API that offers them next to a video format, with the quality
    [high], and at a stream with the bitrate [abc] listed before the stream
    of 128. *)
Lemma stream_quality_selection_witness :
  (exists sorted,
     sortStreams fourVariants (map variant ["128"; "320"; "64"; "256"]) = Ok sorted /\
     sorted ≡ₚ map variant ["128"; "320"; "64"; "256"] /\
     sorted !! 0%nat = Some (variant "320") /\
     last sorted = Some (variant "64") /\
     sorted !! 2%nat = Some (variant "128")) /\
  fst (getStreamUrl fourVariants (VStr (str "4NRXx6U8ABQ")) start)
    = Ok (str "https://yt.omada.cafe/videoplayback?id=320") /\
  sortStreams fourVariants [variant "abc"; variant "128"]
    = Ok [variant "abc"; variant "128"].
Proof.
  split; [|split].
  - destruct (proj1 stream_quality_selection fourVariants
                (map variant ["128"; "320"; "64"; "256"]))
      as (sorted & Hsort & Hp & _ & [Hhigh _] & [Hlow _] & Hmed).
    + apply stableSort_conforming.
    + discriminate.
    + repeat constructor.
      * by exists 128.
      * by exists 320.
      * by exists 64.
      * by exists 256.
    + exists sorted.
      assert (Hs : sorted = map variant ["320"; "256"; "128"; "64"]).
      { vm_compute in Hsort. by injection Hsort. }
      split; [done|]. split; [done|]. subst sorted. repeat split; reflexivity.
  - assert (Hne : map variant ["128"; "320"; "64"; "256"] <> []) by discriminate.
    pose proof (proj1 (proj2 stream_quality_selection)
                  fourVariants (VStr (str "4NRXx6U8ABQ")) _ start _ _ _ _ _
                  eq_refl eq_refl eq_refl eq_refl eq_refl eq_refl Hne eq_refl) as H.
    rewrite H. reflexivity.
  - apply (proj2 (proj2 (proj2 stream_quality_selection)) fourVariants).
    + apply stableSort_conforming.
    + reflexivity.
    + by eexists.
Defined.

Example bitrate_absent : hasBitrate variantNoBitrate 0.
Proof. reflexivity. Qed.

Example bitrate_unparseable : bitrateOf (variant "abc") = Ok VNaN.
Proof. reflexivity. Qed.

(** C10, as stated, fails for a bitrate that does not parse: it is [NaN], not
    0, and the compare function then gives [NaN], which the sort takes for
    "equal", where a bitrate of 0 would have put the other stream first.  In
    an engine that sorts as the stable sort does the stream keeps its place,
    and [low] selects the stream of 64. *)
Lemma unparseable_bitrate_not_zero :
  compareBitrate (variant "abc") (variant "128") = Ok VNaN /\
  compareBitrate (variant "0") (variant "128") = Ok (VNum 128) /\
  sortCompare (variant "abc") (variant "128") = Ok 0 /\
  sortCompare (variant "0") (variant "128") = Ok 128 /\
  sortStreams fourVariants [variant "abc"; variant "128"; variant "64"]
    = Ok [variant "abc"; variant "128"; variant "64"] /\
  selectStream (str "low") [variant "abc"; variant "128"; variant "64"] = variant "64" /\
  variant "64" <> variant "abc".
Proof. repeat split; try reflexivity. discriminate. Qed.

Lemma missing_bitrate_zero v :
  nullish v = false -> truthy (prop v "bitrate") = false -> hasBitrate v 0.
Proof.
  intros Hn Ht. unfold hasBitrate, bitrateOf, get, orElse. rewrite Hn. simpl. by rewrite Ht.
Qed.

Lemma sortStreams_zero_last env l1 l2 v :
  conforming (sort env) ->
  hasBitrate v 0 ->
  Forall (fun w => exists k, hasBitrate w k /\ 0 < k) (l1 ++ l2) ->
  exists sorted,
    sortStreams env (l1 ++ v :: l2) = Ok sorted /\
    last sorted = Some v /\
    selectStream (str "low") sorted = v.
Proof.
  intros Hengine Hv Hpos.
  assert (Hnum : Forall (fun w => exists k, hasBitrate w k) (l1 ++ v :: l2)).
  { apply Forall_app in Hpos as [H1 H2]. apply Forall_app. split; [|constructor].
    - eapply Forall_impl; [exact H1|]. intros w (k & Hk & _). by exists k.
    - by exists 0.
    - eapply Forall_impl; [exact H2|]. intros w (k & Hk & _). by exists k. }
  destruct (sortStreams_numeric env _ Hengine Hnum) as (sorted & Hsort & Hp & Hs).
  exists sorted. split; [done|].
  assert (Hin : v ∈ sorted).
  { rewrite Hp. apply elem_of_app. right. by left. }
  destruct (last sorted) as [b|] eqn:Hb; [|apply last_None in Hb; subst; by apply elem_of_nil in Hin].
  assert (Hbv : b = v).
  { assert (Hbin : b ∈ l1 ++ v :: l2) by (rewrite <- Hp; by apply last_Some_elem_of).
    apply elem_of_app in Hbin as [Hbin|Hbin]; [|apply elem_of_cons in Hbin as [->|Hbin]; [done|]].
    all: rewrite Forall_forall in Hpos;
      destruct (Hpos b) as (k & Hk & Hk0); [apply elem_of_app; by (left + right)|];
      destruct (sorted_last_least _ _ Hs Hb v Hin) as [->|Hge]; [done|];
      specialize (Hge 0 k Hv Hk); lia. }
  subst b. split; [done|].
  rewrite selectStream_low. apply element_lookup.
  rewrite last_lookup in Hb. replace (length sorted - 1)%nat with (pred (length sorted)) by lia.
  done.
Qed.

(** C10, amended: a stream whose [bitrate] is absent (or otherwise falsy:
    [null], empty, 0) is compared with the bitrate 0; among streams of
    positive bitrate it is sorted last, in every engine whose sort is as
    ECMAScript asks, and [low] selects it.  A [bitrate] that is there but
    does not parse gives [NaN]: every comparison with such a stream gives
    [NaN], which the sort takes for "equal". *)
Theorem missing_bitrate_sorts_last :
  (forall v, nullish v = false -> truthy (prop v "bitrate") = false -> hasBitrate v 0) /\
  (forall env l1 l2 v,
     conforming (sort env) ->
     nullish v = false -> truthy (prop v "bitrate") = false ->
     Forall (fun w => exists k, hasBitrate w k /\ 0 < k) (l1 ++ l2) ->
     exists sorted,
       sortStreams env (l1 ++ v :: l2) = Ok sorted /\
       last sorted = Some v /\
       selectStream (str "low") sorted = v) /\
  (forall a b vb,
     bitrateOf a = Ok VNaN -> bitrateOf b = Ok vb ->
     compareBitrate a b = Ok VNaN /\ compareBitrate b a = Ok VNaN /\
     sortCompare a b = Ok 0 /\ sortCompare b a = Ok 0).
Proof.
  split; [apply missing_bitrate_zero|]. split.
  - intros env l1 l2 v Hengine Hn Ht. apply sortStreams_zero_last; [done|].
    by apply missing_bitrate_zero.
  - intros a b vb Ha Hb. unfold sortCompare, compareBitrate. rewrite Ha, Hb.
    simpl. by destruct vb.
Qed.

(** C10 at three streams, the one without a bitrate among them. *)
Lemma missing_bitrate_sorts_last_witness :
  hasBitrate variantNoBitrate 0 /\
  (exists sorted,
     sortStreams fourVariants ([variant "128"] ++ variantNoBitrate :: [variant "64"])
       = Ok sorted /\
     last sorted = Some variantNoBitrate /\
     selectStream (str "low") sorted = variantNoBitrate) /\
  sortCompare (variant "abc") (variant "128") = Ok 0.
Proof.
  split; [|split].
  - apply (proj1 missing_bitrate_sorts_last); reflexivity.
  - apply (proj1 (proj2 missing_bitrate_sorts_last));
      [apply stableSort_conforming|reflexivity|reflexivity|].
    repeat constructor.
    + exists 128. split; [reflexivity|lia].
    + exists 64. split; [reflexivity|lia].
  - destruct (proj2 (proj2 missing_bitrate_sorts_last)
                (variant "abc") (variant "128") (VNum 128)) as (_ & _ & H & _);
      [reflexivity|reflexivity|exact H].
Defined.

End Streams.

(** ** Search and resolution in [youtubeService.js] *)

Section Resolver.

Import Service.

Example search_starboy_first :
  map c_url (default [] (match fst (searchJioSaavn starboyFirst (str "x") start) with
                         | Ok cs => Some cs | Throw _ => None end))
  = [VStr (str "https://aac.saavncdn.com/starboy.mp4");
     VStr (str "https://aac.saavncdn.com/blinding.mp4")].
Proof. reflexivity. Qed.

Example resolve_second_time :
  getJioSaavnAudioUrl secondTime blindingLightsTrack start
  = (Ok (VStr (str "https://aac.saavncdn.com/blinding.mp4")),
     {| fetched := [jioSaavnUrl (str "Blinding Lights The Weeknd");
                    jioSaavnUrl (str "Blinding Lights")];
        draws := 0 |}).
Proof. reflexivity. Qed.

Example search_unavailable :
  fst (searchYouTube unavailable (str "Blinding Lights") start)
  = Throw (Error (str "Search API error: 503")).
Proof. reflexivity. Qed.

Lemma keeps_ret {A} (a : A) : keepsFetched (ret a).
Proof. done. Qed.

Lemma keeps_throw {A} e : keepsFetched (@throw A e).
Proof. done. Qed.

Lemma keeps_liftR {A} (r : result A) : keepsFetched (liftR r).
Proof. done. Qed.

Lemma keeps_random env : keepsFetched (random env).
Proof. done. Qed.

Lemma keeps_bind {A B} (m : M A) (f : A -> M B) :
  keepsFetched m -> (forall a, keepsFetched (f a)) -> keepsFetched (bind m f).
Proof.
  intros Hm Hf w. unfold bind. specialize (Hm w).
  destruct (m w) as [[a|e] w']; simpl in *; [|done].
  by rewrite Hf.
Qed.

Lemma keeps_mapM {A B} (f : A -> M B) l :
  (forall a, keepsFetched (f a)) -> keepsFetched (mapM f l).
Proof.
  intros Hf. induction l as [|x l IH]; simpl; [apply keeps_ret|].
  apply keeps_bind; [done|]. intros y.
  apply keeps_bind; [done|]. intros ys. apply keeps_ret.
Qed.

Lemma keeps_jioSaavnCandidate env item : keepsFetched (jioSaavnCandidate env item).
Proof.
  unfold jioSaavnCandidate.
  repeat (apply keeps_bind; [try apply keeps_liftR|intros ?]); try apply keeps_ret.
  destruct (truthy (prop item "id")); [apply keeps_ret|].
  apply keeps_bind; [apply keeps_random|]. intros r. apply keeps_ret.
Qed.

(** A fetch adds its URL to the run, and what follows adds nothing when it
    fetches nothing. *)
Lemma fetch_then {A} env url (k : Response -> M A) w :
  (forall r, keepsFetched (k r)) ->
  fetched (snd ((response <~ fetch env url ;; k response) w)) = fetched w ++ [url].
Proof.
  intros Hk. unfold bind, fetch. destruct (net env _ url) as [|r]; [done|].
  by rewrite Hk.
Qed.

(** [searchJioSaavn] always returns a list, and fetches exactly the search
    URL of the query. *)
Lemma searchJioSaavn_returns env query w :
  exists cs w',
    searchJioSaavn env query w = (Ok cs, w') /\
    fetched w' = fetched w ++ [jioSaavnUrl query].
Proof.
  unfold searchJioSaavn, tryCatch.
  match goal with |- context [bind (fetch env ?u) ?k] =>
    pose proof (fetch_then env u k w) as Hf;
    destruct (bind (fetch env u) k w) as [[cs|e] w'] end.
  - exists cs, w'. split; [done|]. apply Hf. intros r.
    destruct (negb (ok r)); [apply keeps_throw|].
    apply keeps_bind.
    { unfold readJson. destruct (json r); [apply keeps_ret|apply keeps_throw]. }
    intros data. apply keeps_bind; [apply keeps_liftR|]. intros results.
    destruct results; try apply keeps_ret.
    apply keeps_mapM, keeps_jioSaavnCandidate.
  - exists [], w'. split; [done|]. apply Hf. intros r.
    destruct (negb (ok r)); [apply keeps_throw|].
    apply keeps_bind.
    { unfold readJson. destruct (json r); [apply keeps_ret|apply keeps_throw]. }
    intros data. apply keeps_bind; [apply keeps_liftR|]. intros results.
    destruct results; try apply keeps_ret.
    apply keeps_mapM, keeps_jioSaavnCandidate.
Qed.

(** The upstream conditions under which [searchJioSaavn] has nothing to
    return: the fetch fails, the status is not a success, the body is not
    JSON, or the body has no list of results or an empty one. *)
Lemma searchJioSaavn_empty env query w :
  nextFetch env w (jioSaavnUrl query) = Rejected \/
  (exists response,
     nextFetch env w (jioSaavnUrl query) = Fulfilled response /\
     (ok response = false \/ json response = None \/
      exists data, json response = Some data /\
        forall items, resultsOf data = Ok (VArr items) -> items = [])) ->
  fst (searchJioSaavn env query w) = Ok [].
Proof.
  unfold nextFetch, jioSaavnUrl.
  intros H. cbv [searchJioSaavn tryCatch bind fetch readJson ret throw liftR fst].
  destruct H as [->|(response & -> & H)]; [done|].
  destruct H as [->|[H|(data & Hd & H)]]; [done| |].
  - destruct (ok response); [|done]. simpl negb. cbv iota. by rewrite H.
  - destruct (ok response); [|done]. simpl negb. cbv iota. rewrite Hd. cbv iota beta.
    destruct (resultsOf data) as [results|e]; [|done].
    destruct results as [| | | | | |items| |]; try done.
    by rewrite (H items eq_refl).
Qed.

(** C6, as stated, fails for [searchYouTube]: when the backend answers 503
    the search throws the error it made of the status. *)
Lemma searchYouTube_throws :
  fst (searchYouTube unavailable (str "Blinding Lights") start)
    = Throw (Error (str "Search API error: 503")) /\
  fst (searchYouTube unavailable (str "Blinding Lights") start) <> Ok [].
Proof. split; [reflexivity|discriminate]. Qed.

(** C6, amended: [searchJioSaavn] never fails: it returns a list for every
    query and every answer of the network, and the empty list when the fetch
    fails, the status is not a success, the body is not JSON or the list of
    results is missing or empty.  [searchYouTube] returns the empty list when
    the answer is a success whose [items] are missing or empty; a status that
    is not a success, a failed fetch and a body that is not JSON it throws
    again to its caller. *)
Theorem search_failures :
  (forall env query w, exists cs w', searchJioSaavn env query w = (Ok cs, w')) /\
  (forall env query w,
     nextFetch env w (jioSaavnUrl query) = Rejected \/
     (exists response,
        nextFetch env w (jioSaavnUrl query) = Fulfilled response /\
        (ok response = false \/ json response = None \/
         exists data, json response = Some data /\
           forall items, resultsOf data = Ok (VArr items) -> items = [])) ->
     fst (searchJioSaavn env query w) = Ok []) /\
  (forall env query w response data items,
     nextFetch env w (youTubeUrl env query) = Fulfilled response ->
     ok response = true -> json response = Some data ->
     get data "items" = Ok items -> truthy items = false \/ items = VArr [] ->
     fst (searchYouTube env query w) = Ok []) /\
  (forall env query w response,
     nextFetch env w (youTubeUrl env query) = Fulfilled response ->
     ok response = false ->
     fst (searchYouTube env query w)
       = Throw (Error (str "Search API error: " ++ str (pretty (status response))))) /\
  (forall env query w,
     nextFetch env w (youTubeUrl env query) = Rejected ->
     fst (searchYouTube env query w) = Throw NetworkError) /\
  (forall env query w response,
     nextFetch env w (youTubeUrl env query) = Fulfilled response ->
     ok response = true -> json response = None ->
     fst (searchYouTube env query w) = Throw SyntaxError).
Proof.
  split; [|split; [apply searchJioSaavn_empty|]].
  { intros env query w. destruct (searchJioSaavn_returns env query w) as (cs & w' & H & _).
    by exists cs, w'. }
  unfold nextFetch, youTubeUrl.
  split; [|split; [|split]].
  - intros env query w response data items Hnet Hok Hjson Hitems Hempty.
    cbv [searchYouTube tryCatch bind fetch readJson ret throw liftR fst].
    rewrite Hnet, Hok. simpl negb. cbv iota. rewrite Hjson. cbv beta iota.
    rewrite Hitems. cbv beta iota.
    destruct Hempty as [->| ->]; done.
  - intros env query w response Hnet Hok.
    cbv [searchYouTube tryCatch bind fetch readJson ret throw liftR fst].
    by rewrite Hnet, Hok.
  - intros env query w Hnet.
    cbv [searchYouTube tryCatch bind fetch readJson ret throw liftR fst].
    by rewrite Hnet.
  - intros env query w response Hnet Hok Hjson.
    cbv [searchYouTube tryCatch bind fetch readJson ret throw liftR fst].
    rewrite Hnet, Hok. simpl negb. cbv iota. by rewrite Hjson.
Qed.

(** C6 at a backend that answers 503, where [searchJioSaavn] returns the
    empty list and [searchYouTube] throws; at a backend that finds nothing;
    at a network that is down; and at an answer that is not JSON. *)
Lemma search_failures_witness :
  fst (searchJioSaavn unavailable (str "Blinding Lights") start) = Ok [] /\
  fst (searchYouTube unavailable (str "Blinding Lights") start)
    = Throw (Error (str "Search API error: " ++ str (pretty 503))) /\
  fst (searchYouTube noItems (str "Blinding Lights") start) = Ok [] /\
  fst (searchYouTube offline (str "Blinding Lights") start) = Throw NetworkError /\
  fst (searchYouTube notJson (str "Blinding Lights") start) = Throw SyntaxError.
Proof.
  destruct search_failures as (_ & Hjio & Hnone & Hstatus & Hnet & Hjson).
  split; [|split; [|split; [|split]]].
  - apply Hjio. right.
    exists {| status := 503; json := None |}. split; [reflexivity|]. left. reflexivity.
  - apply (Hstatus unavailable _ start {| status := 503; json := None |}); reflexivity.
  - apply (Hnone noItems _ start
             {| status := 200; json := Some (VObj [("items"%string, VArr [])]) |}
             (VObj [("items"%string, VArr [])]) (VArr []));
      try reflexivity.
    right. reflexivity.
  - apply Hnet. reflexivity.
  - apply (Hjson notJson _ start {| status := 200; json := None |}); reflexivity.
Defined.

(** An attempt is a search when the query is not empty, and nothing
    otherwise: [searchJioSaavn] does not throw, so the [catch] is never
    entered. *)
Lemma attempt_search env query results w :
  attempt env query results w =
  if truthyStr query then searchJioSaavn env query w else (Ok results, w).
Proof.
  unfold attempt, tryCatch. destruct (truthyStr query); [|done].
  destruct (searchJioSaavn_returns env query w) as (cs & w' & -> & _). done.
Qed.

Lemma getJioSaavnAudioUrl_attempts env track w :
  truthyOpt (t_url track) = false ->
  getJioSaavnAudioUrl env track w =
  (results <~ attempt env (strictQuery track) [] ;;
   results <~ (match results with
               | [] => attempt env (retryQuery track) results
               | _ => ret results
               end) ;;
   match results with
   | [] => throw (Error (str "Track not found on JioSaavn"))
   | first :: _ => ret (c_url first)
   end) w.
Proof.
  unfold getJioSaavnAudioUrl. by destruct (t_url track) as [[|c u]|].
Qed.

Lemma dropWhile_app_space s c :
  isWhiteSpace c = true ->
  dropWhile isWhiteSpace (s ++ [c])
  = match dropWhile isWhiteSpace s with
    | [] => []
    | d => d ++ [c]
    end.
Proof.
  intros Hc. induction s as [|x s IH]; simpl; [by rewrite Hc|].
  destruct (isWhiteSpace x); [done|]. done.
Qed.

(** A space at the end is trimmed away. *)
Lemma trim_app_space s : trim (s ++ str " ") = trim s.
Proof.
  unfold trim, trimStart, trimEnd. change (str " ") with [" "%char].
  rewrite (dropWhile_app_space s " "%char eq_refl).
  destruct (dropWhile isWhiteSpace s) as [|x d]; [done|].
  by rewrite rev_app_distr.
Qed.

(** C3, as stated, fails: a search is made only for a query that is not
    empty.  For a track whose name is blank both queries are empty, and
    "Track not found" is thrown with no search made, by a provider that has
    results for every search. *)
Lemma blank_title_no_search :
  strictQuery blankTrack = [] /\
  retryQuery blankTrack = [] /\
  (exists results w',
     searchJioSaavn starboyFirst (str "Blinding Lights") start = (Ok results, w') /\
     results <> []) /\
  getJioSaavnAudioUrl starboyFirst blankTrack start
    = (Throw (Error (str "Track not found on JioSaavn")), start).
Proof.
  split; [reflexivity|]. split; [reflexivity|]. split; [|reflexivity].
  eexists _, _. split; [reflexivity|discriminate].
Qed.

(** C3, amended: for a track without a direct URL, [getJioSaavnAudioUrl]
    makes at most two searches.  The first query is the title and the name
    of the first artist joined by a space and trimmed, the title alone when
    there is no artist; the second is the title alone, trimmed.  A search is
    made only for a query that is not empty, the second only when the first
    attempt gave no result.  "Track not found" is thrown exactly when
    neither attempt gave a result; when both queries are not empty that is
    after both searches, in that order, have returned nothing. *)
Theorem jioSaavn_two_attempts env track w :
  truthyOpt (t_url track) = false ->
  (forall name,
     orOpt (t_name track) (t_title track) = Some name ->
     retryQuery track = trim name /\
     (forall a rest artist,
        t_artists track = Some (a :: rest) -> ta_name a = Some artist ->
        strictQuery track = trim (name ++ str " " ++ artist)) /\
     (t_artists track = None \/ t_artists track = Some [] ->
      strictQuery track = trim name)) /\
  exists first second w1 w2,
    (if truthyStr (strictQuery track)
     then searchJioSaavn env (strictQuery track) w
     else (Ok [], w)) = (Ok first, w1) /\
    match first with
    | [] =>
        (if truthyStr (retryQuery track)
         then searchJioSaavn env (retryQuery track) w1
         else (Ok [], w1)) = (Ok second, w2)
    | _ => second = first /\ w2 = w1
    end /\
    fetched w2 =
      fetched w
        ++ (if truthyStr (strictQuery track) then [jioSaavnUrl (strictQuery track)] else [])
        ++ match first with
           | [] => if truthyStr (retryQuery track) then [jioSaavnUrl (retryQuery track)] else []
           | _ => []
           end /\
    (length (fetched w2) <= length (fetched w) + 2)%nat /\
    getJioSaavnAudioUrl env track w =
      (match second with
       | [] => Throw (Error (str "Track not found on JioSaavn"))
       | c :: _ => Ok (c_url c)
       end, w2) /\
    (fst (getJioSaavnAudioUrl env track w) = Throw (Error (str "Track not found on JioSaavn"))
     <-> first = [] /\ second = []) /\
    (truthyStr (strictQuery track) = true -> truthyStr (retryQuery track) = true ->
     fst (getJioSaavnAudioUrl env track w) = Throw (Error (str "Track not found on JioSaavn")) ->
     searchJioSaavn env (strictQuery track) w = (Ok [], w1) /\
     searchJioSaavn env (retryQuery track) w1 = (Ok [], w2) /\
     fetched w2
       = fetched w ++ [jioSaavnUrl (strictQuery track); jioSaavnUrl (retryQuery track)]).
Proof.
  intros Hurl. split.
  { intros name Hname. split; [|split].
    - unfold retryQuery, orOpt at 1. rewrite Hname.
      destruct name as [|c name]; reflexivity.
    - intros a rest artist Ha Hn. unfold strictQuery. by rewrite Hname, Ha, Hn.
    - intros Ha. unfold strictQuery. rewrite Hname.
      assert (Hq : match t_artists track with
                   | Some (a :: _) => ta_name a
                   | _ => Some []
                   end = Some []) by (by destruct Ha as [->| ->]).
      rewrite Hq. cbn [interpolate default]. rewrite app_nil_r. apply trim_app_space. }
  rewrite (getJioSaavnAudioUrl_attempts env track w Hurl).
  unfold bind. rewrite !attempt_search.
  assert (H1 : exists first w1,
            (if truthyStr (strictQuery track)
             then searchJioSaavn env (strictQuery track) w else (Ok [], w)) = (Ok first, w1) /\
            fetched w1 = fetched w ++
              (if truthyStr (strictQuery track) then [jioSaavnUrl (strictQuery track)] else [])).
  { destruct (truthyStr (strictQuery track)).
    - destruct (searchJioSaavn_returns env (strictQuery track) w) as (cs & w' & H & Hf).
      by exists cs, w'.
    - exists [], w. by rewrite app_nil_r. }
  destruct H1 as (first & w1 & H1 & Hf1). rewrite H1.
  destruct first as [|c first].
  - rewrite attempt_search.
    assert (H2 : exists second w2,
              (if truthyStr (retryQuery track)
               then searchJioSaavn env (retryQuery track) w1 else (Ok [], w1)) = (Ok second, w2) /\
              fetched w2 = fetched w1 ++
                (if truthyStr (retryQuery track) then [jioSaavnUrl (retryQuery track)] else [])).
    { destruct (truthyStr (retryQuery track)).
      - destruct (searchJioSaavn_returns env (retryQuery track) w1) as (cs & w' & H & Hf).
        by exists cs, w'.
      - exists [], w1. by rewrite app_nil_r. }
    destruct H2 as (second & w2 & H2 & Hf2). rewrite H2.
    exists [], second, w1, w2. split; [done|]. split; [done|].
    split; [by rewrite Hf2, Hf1, <- app_assoc|].
    split.
    { rewrite Hf2, Hf1, !length_app.
      destruct (truthyStr (strictQuery track)), (truthyStr (retryQuery track)); simpl; lia. }
    destruct second as [|c second]; (split; [done|]); simpl.
    + split; [done|]. intros Hs Hr _. rewrite Hs in H1, Hf1. rewrite Hr in H2, Hf2.
      split; [done|]. split; [done|]. by rewrite Hf2, Hf1, <- app_assoc.
    + split; [split; [done|by intros [_ ?]]|]. intros _ _ H. discriminate H.
  - exists (c :: first), (c :: first), w1, w1. split; [done|]. split; [done|].
    split; [by rewrite Hf1, app_nil_r|].
    split.
    { rewrite Hf1, length_app. destruct (truthyStr (strictQuery track)); simpl; lia. }
    split; [done|]. simpl. split; [split; [done|by intros [? _]]|].
    intros _ _ H. discriminate H.
Qed.

(** C3 at "Blinding Lights" by The Weeknd and a provider that finds nothing
    at the first search and the track at the second: the search for title
    and artist, then the search for the title, and the track's URL. *)
Lemma jioSaavn_two_attempts_witness :
  strictQuery blindingLightsTrack = str "Blinding Lights The Weeknd" /\
  retryQuery blindingLightsTrack = str "Blinding Lights" /\
  fst (getJioSaavnAudioUrl secondTime blindingLightsTrack start)
    = Ok (VStr (str "https://aac.saavncdn.com/blinding.mp4")) /\
  fetched (snd (getJioSaavnAudioUrl secondTime blindingLightsTrack start))
    = [jioSaavnUrl (str "Blinding Lights The Weeknd"); jioSaavnUrl (str "Blinding Lights")].
Proof.
  destruct (jioSaavn_two_attempts secondTime blindingLightsTrack start eq_refl)
    as (Hq & first & second & w1 & w2 & H1 & H2 & Hf & _ & Hres & _).
  destruct (Hq (str "Blinding Lights") eq_refl) as (Hretry & Hstrict & _).
  specialize (Hstrict _ _ (str "The Weeknd") eq_refl eq_refl).
  split; [exact Hstrict|]. split; [exact Hretry|].
  rewrite Hres. cbn [fst snd].
  rewrite Hstrict in H1, Hf. rewrite Hretry in H2, Hf.
  vm_compute in H1. injection H1 as <- <-.
  vm_compute in H2. injection H2 as <- <-.
  split; reflexivity.
Defined.

(** C7, as stated, fails: the provider lists "Starboy" before "Blinding
    Lights"; asked for "Blinding Lights" by The Weeknd the resolver returns
    the URL of "Starboy", the first result, where the TextMatcher's selection
    among the same results is "Blinding Lights". *)
Lemma resolver_takes_starboy :
  exists results w',
    searchJioSaavn starboyFirst (strictQuery blindingLightsTrack) start = (Ok results, w') /\
    fst (getJioSaavnAudioUrl starboyFirst blindingLightsTrack start)
      = Ok (VStr (str "https://aac.saavncdn.com/starboy.mp4")) /\
    c_url <$> selectBestCandidate results (str "Blinding Lights") (str "The Weeknd")
      = Some (VStr (str "https://aac.saavncdn.com/blinding.mp4")).
Proof. eexists _, _. split; [reflexivity|]. split; reflexivity. Qed.

(** C7, amended: on the search path the resolver takes the first candidate
    the provider returned, without ranking: [getJioSaavnAudioUrl] returns
    the URL of the first result of the strict search, or of the loosened one
    when the strict search found nothing, and [getYouTubeAudioUrl] extracts
    the stream for the id of the first result; a track whose id has 11
    characters is extracted by that id, with no search. *)
Theorem resolver_takes_first_result :
  (forall env track w first rest w',
     truthyOpt (t_url track) = false -> truthyStr (strictQuery track) = true ->
     searchJioSaavn env (strictQuery track) w = (Ok (first :: rest), w') ->
     getJioSaavnAudioUrl env track w = (Ok (c_url first), w')) /\
  (forall env track w w1 first rest w',
     truthyOpt (t_url track) = false ->
     attempt env (strictQuery track) [] w = (Ok [], w1) ->
     truthyStr (retryQuery track) = true ->
     searchJioSaavn env (retryQuery track) w1 = (Ok (first :: rest), w') ->
     getJioSaavnAudioUrl env track w = (Ok (c_url first), w')) /\
  (forall env track w first rest w1,
     truthyOpt (t_url track) = false ->
     (forall id, t_id track = Some id -> length id <> 11%nat) ->
     searchYouTube env (youTubeQuery track) w = (Ok (first :: rest), w1) ->
     getYouTubeAudioUrl env track w =
       (mapResult VStr (fst (getStreamUrl env (c_id first) w1)),
        snd (getStreamUrl env (c_id first) w1))) /\
  (forall env track w id,
     truthyOpt (t_url track) = false ->
     t_id track = Some id -> length id = 11%nat ->
     getYouTubeAudioUrl env track w =
       (mapResult VStr (fst (getStreamUrl env (VStr id) w)),
        snd (getStreamUrl env (VStr id) w))).
Proof.
  split; [|split; [|split]].
  - intros env track w first rest w' Hurl Hq Hsearch.
    rewrite (getJioSaavnAudioUrl_attempts env track w Hurl).
    unfold bind. by rewrite attempt_search, Hq, Hsearch.
  - intros env track w w1 first rest w' Hurl Hstrict Hq Hsearch.
    rewrite (getJioSaavnAudioUrl_attempts env track w Hurl).
    unfold bind. by rewrite Hstrict, attempt_search, Hq, Hsearch.
  - intros env track w first rest w1 Hurl Hid Hsearch.
    assert (Hneeds : negb (truthyOpt (t_id track))
                     || negb (bool_decide (length (default [] (t_id track)) = 11%nat)) = true).
    { destruct (t_id track) as [id|] eqn:E; [|done].
      apply orb_true_iff. right. apply negb_true_iff, bool_decide_eq_false.
      by apply Hid. }
    unfold getYouTubeAudioUrl, tryCatch, bind.
    destruct (t_url track) as [[|c u]|]; try done.
    all: rewrite Hneeds, Hsearch; cbv [ret];
      destruct (getStreamUrl env (c_id first) w1) as [[url|e] w2]; reflexivity.
  - intros env track w id Hurl Hid Hlen.
    assert (truthyOpt (Some id) = true) as Ht by (by destruct id).
    unfold getYouTubeAudioUrl, tryCatch, bind.
    destruct (t_url track) as [[|c u]|]; try done.
    all: rewrite Hid, Ht; change (default [] (Some id)) with id;
      rewrite (bool_decide_eq_true_2 _ Hlen); cbv [negb orb ret];
      destruct (getStreamUrl env (VStr id) w) as [[url|e] w2]; reflexivity.
Qed.

(** C7 at the provider that lists "Starboy" first; at the provider that
    finds the track at the second search; at a backend that lists two
    videos; and at a track that has the id of its video. *)
Lemma resolver_takes_first_result_witness :
  fst (getJioSaavnAudioUrl starboyFirst blindingLightsTrack start)
    = Ok (VStr (str "https://aac.saavncdn.com/starboy.mp4")) /\
  fst (getJioSaavnAudioUrl secondTime blindingLightsTrack start)
    = Ok (VStr (str "https://aac.saavncdn.com/blinding.mp4")) /\
  (exists w1,
     getYouTubeAudioUrl twoVideos blindingLightsTrack start =
       (mapResult VStr (fst (getStreamUrl twoVideos (VStr (str "34Na4j8AVgA")) w1)),
        snd (getStreamUrl twoVideos (VStr (str "34Na4j8AVgA")) w1))) /\
  getYouTubeAudioUrl unavailable blindingLightsVideo start =
    (mapResult VStr (fst (getStreamUrl unavailable (VStr (str "4NRXx6U8ABQ")) start)),
     snd (getStreamUrl unavailable (VStr (str "4NRXx6U8ABQ")) start)).
Proof.
  destruct resolver_takes_first_result as (Hstrict & Hretry & Hsearch & Hnative).
  split; [|split; [|split]].
  - pose proof (Hstrict starboyFirst blindingLightsTrack start
                  _ _ _ eq_refl eq_refl eq_refl) as H.
    rewrite H. reflexivity.
  - pose proof (Hretry secondTime blindingLightsTrack start
                  _ _ _ _ eq_refl eq_refl eq_refl eq_refl) as H.
    rewrite H. reflexivity.
  - assert (Hid : forall id, t_id blindingLightsTrack = Some id -> length id <> 11%nat)
      by (intros id [= <-]; vm_compute; discriminate).
    pose proof (Hsearch twoVideos blindingLightsTrack start _ _ _ eq_refl Hid eq_refl) as H.
    eexists. exact H.
  - apply Hnative; reflexivity.
Defined.

End Resolver.

(** * Further properties *)

(** ** The matcher *)

Section MatcherMore.

Import Server.

Lemma toLowerCaseChar_normal c :
  keptChar (toLowerCaseChar c) = true -> normalChar (toLowerCaseChar c) = true.
Proof. each_char c. Qed.

(** X1: a normalized string is made of lower-case letters, digits,
    underscores and white space only, and is no longer than the text it
    comes from. *)
Theorem normalize_alphabet x :
  Forall (fun c => normalChar c = true) (normalize x) /\
  (length (normalize x) <= length x)%nat.
Proof.
  split.
  - unfold normalize, toLowerCase.
    induction (trim x) as [|c l IH]; simpl; [constructor|].
    destruct (isWordChar (toLowerCaseChar c) || isWhiteSpace (toLowerCaseChar c)) eqn:E;
      [|done].
    constructor; [|done]. by apply toLowerCaseChar_normal.
  - unfold normalize, toLowerCase, trim, trimEnd, trimStart.
    etransitivity; [apply filter_length_le|].
    rewrite length_map, length_rev.
    etransitivity; [apply dropWhile_length|]. rewrite length_rev.
    apply dropWhile_length.
Qed.

Lemma matchingLoop_elem cs title artist t :
  matchingLoop cs title artist = Some t -> t ∈ cs /\ titleOverlaps title t.
Proof.
  intros H. apply matchingLoop_Some in H as (l1 & l2 & -> & [Ht _] & _).
  split; [|done]. apply elem_of_app. right. by left.
Qed.

Lemma find_elem {A} (p : A -> bool) l t : find p l = Some t -> t ∈ l /\ p t = true.
Proof.
  intros H. apply find_some in H as [Hin Hp]. split; [|done]. by apply list_elem_of_In.
Qed.

(** X2: [_findMatchingTrack] returns a track of the list it is given, and it
    returns one whenever the list is not empty: it is [undefined] only for
    the empty list. *)
Theorem findMatchingTrack_member cs title artist :
  (forall t, _findMatchingTrack cs title artist = Some t -> t ∈ cs) /\
  (_findMatchingTrack cs title artist = None <-> cs = []).
Proof.
  unfold _findMatchingTrack. split.
  - intros t. destruct (matchingLoop cs title artist) as [r|] eqn:E.
    { intros [= <-]. by apply matchingLoop_elem in E as [? _]. }
    destruct (find (titleMatches title) cs) as [r|] eqn:F.
    { intros [= <-]. by apply find_elem in F as [? _]. }
    destruct cs as [|c cs]; [done|]. intros [= <-]. by left.
  - destruct (matchingLoop cs title artist) as [r|] eqn:E.
    { split; [done|]. intros ->. done. }
    destruct (find (titleMatches title) cs) as [r|] eqn:F.
    { split; [done|]. intros ->. done. }
    by destruct cs.
Qed.

(** X2 at two candidates of which none has the title asked for. *)
Lemma findMatchingTrack_member_witness :
  song "Starboy" ["The Weeknd"]
    ∈ [song "Starboy" ["The Weeknd"]; song "Blinding Lights" ["The Weeknd"]].
Proof.
  apply (proj1 (findMatchingTrack_member
                  [song "Starboy" ["The Weeknd"]; song "Blinding Lights" ["The Weeknd"]]
                  (str "Levitating") (str "Dua Lipa"))).
  reflexivity.
Defined.

(** X3: the title decides before the artist does: when the title of some
    candidate overlaps the title asked for, the track returned is one whose
    title overlaps, whatever artist is asked for. *)
Theorem findMatchingTrack_title_first cs title artist r :
  (exists t, t ∈ cs /\ titleOverlaps title t) ->
  _findMatchingTrack cs title artist = Some r ->
  titleOverlaps title r.
Proof.
  intros (t & Hin & Ht). unfold _findMatchingTrack.
  destruct (matchingLoop cs title artist) as [r'|] eqn:E.
  { intros [= <-]. by apply matchingLoop_elem in E as [_ ?]. }
  destruct (find (titleMatches title) cs) as [r'|] eqn:F.
  { intros [= <-]. by apply find_elem in F as [_ ?]. }
  exfalso. apply (find_None (titleMatches title)) in F.
  rewrite Forall_forall in F. by apply (F t Hin).
Qed.

(** X3 at the candidates of the specification, asked for with an artist none
    of them has. *)
Lemma findMatchingTrack_title_first_witness :
  titleOverlaps (str "blinding lights remix")
    (song "Blinding Lights (Remix)" ["DJ X"]).
Proof.
  apply (findMatchingTrack_title_first
           [song "Starboy" ["The Weeknd"]; song "Blinding Lights (Remix)" ["DJ X"]]
           (str "blinding lights remix") (str "Dua Lipa")).
  - exists (song "Blinding Lights (Remix)" ["DJ X"]). split; [|reflexivity].
    right. left.
  - reflexivity.
Defined.

(** X4: a title that normalizes to the empty string, such as one made of
    punctuation only, overlaps every title: with such a title asked for and
    no artist, the first candidate is returned whatever it is. *)
Theorem findMatchingTrack_empty_title title c cs :
  normalize title = [] ->
  (forall track, titleMatches title track = true) /\
  _findMatchingTrack (c :: cs) title [] = Some c.
Proof.
  intros Hn.
  assert (Hall : forall track, titleMatches title track = true).
  { intros track. unfold titleMatches, namesOverlap, startsEither. rewrite Hn.
    destruct (normalize (song_name track)); reflexivity. }
  split; [done|].
  unfold _findMatchingTrack. simpl. rewrite Hall. simpl.
  by rewrite orb_true_r.
Qed.

(** X4 at the title ["?!"]. *)
Lemma findMatchingTrack_empty_title_witness :
  _findMatchingTrack
    [song "Starboy" ["The Weeknd"]; song "Blinding Lights" ["The Weeknd"]] (str "?!") []
  = Some (song "Starboy" ["The Weeknd"]).
Proof. apply findMatchingTrack_empty_title. reflexivity. Defined.

End MatcherMore.

(** ** Percent-encoding *)

Section EncodingMore.

Lemma encodeChar_safe c : Forall (fun d => uriSafe d = true) (encodeChar c).
Proof.
  apply Forall_forall. intros d Hd. apply list_elem_of_In in Hd. revert d Hd.
  apply forallb_forall. destruct c as [[] [] [] [] [] [] [] []]; vm_compute; reflexivity.
Qed.

Lemma uriSafe_plain c :
  uriSafe c = true -> isWhiteSpace c = false /\ c ∉ str "&=?#/:+;,@$<>".
Proof.
  intros H.
  assert (isWhiteSpace c = false /\ bool_decide (c ∈ str "&=?#/:+;,@$<>") = false) as [H1 H2].
  { revert H. destruct c as [[] [] [] [] [] [] [] []]; vm_compute; try discriminate;
      (intros _; split; reflexivity). }
  split; [done|]. by apply bool_decide_eq_false in H2.
Qed.

Lemma encodeURIComponent_chars s :
  Forall (fun c => uriSafe c = true) (encodeURIComponent s).
Proof.
  unfold encodeURIComponent. induction s as [|c s IH]; simpl; [constructor|].
  apply Forall_app. split; [apply encodeChar_safe|done].
Qed.

Lemma encodeURIComponent_noSpace s : noSpace (encodeURIComponent s).
Proof.
  pose proof (encodeURIComponent_chars s) as H. rewrite Forall_forall in H.
  apply Forall_forall. intros c Hc. by apply uriSafe_plain, H.
Qed.

(** X5: in the URL either search fetches, the query is one parameter: what
    stands for it is made of letters, digits, the marks [- _ . ! ~ * ' ( )]
    and percent signs, so it holds no white space and none of the delimiters
    of a URL, and a query cannot add or change a parameter. *)
Theorem search_query_one_parameter query :
  exists q,
    jioSaavnUrl query
      = Service.JIOSAAVN_API_URL ++ str "?query=" ++ q ++ str "&page=0&limit=10" /\
    (forall env,
       youTubeUrl env query
       = Service.getSavedInstance env ++ str "/search?q=" ++ q ++ str "&filter=music_songs") /\
    Forall (fun c => uriSafe c = true) q /\
    noSpace q /\
    (forall c, c ∈ str "&=?#/:+;,@$<>" -> c ∉ q).
Proof.
  exists (encodeURIComponent query).
  pose proof (encodeURIComponent_chars query) as H.
  split; [done|]. split; [done|]. split; [done|].
  split; [apply encodeURIComponent_noSpace|].
  rewrite Forall_forall in H.
  intros c Hc Hin. by apply (proj2 (uriSafe_plain c (H c Hin))).
Qed.

(** X6: [encodeURIComponent] loses nothing: two different strings have
    different encodings, so two different queries make the searches fetch
    different URLs. *)
Theorem search_url_injective :
  (forall a b, a <> b -> encodeURIComponent a <> encodeURIComponent b) /\
  (forall a b, a <> b -> jioSaavnUrl a <> jioSaavnUrl b) /\
  (forall env a b, a <> b -> youTubeUrl env a <> youTubeUrl env b).
Proof.
  assert (Hinj : forall a b, encodeURIComponent a = encodeURIComponent b -> a = b).
  { intros a b H. apply (f_equal decodeURIComponent) in H.
    rewrite !decode_encode in H. by injection H. }
  split; [|split].
  - intros a b Hne H. by apply Hne, Hinj.
  - intros a b Hne H. unfold jioSaavnUrl in H.
    apply app_inv_head, app_inv_head, app_inv_tail in H. by apply Hne, Hinj.
  - intros env a b Hne H. unfold youTubeUrl in H.
    apply app_inv_head, app_inv_head, app_inv_tail in H. by apply Hne, Hinj.
Qed.

(** X6 at two queries that differ by a space and a plus sign. *)
Lemma search_url_injective_witness :
  encodeURIComponent (str "Blinding Lights") <> encodeURIComponent (str "Blinding+Lights") /\
  jioSaavnUrl (str "Blinding Lights") <> jioSaavnUrl (str "Blinding+Lights") /\
  youTubeUrl unavailable (str "Blinding Lights")
    <> youTubeUrl unavailable (str "Blinding+Lights").
Proof.
  destruct search_url_injective as (H1 & H2 & H3).
  split; [|split]; [apply H1|apply H2|apply H3]; discriminate.
Defined.

End EncodingMore.

(** ** The proxy *)

Section ProxyMore.

Import Server.

Lemma includes_cons_false c s p :
  includes (c :: s) p = false -> startsWith (c :: s) p = false /\ includes s p = false.
Proof. simpl. intros H. by apply orb_false_iff in H. Qed.

Lemma startsWith_trans s p q :
  startsWith s (p ++ q) = true -> startsWith s p = true.
Proof.
  rewrite !startsWith_prefix. intros [k ->]. exists (q ++ k). by rewrite app_assoc.
Qed.

Lemma matchUrl_no_http s : startsWith s (str "http") = false -> matchUrl s = None.
Proof.
  intros H. unfold matchUrl, matchScheme.
  destruct (startsWith s (str "https://")) eqn:E1.
  { apply (startsWith_trans s (str "http") (str "s://")) in E1. congruence. }
  destruct (startsWith s (str "http://")) eqn:E2; [|done].
  apply (startsWith_trans s (str "http") (str "://")) in E2. congruence.
Qed.

(** X7: a text in which [http] does not occur is sent as it is. *)
Theorem rewritePlaylist_no_url text :
  includes text (str "http") = false -> rewritePlaylist text = text.
Proof.
  induction text as [|c s IH]; [done|].
  intros H. apply includes_cons_false in H as [Hs Hi].
  rewrite rewritePlaylist_cons, (matchUrl_no_http _ Hs). f_equal. by apply IH.
Qed.

(** X7 at a playlist whose segments are relative. *)
Lemma rewritePlaylist_no_url_witness :
  rewritePlaylist (str "#EXTM3U" ++ LF ++ str "seg1.ts" ++ LF)
  = str "#EXTM3U" ++ LF ++ str "seg1.ts" ++ LF.
Proof. apply rewritePlaylist_no_url. reflexivity. Defined.

Lemma noSpace_filter s : noSpace s -> List.filter isWhiteSpace s = [].
Proof.
  induction 1 as [|c s Hc _ IH]; simpl; [done|]. by rewrite Hc.
Qed.

(** X8: the rewriting keeps the white space of the text as it is, every
    space and line end in its order: it never joins or splits lines. *)
Theorem rewritePlaylist_white_space text :
  List.filter isWhiteSpace (rewritePlaylist text) = List.filter isWhiteSpace text.
Proof.
  remember (length text) as n eqn:Hn. revert text Hn.
  induction n as [n IH] using lt_wf_ind. intros text ->.
  destruct text as [|c s]; [done|]. rewrite rewritePlaylist_cons.
  destruct (matchUrl (c :: s)) as [[m rest]|] eqn:E.
  - apply matchUrl_Some in E as (Hs & Hm & Hns & _). rewrite Hs.
    rewrite !List.filter_app.
    rewrite (noSpace_filter m Hns).
    rewrite (noSpace_filter (encodeURIComponent m))
      by apply encodeURIComponent_noSpace.
    change (List.filter isWhiteSpace baseProxyUrl) with (@nil ascii). simpl.
    apply (IH (length rest)); [|done].
    rewrite Hs, length_app. destruct m; [done|simpl; lia].
  - simpl. destruct (isWhiteSpace c); [f_equal|]; apply (IH (length s)); simpl; (lia || done).
Qed.

Lemma ok_status response : ok response = true <-> 200 <= status response <= 299.
Proof. unfold ok. rewrite andb_true_iff, !Z.leb_le. done. Qed.

(** X9: the status of a reply follows the request and the upstream: it is
    400 when the [url] parameter is missing or empty, and then nothing is
    fetched; 500 when the fetch fails; it is 206 only when the request has a
    [Range] header, and 200 only when it has none. *)
Theorem proxy_status fetch req :
  (query_url req = None \/ query_url req = Some [] ->
   forall fetch', proxy fetch' req
     = {| statusCode := 400; replyHeaders := ∅; replyBody := Send (str "Missing url") |}) /\
  (forall url, query_url req = Some url -> url <> [] ->
     fetch url (rangeOf req) = Rejected ->
     proxy fetch req
       = {| statusCode := 500; replyHeaders := ∅; replyBody := Send (str "Proxy failed") |}) /\
  (statusCode (proxy fetch req) = 206 -> is_Some (rangeOf req)) /\
  (statusCode (proxy fetch req) = 200 -> rangeOf req = None).
Proof.
  split; [|split].
  - intros [H|H] fetch'; unfold proxy; by rewrite H.
  - intros url Hurl Hne Hf. unfold proxy. rewrite Hurl, Hf. by destruct url.
  - unfold proxy. destruct (query_url req) as [[|c u]|]; try (split; discriminate).
    destruct (fetch (c :: u) (rangeOf req)) as [|response]; [split; discriminate|].
    destruct (ok response) eqn:Hok; simpl negb; cbv iota.
    + destruct (rangeOf req) as [r|];
        destruct (isManifest (contentTypeOf response) (c :: u));
        try destruct (text response); simpl; split; try discriminate; eauto.
    + simpl. assert (Hs : ~ 200 <= status response <= 299).
      { intros H. apply ok_status in H. congruence. }
      split; intros H; rewrite H in Hs; lia.
Qed.

(** X9 at a request with no [url], and at a request without [Range] that an
    upstream answers with 200. *)
Lemma proxy_status_witness :
  proxy (answering notFound) {| query_url := None; headers_range := None |}
    = {| statusCode := 400; replyHeaders := ∅; replyBody := Send (str "Missing url") |} /\
  rangeOf (plainRequest "https://host/a.mp4") = None.
Proof.
  split.
  - apply (proj1 (proxy_status (answering playlistResponse)
                    {| query_url := None; headers_range := None |})).
    by left.
  - apply (proj2 (proj2 (proj2 (proxy_status (answering partialContent)
                                  (plainRequest "https://host/a.mp4"))))).
    reflexivity.
Defined.

Lemma copyHeader_is_Some name response hs name' :
  is_Some (copyHeader name response hs !! name') -> name' = name \/ is_Some (hs !! name').
Proof.
  unfold copyHeader. destruct (headers response !! name) as [h|]; [|by right].
  destruct (truthyStr h); [|by right].
  destruct (decide (name = name')) as [->|Hne]; [by left|].
  rewrite lookup_insert_ne by done. by right.
Qed.

(** X10: the handler sets four headers and no other: of the upstream's
    headers only [Content-Type], [Content-Length] and [Content-Range] reach
    the reply; and every reply to a successful upstream allows every origin. *)
Theorem proxy_headers fetch req :
  (forall name, is_Some (replyHeaders (proxy fetch req) !! name) -> name ∈ proxyHeaderNames) /\
  (forall url response,
     query_url req = Some url -> url <> [] ->
     fetch url (rangeOf req) = Fulfilled response -> ok response = true ->
     replyHeaders (proxy fetch req) !! "Access-Control-Allow-Origin"%string = Some (str "*")).
Proof.
  split.
  - intros name. unfold proxy.
    assert (Hhs : forall response,
              is_Some (copyHeader "Content-Range" response
                         (copyHeader "Content-Length" response
                            (<["Access-Control-Allow-Origin"%string := str "*"]>
                               (<["Content-Type"%string := contentTypeOf response]> ∅))) !! name) ->
              name ∈ proxyHeaderNames).
    { intros response H. unfold proxyHeaderNames.
      apply copyHeader_is_Some in H as [->|H]; [set_solver|].
      apply copyHeader_is_Some in H as [->|H]; [set_solver|].
      destruct (decide (name = "Access-Control-Allow-Origin"%string)) as [->|Hne];
        [set_solver|].
      rewrite lookup_insert_ne in H by done.
      destruct (decide (name = "Content-Type"%string)) as [->|Hne'];
        [set_solver|].
      rewrite lookup_insert_ne, lookup_empty in H by done. by destruct H. }
    destruct (query_url req) as [[|c u]|]; simpl;
      try (rewrite lookup_empty; by intros []).
    destruct (fetch (c :: u) (rangeOf req)) as [|response]; simpl;
      [rewrite lookup_empty; by intros []|].
    destruct (ok response); simpl; [|rewrite lookup_empty; by intros []].
    destruct (isManifest (contentTypeOf response) (c :: u));
      [destruct (text response)|]; simpl; apply Hhs.
  - intros url response Hurl Hne Hf Hok. unfold proxy. rewrite Hurl.
    destruct url as [|c u]; [done|]. rewrite Hf, Hok. simpl negb. cbv iota.
    assert (copyHeader "Content-Range" response
              (copyHeader "Content-Length" response
                 (<["Access-Control-Allow-Origin"%string := str "*"]>
                    (<["Content-Type"%string := contentTypeOf response]> ∅)))
            !! "Access-Control-Allow-Origin"%string = Some (str "*")) as H.
    { rewrite !copyHeader_other by done. apply lookup_insert_eq. }
    destruct (isManifest (contentTypeOf response) (c :: u));
      [destruct (text response)|]; simpl; exact H.
Qed.

(** X10 at the reply to the range request of the specification. *)
Lemma proxy_headers_witness :
  "Content-Range"%string ∈ proxyHeaderNames /\
  replyHeaders (proxy (answering partialContent)
                  (rangeRequest "https://host/a.mp4" "bytes=0-99"))
    !! "Access-Control-Allow-Origin"%string = Some (str "*").
Proof.
  split.
  - apply (proj1 (proxy_headers (answering partialContent)
                    (rangeRequest "https://host/a.mp4" "bytes=0-99"))).
    by eexists.
  - apply (proj2 (proxy_headers (answering partialContent)
                    (rangeRequest "https://host/a.mp4" "bytes=0-99"))
             (str "https://host/a.mp4") partialContent); try reflexivity.
    discriminate.
Defined.

(** X11: what is not a manifest is piped through untouched; but a body that
    comes with no [Content-Type] counts as a manifest whatever the URL is,
    and is read and rewritten. *)
Theorem proxy_body fetch req url response :
  query_url req = Some url -> url <> [] ->
  fetch url (rangeOf req) = Fulfilled response -> ok response = true ->
  (isManifest (contentTypeOf response) url = false ->
   replyBody (proxy fetch req) = Pipe) /\
  (headers response !! "Content-Type"%string = None ->
   forall playlistText, text response = Some playlistText ->
   replyBody (proxy fetch req) = Send (rewritePlaylist playlistText)).
Proof.
  intros Hurl Hne Hf Hok. unfold proxy. rewrite Hurl.
  destruct url as [|c u]; [done|]. rewrite Hf, Hok. simpl negb. cbv iota. split.
  - by intros ->.
  - intros Hct t Ht.
    assert (contentTypeOf response = str "application/vnd.apple.mpegurl") as ->
      by (unfold contentTypeOf; by rewrite Hct).
    assert (isManifest (str "application/vnd.apple.mpegurl") (c :: u) = true) as ->
      by reflexivity.
    by rewrite Ht.
Qed.

(** X11 at an audio file: piped when the upstream names its type, rewritten
    when the upstream sends no header. *)
Lemma proxy_body_witness :
  replyBody (proxy (answering partialContent) (plainRequest "https://host/a.mp4")) = Pipe /\
  replyBody (proxy (answering (bareResponse "see https://host/b.mp4"))
               (plainRequest "https://host/a.mp4"))
    = Send (rewritePlaylist (str "see https://host/b.mp4")).
Proof.
  split.
  - apply (proj1 (proxy_body (answering partialContent) (plainRequest "https://host/a.mp4")
                    (str "https://host/a.mp4") partialContent eq_refl
                    ltac:(discriminate) eq_refl eq_refl)).
    reflexivity.
  - apply (proj2 (proxy_body (answering (bareResponse "see https://host/b.mp4"))
                    (plainRequest "https://host/a.mp4")
                    (str "https://host/a.mp4") (bareResponse "see https://host/b.mp4")
                    eq_refl ltac:(discriminate) eq_refl eq_refl));
      reflexivity.
Defined.

End ProxyMore.

(** ** The services *)

Section ServiceMore.

Import Service.

(** X12: a track that has a direct URL is resolved to that URL by either
    provider, and nothing is fetched. *)
Theorem direct_url_no_fetch env track u w :
  t_url track = Some u -> u <> [] ->
  getAudioUrlForTrack env track w = (Ok (VStr u), w).
Proof.
  intros Hu Hne. unfold getAudioUrlForTrack, getJioSaavnAudioUrl, getYouTubeAudioUrl, tryCatch.
  rewrite Hu. destruct u as [|c u]; [done|].
  by destruct (decide (getSearchProvider env = str "jiosaavn")).
Qed.

(** X12 at a track with a URL, with a network that is down. *)
Lemma direct_url_no_fetch_witness :
  getAudioUrlForTrack offline resolvedTrack start
  = (Ok (VStr (str "https://aac.saavncdn.com/blinding.mp4")), start).
Proof. apply direct_url_no_fetch; [reflexivity|discriminate]. Defined.

Lemma fa_keeps {A} (m : M A) n : keepsFetched m -> fetchesAtMost n m.
Proof. intros H w. exists []. rewrite H, app_nil_r. split; [done|simpl; lia]. Qed.

Lemma fa_weaken {A} (m : M A) n n' : (n <= n')%nat -> fetchesAtMost n m -> fetchesAtMost n' m.
Proof. intros Hle H w. destruct (H w) as (l & Hl & Hn). exists l. split; [done|lia]. Qed.

Lemma fa_fetch env url : fetchesAtMost 1 (fetch env url).
Proof.
  intros w. exists [url]. unfold fetch. split; [|done].
  by destruct (net env _ url).
Qed.

Lemma fa_bind {A B} (m : M A) (f : A -> M B) a b :
  fetchesAtMost a m -> (forall x, fetchesAtMost b (f x)) -> fetchesAtMost (a + b) (bind m f).
Proof.
  intros Hm Hf w. unfold bind. destruct (Hm w) as (l & Hl & Hn).
  destruct (m w) as [[x|e] w']; simpl in *.
  - destruct (Hf x w') as (l' & Hl' & Hn'). exists (l ++ l').
    rewrite Hl', Hl, app_assoc, length_app. split; [done|lia].
  - exists l. split; [done|lia].
Qed.

Lemma fa_tryCatch {A} (m : M A) (h : exn -> M A) a b :
  fetchesAtMost a m -> (forall e, fetchesAtMost b (h e)) -> fetchesAtMost (a + b) (tryCatch m h).
Proof.
  intros Hm Hh w. unfold tryCatch. destruct (Hm w) as (l & Hl & Hn).
  destruct (m w) as [[x|e] w']; simpl in *.
  - exists l. split; [done|lia].
  - destruct (Hh e w') as (l' & Hl' & Hn'). exists (l ++ l').
    rewrite Hl', Hl, app_assoc, length_app. split; [done|lia].
Qed.

Lemma keeps_readJson response : keepsFetched (readJson response).
Proof. unfold readJson. destruct (json response); [apply keeps_ret|apply keeps_throw]. Qed.

Lemma fa_searchJioSaavn env query : fetchesAtMost 1 (searchJioSaavn env query).
Proof.
  intros w. destruct (searchJioSaavn_returns env query w) as (cs & w' & H & Hf).
  exists [jioSaavnUrl query]. rewrite H. done.
Qed.

(** [searchYouTube] fetches exactly the search URL of the query. *)
Lemma searchYouTube_fetched env query w :
  fetched (snd (searchYouTube env query w)) = fetched w ++ [youTubeUrl env query].
Proof.
  unfold searchYouTube, tryCatch.
  match goal with |- context [bind (fetch env ?u) ?k] =>
    assert (Hk : forall r, keepsFetched (k r));
    [|pose proof (fetch_then env u k w Hk) as Hf;
      destruct (bind (fetch env u) k w) as [[cs|e] w']; exact Hf] end.
  intros response. cbv beta.
  destruct (negb (ok response)); [apply keeps_throw|].
  apply keeps_bind; [apply keeps_readJson|]. intros data.
  apply keeps_bind; [apply keeps_liftR|]. intros items.
  destruct (negb (truthy items)); [apply keeps_ret|].
  destruct items; try apply keeps_throw. apply keeps_liftR.
Qed.

Lemma fa_searchYouTube env query : fetchesAtMost 1 (searchYouTube env query).
Proof.
  intros w. exists [youTubeUrl env query]. split; [apply searchYouTube_fetched|done].
Qed.

Lemma fa_getStreamUrl env videoId : fetchesAtMost 1 (getStreamUrl env videoId).
Proof.
  unfold getStreamUrl.
  apply (fa_tryCatch _ _ 1 0); [|intros e; apply fa_keeps, keeps_throw].
  apply (fa_bind _ _ 0 1); [apply fa_keeps, keeps_liftR|]. intros id.
  apply (fa_bind _ _ 1 0); [apply fa_fetch|]. intros response. apply fa_keeps.
  destruct (negb (ok response)); [apply keeps_throw|].
  apply keeps_bind; [apply keeps_readJson|]. intros data.
  apply keeps_bind; [apply keeps_liftR|]. intros formats.
  destruct (negb (truthy formats) || _); [apply keeps_throw|].
  destruct formats; try apply keeps_throw.
  apply keeps_bind; [apply keeps_liftR|]. intros audio.
  destruct audio; [apply keeps_throw|].
  apply keeps_bind; [apply keeps_liftR|]. intros sorted.
  apply keeps_bind; [apply keeps_liftR|]. intros url.
  destruct (withHostname env url _); [apply keeps_ret|apply keeps_throw].
Qed.

Lemma fa_attempt env query results : fetchesAtMost 1 (attempt env query results).
Proof.
  unfold attempt. apply (fa_tryCatch _ _ 1 0); [|intros e; apply fa_keeps, keeps_ret].
  destruct (truthyStr query); [apply fa_searchJioSaavn|apply fa_keeps, keeps_ret].
Qed.

(** X13: resolving a track costs at most two requests to the providers,
    whichever provider is set and however the requests end. *)
Theorem resolution_fetches_at_most_two env track w :
  exists l,
    fetched (snd (getAudioUrlForTrack env track w)) = fetched w ++ l /\
    (length l <= 2)%nat.
Proof.
  revert w. change (fetchesAtMost 2 (getAudioUrlForTrack env track)).
  unfold getAudioUrlForTrack.
  destruct (decide (getSearchProvider env = str "jiosaavn")).
  - unfold getJioSaavnAudioUrl.
    assert (H : fetchesAtMost 2
              (results <~ attempt env (strictQuery track) [] ;;
               results <~ (match results with
                           | [] => attempt env (retryQuery track) results
                           | _ => ret results
                           end) ;;
               match results with
               | [] => throw (Error (str "Track not found on JioSaavn"))
               | first :: _ => ret (c_url first)
               end)).
    { apply (fa_bind _ _ 1 1); [apply fa_attempt|]. intros results.
      apply (fa_bind _ _ 1 0).
      - destruct results; [apply fa_attempt|apply fa_keeps, keeps_ret].
      - intros results'. apply fa_keeps.
        destruct results'; [apply keeps_throw|apply keeps_ret]. }
    destruct (t_url track) as [[|c u]|]; try exact H. apply fa_keeps, keeps_ret.
  - unfold getYouTubeAudioUrl.
    apply (fa_tryCatch _ _ 2 0); [|intros e; apply fa_keeps, keeps_throw].
    assert (H : fetchesAtMost 2
              (videoId <~ (if negb (truthyOpt (t_id track))
                              || negb (bool_decide (length (default [] (t_id track)) = 11%nat))
                           then
                             searchResults <~ searchYouTube env (youTubeQuery track) ;;
                             match searchResults with
                             | [] => throw (Error (str "No matching videos found on YouTube"))
                             | first :: _ => ret (c_id first)
                             end
                           else ret (VStr (default [] (t_id track)))) ;;
               audioUrl <~ getStreamUrl env videoId ;;
               ret (VStr audioUrl))).
    { apply (fa_bind _ _ 1 1).
      - destruct (negb (truthyOpt (t_id track)) || _); [|apply fa_keeps, keeps_ret].
        apply (fa_bind _ _ 1 0); [apply fa_searchYouTube|]. intros rs. apply fa_keeps.
        destruct rs; [apply keeps_throw|apply keeps_ret].
      - intros videoId. apply (fa_bind _ _ 1 0); [apply fa_getStreamUrl|].
        intros url. apply fa_keeps, keeps_ret. }
    destruct (t_url track) as [[|c u]|]; try exact H. apply fa_keeps, keeps_ret.
Qed.

Lemma element_elem l i : (i < length l)%nat -> element l i ∈ l.
Proof.
  intros H. destruct (lookup_lt_is_Some_2 l i H) as [v Hv].
  rewrite (element_lookup _ _ _ Hv). by eapply list_elem_of_lookup_2.
Qed.

Lemma selectStream_elem quality l : l <> [] -> selectStream quality l ∈ l.
Proof.
  intros H. assert (0 < length l)%nat by (destruct l; [done|simpl; lia]).
  unfold selectStream. repeat case_decide; apply element_elem; [lia|lia|].
  apply Nat.div_lt; lia.
Qed.

(** X14: in an engine whose sort is as ECMAScript asks, the sort loses and
    adds no stream, whatever the bitrates are, and the stream selected is
    one of the audio streams for every value of the quality setting, also
    one that is none of [high], [medium], [low]. *)
Theorem selected_stream_offered env audioStreams sorted :
  conforming (sort env) ->
  sortStreams env audioStreams = Ok sorted ->
  sorted ≡ₚ audioStreams /\
  forall quality, audioStreams <> [] -> selectStream quality sorted ∈ audioStreams.
Proof.
  intros [Hperm _] H. apply Hperm in H. split; [done|].
  intros quality Hne. rewrite <- H. apply selectStream_elem.
  intros ->. by apply Permutation_nil_l in H.
Qed.

(** X14 at three streams of which one has a bitrate that is no number, with
    a quality setting the code does not know. *)
Lemma selected_stream_offered_witness :
  selectStream (str "lossless") (map variant ["128"; "n/a"; "320"]%string)
    ∈ map variant ["128"; "n/a"; "320"]%string.
Proof.
  apply (proj2 (selected_stream_offered fourVariants
                  (map variant ["128"; "n/a"; "320"]%string)
                  (map variant ["128"; "n/a"; "320"]%string)
                  stableSort_conforming eq_refl)).
  discriminate.
Defined.

Lemma sortCompare_positive x y c :
  sortCompare x y = Ok c -> 0 < c ->
  exists kx ky, hasBitrate x kx /\ hasBitrate y ky /\ kx < ky.
Proof.
  unfold sortCompare, compareBitrate, hasBitrate. intros H Hc.
  destruct (bitrateOf x) as [vx|e]; simpl in H; [|done].
  destruct (bitrateOf y) as [vy|e]; simpl in H; [|done].
  injection H as <-.
  destruct vx, vy; simpl in Hc; try lia. eexists _, _. repeat split. lia.
Qed.

Lemma bitrateIs_hasBitrate k v kv : hasBitrate v kv -> bitrateIs k v = (kv =? k).
Proof. unfold hasBitrate, bitrateIs. by intros ->. Qed.

Lemma insertBy_stable k x l r :
  insertBy sortCompare x l = Ok r ->
  List.filter (bitrateIs k) r = List.filter (bitrateIs k) (x :: l).
Proof.
  revert r. induction l as [|y l IH]; intros r; simpl insertBy.
  - by intros [= <-].
  - destruct (sortCompare x y) as [c|e] eqn:E; simpl; [|done].
    destruct (c <=? 0) eqn:Ec; [by intros [= <-]|].
    destruct (insertBy sortCompare x l) as [r'|e]; simpl; [|done].
    intros [= <-]. apply Z.leb_gt in Ec.
    destruct (sortCompare_positive x y c E Ec) as (kx & ky & Hx & Hy & Hlt).
    specialize (IH r' eq_refl). simpl in *. rewrite IH.
    rewrite (bitrateIs_hasBitrate k x kx Hx), (bitrateIs_hasBitrate k y ky Hy).
    destruct (kx =? k) eqn:E1, (ky =? k) eqn:E2; try done.
    apply Z.eqb_eq in E1, E2. lia.
Qed.

(** X15: when every bitrate reads as a number, streams of one bitrate stay in
    the order in which the stream API lists them, in every engine whose sort
    is as ECMAScript asks. *)
Theorem sort_keeps_listed_order env audioStreams :
  conforming (sort env) ->
  Forall (fun v => exists k, hasBitrate v k) audioStreams ->
  exists sorted,
    sortStreams env audioStreams = Ok sorted /\
    forall k, List.filter (bitrateIs k) sorted = List.filter (bitrateIs k) audioStreams.
Proof.
  intros Hengine H.
  destruct (sortStreams_numeric env audioStreams Hengine H) as (sorted & Hs & _).
  exists sorted. split; [done|]. intros k.
  unfold sortStreams in Hs.
  rewrite (proj2 Hengine sortCompare audioStreams (numeric_consistent _ H)) in Hs.
  clear H. revert sorted Hs.
  induction audioStreams as [|x l IH]; intros sorted; simpl stableSort.
  - by intros [= <-].
  - destruct (stableSort sortCompare l) as [s|e]; simpl; [|done].
    intros Hs. rewrite (insertBy_stable k x s sorted Hs). simpl.
    by rewrite (IH s eq_refl).
Qed.

(** X15 at three streams of which two have no bitrate to speak of. *)
Lemma sort_keeps_listed_order_witness :
  exists sorted,
    sortStreams fourVariants [variantNoBitrate; variant "320"; variant "0"] = Ok sorted /\
    forall k, List.filter (bitrateIs k) sorted
              = List.filter (bitrateIs k) [variantNoBitrate; variant "320"; variant "0"].
Proof.
  apply sort_keeps_listed_order; [apply stableSort_conforming|].
  repeat constructor; eexists; reflexivity.
Defined.

Lemma mapR_Forall2 {A B} (f : A -> result B) l r :
  mapR f l = Ok r -> Forall2 (fun x y => f x = Ok y) l r.
Proof.
  revert r. induction l as [|x l IH]; intros r; simpl.
  - intros [= <-]. constructor.
  - destruct (f x) as [y|e] eqn:E; simpl; [|done].
    destruct (mapR f l) as [ys|e]; simpl; [|done].
    intros [= <-]. constructor; [done|by apply IH].
Qed.

Lemma filterR_elem {A} (p : A -> result bool) l r :
  filterR p l = Ok r -> forall x, x ∈ r -> x ∈ l /\ p x = Ok true.
Proof.
  revert r. induction l as [|y l IH]; intros r; simpl.
  - intros [= <-] x Hx. by apply elem_of_nil in Hx.
  - destruct (p y) as [b|e] eqn:E; simpl; [|done].
    destruct (filterR p l) as [ys|e]; simpl; [|done].
    intros [= <-] x Hx. destruct b.
    + apply elem_of_cons in Hx as [->|Hx]; [split; [left|done]|].
      destruct (IH ys eq_refl x Hx). split; [by right|done].
    + destruct (IH ys eq_refl x Hx). split; [by right|done].
Qed.

Lemma endsWith_app s p : endsWith (s ++ p) p = true.
Proof. unfold endsWith. rewrite rev_app_distr. apply startsWith_app. Qed.

Lemma youTubeCandidate_topic item c : youTubeCandidate item = Ok c -> topicCandidate c.
Proof.
  unfold youTubeCandidate, topicCandidate.
  destruct (get item "uploaderName") as [uploaderName|e]; cbv beta iota delta [bindR]; [|done].
  destruct (orElse uploaderName (VStr (str "Unknown"))) as [| |b|z| |uploader|l|kv|f]; try done.
  destruct (prop item "url") as [| |b|z| |url|l|kv|f]; try done.
  cbv zeta. destruct (endsWith uploader (str " - Topic")) eqn:E; simpl; intros [= <-]; simpl.
  - by exists uploader.
  - exists (uploader ++ str " - Topic"). by rewrite endsWith_app.
Qed.

(** X16: every candidate of [searchYouTube] has a channel that ends in
    [" - Topic"], has that channel as its one artist, has no direct URL and
    has one value as name and title. *)
Theorem searchYouTube_candidates env query w cs w' :
  searchYouTube env query w = (Ok cs, w') -> Forall topicCandidate cs.
Proof.
  cbv [searchYouTube tryCatch bind fetch readJson liftR ret throw].
  destruct (net env _ _) as [|response]; [done|].
  destruct (negb (ok response)); [done|].
  destruct (json response) as [data|]; [|done].
  destruct (get data "items") as [items|e]; [|done].
  destruct (negb (truthy items)); [by intros [= <- _]|].
  destruct items as [| | | | | |l| |]; try done.
  destruct (filterR isStream l) as [kept|e]; simpl; [|done].
  destruct (mapR youTubeCandidate kept) as [cs'|e] eqn:E; [|done].
  intros [= <- _]. apply mapR_Forall2 in E.
  induction E as [|item c kept' cs'' Hc _ IH]; constructor; [|done].
  by eapply youTubeCandidate_topic.
Qed.

(** X16 at a backend that lists two videos, one of a channel that is a topic
    channel already. *)
Lemma searchYouTube_candidates_witness :
  Forall topicCandidate (default [] (match fst (searchYouTube twoVideos (str "The Weeknd") start) with
                                     | Ok cs => Some cs
                                     | Throw _ => None
                                     end)).
Proof.
  apply (searchYouTube_candidates twoVideos (str "The Weeknd") start _
           (snd (searchYouTube twoVideos (str "The Weeknd") start))).
  reflexivity.
Defined.

Lemma jioSaavnCandidate_null env item w :
  nullish item = true -> jioSaavnCandidate env item w = (Throw TypeError, w).
Proof.
  intros H. unfold jioSaavnCandidate, bind, liftR, get. by rewrite H.
Qed.

Lemma mapM_null env items item w :
  item ∈ items -> nullish item = true ->
  exists e w', mapM (jioSaavnCandidate env) items w = (Throw e, w').
Proof.
  intros Hin Hn. revert w. induction Hin as [item items|item x items Hin IH]; intros w; simpl.
  - unfold bind at 1. rewrite (jioSaavnCandidate_null env item w Hn). by eexists _, _.
  - unfold bind at 1. destruct (jioSaavnCandidate env x w) as [[y|e] w1]; [|by eexists _, _].
    unfold bind at 1. destruct (IH Hn w1) as (e & w2 & ->). by eexists _, _.
Qed.

(** X17: one [null] among the results of the JioSaavn API makes the search
    return no candidate at all, whatever the other results are. *)
Theorem searchJioSaavn_null_item env query w response data items item :
  nextFetch env w (jioSaavnUrl query) = Fulfilled response ->
  ok response = true -> json response = Some data ->
  resultsOf data = Ok (VArr items) ->
  item ∈ items -> nullish item = true ->
  fst (searchJioSaavn env query w) = Ok [].
Proof.
  unfold nextFetch, jioSaavnUrl. intros Hf Hok Hj Hr Hin Hn.
  cbv [searchJioSaavn tryCatch bind fetch readJson liftR ret throw].
  rewrite Hf, Hok. change (negb true) with false. cbv iota.
  rewrite Hj, Hr. cbv iota beta.
  match goal with |- context [mapM _ items ?w1] =>
    destruct (mapM_null env items item w1 Hin Hn) as (e & w2 & ->) end.
  done.
Qed.

(** X17 at a provider that lists two songs with a [null] between them. *)
Lemma searchJioSaavn_null_item_witness :
  fst (searchJioSaavn nullAmongResults (str "The Weeknd") start) = Ok [].
Proof.
  eapply (searchJioSaavn_null_item nullAmongResults (str "The Weeknd") start _ _ _ VNull).
  - reflexivity.
  - reflexivity.
  - reflexivity.
  - reflexivity.
  - right. left.
  - reflexivity.
Defined.

Lemma filterR_none {A} (p : A -> result bool) l :
  Forall (fun x => p x = Ok false) l -> filterR p l = Ok [].
Proof.
  induction 1 as [|x l Hx _ IH]; simpl; [done|]. by rewrite Hx, IH.
Qed.

(** X18: how [getStreamUrl] fails once the stream API has answered: with
    the status in the message when the status is not a success, with
    [No adaptive formats found] when the formats are missing or empty, and
    with [No audio streams found] when no format is an audio format. *)
Theorem getStreamUrl_errors env videoId id w response :
  ToString videoId = Ok id ->
  nextFetch env w (streamUrl id) = Fulfilled response ->
  (ok response = false ->
   fst (getStreamUrl env videoId w)
   = Throw (Error (str "Stream API error: " ++ str (pretty (status response))))) /\
  (forall data formats,
     ok response = true -> json response = Some data ->
     get data "adaptiveFormats" = Ok formats ->
     truthy formats = false \/ formats = VArr [] ->
     fst (getStreamUrl env videoId w) = Throw (Error (str "No adaptive formats found"))) /\
  (forall data formats,
     ok response = true -> json response = Some data ->
     get data "adaptiveFormats" = Ok (VArr formats) -> formats <> [] ->
     Forall (fun format => isAudio format = Ok false) formats ->
     fst (getStreamUrl env videoId w) = Throw (Error (str "No audio streams found"))).
Proof.
  unfold nextFetch, streamUrl. intros Hid Hf.
  split; [|split].
  - intros Hok. cbv [getStreamUrl tryCatch bind fetch readJson liftR ret throw].
    rewrite Hid, Hf, Hok. reflexivity.
  - intros data formats Hok Hj Hg Hempty.
    cbv [getStreamUrl tryCatch bind fetch readJson liftR ret throw].
    rewrite Hid, Hf, Hok. change (negb true) with false. cbv iota.
    rewrite Hj, Hg. destruct Hempty as [->| ->]; reflexivity.
  - intros data formats Hok Hj Hg Hne Hnone.
    cbv [getStreamUrl tryCatch bind fetch readJson liftR ret throw].
    rewrite Hid, Hf, Hok. change (negb true) with false. cbv iota.
    rewrite Hj, Hg. rewrite (filterR_none _ _ Hnone).
    destruct formats as [|format formats]; [done|]. reflexivity.
Qed.

(** X18 at a stream API that is down, one that has no formats and one that
    has video formats only. *)
Lemma getStreamUrl_errors_witness :
  fst (getStreamUrl unavailable (VStr (str "4NRXx6U8ABQ")) start)
    = Throw (Error (str "Stream API error: 503")) /\
  fst (getStreamUrl noFormats (VStr (str "4NRXx6U8ABQ")) start)
    = Throw (Error (str "No adaptive formats found")) /\
  fst (getStreamUrl videoOnly (VStr (str "4NRXx6U8ABQ")) start)
    = Throw (Error (str "No audio streams found")).
Proof.
  split; [|split].
  - apply (proj1 (getStreamUrl_errors unavailable (VStr (str "4NRXx6U8ABQ"))
                    (str "4NRXx6U8ABQ") start _ eq_refl eq_refl)).
    reflexivity.
  - eapply (proj1 (proj2 (getStreamUrl_errors noFormats (VStr (str "4NRXx6U8ABQ"))
                           (str "4NRXx6U8ABQ") start _ eq_refl eq_refl))
             _ (VArr [])); try reflexivity. by right.
  - eapply (proj2 (proj2 (getStreamUrl_errors videoOnly (VStr (str "4NRXx6U8ABQ"))
                            (str "4NRXx6U8ABQ") start _ eq_refl eq_refl))).
    + reflexivity.
    + reflexivity.
    + reflexivity.
    + discriminate.
    + repeat constructor.
Defined.

(** X19: a URL that [getStreamUrl] returns is the URL of one of the audio
    formats the stream API listed for that video, with the host name
    replaced by [yt.omada.cafe]: the sort, which leaves a permutation, loses
    and adds no stream. *)
Theorem getStreamUrl_sound env videoId w url w' :
  conforming (sort env) ->
  getStreamUrl env videoId w = (Ok url, w') ->
  exists id response data formats stream original,
    ToString videoId = Ok id /\
    nextFetch env w (streamUrl id) = Fulfilled response /\
    ok response = true /\ json response = Some data /\
    prop data "adaptiveFormats" = VArr formats /\
    stream ∈ formats /\ isAudio stream = Ok true /\
    (u <- get stream "url" ;; ToString u) = Ok original /\
    withHostname env original (str "yt.omada.cafe") = Some url.
Proof.
  intros [Hperm _]. unfold nextFetch, streamUrl.
  cbv [getStreamUrl tryCatch bind fetch readJson liftR ret throw].
  destruct (ToString videoId) as [id|e]; [|done].
  destruct (net env _ _) as [|response] eqn:Hf; [done|].
  destruct (ok response) eqn:Hok; [|done]. change (negb true) with false. cbv iota.
  destruct (json response) as [data|] eqn:Hj; [|done].
  destruct (get data "adaptiveFormats") as [adaptiveFormats|e] eqn:Hg; [|done].
  destruct (negb (truthy adaptiveFormats) || _); [done|].
  destruct adaptiveFormats as [| |b|z| |s|formats|kv|f]; try done.
  destruct (filterR isAudio formats) as [audioStreams|e] eqn:Ha; [|done].
  destruct audioStreams as [|first rest]; [done|].
  destruct (sortStreams env (first :: rest)) as [sorted|e] eqn:Hs; [|done].
  destruct (u <- get (selectStream (getAudioQuality env) sorted) "url" ;; ToString u)
    as [original|e] eqn:Hu; [|done].
  destruct (withHostname env original (str "yt.omada.cafe")) as [u|] eqn:Hw; [|done].
  intros [= <- _].
  assert (Hsel : selectStream (getAudioQuality env) sorted ∈ first :: rest).
  { apply Hperm in Hs. rewrite <- Hs. apply selectStream_elem.
    intros ->. by apply Permutation_nil_l in Hs. }
  destruct (filterR_elem _ _ _ Ha _ Hsel) as [Hin Haudio].
  exists id, response, data, formats, (selectStream (getAudioQuality env) sorted), original.
  repeat split; try done.
  unfold get in Hg. destruct (nullish data); [done|]. by injection Hg.
Qed.

(** X19 at a stream API that offers a video format and four audio formats. *)
Lemma getStreamUrl_sound_witness :
  exists id response data formats stream original,
    ToString (VStr (str "4NRXx6U8ABQ")) = Ok id /\
    nextFetch fourVariants start (streamUrl id) = Fulfilled response /\
    ok response = true /\ json response = Some data /\
    prop data "adaptiveFormats" = VArr formats /\
    stream ∈ formats /\ isAudio stream = Ok true /\
    (u <- get stream "url" ;; ToString u) = Ok original /\
    withHostname fourVariants original (str "yt.omada.cafe")
      = Some (str "https://yt.omada.cafe/videoplayback?id=320").
Proof.
  apply (getStreamUrl_sound fourVariants (VStr (str "4NRXx6U8ABQ")) start _
           (snd (getStreamUrl fourVariants (VStr (str "4NRXx6U8ABQ")) start))
           stableSort_conforming).
  reflexivity.
Defined.

(** [getStreamUrl] fetches exactly the URL of the video at the stream API. *)
Lemma getStreamUrl_fetched env videoId id w :
  ToString videoId = Ok id ->
  fetched (snd (getStreamUrl env videoId w)) = fetched w ++ [streamUrl id].
Proof.
  intros Hid. unfold getStreamUrl, tryCatch, streamUrl.
  unfold bind at 1. unfold liftR at 1. rewrite Hid.
  match goal with |- context [bind (fetch env ?u) ?k] =>
    assert (Hk : forall r, keepsFetched (k r));
    [|pose proof (fetch_then env u k w Hk) as Hf;
      destruct (bind (fetch env u) k w) as [[cs|e] w']; exact Hf] end.
  intros response. cbv beta.
  destruct (negb (ok response)); [apply keeps_throw|].
  apply keeps_bind; [apply keeps_readJson|]. intros data.
  apply keeps_bind; [apply keeps_liftR|]. intros formats.
  destruct (negb (truthy formats) || _); [apply keeps_throw|].
  destruct formats; try apply keeps_throw.
  apply keeps_bind; [apply keeps_liftR|]. intros audio.
  destruct audio; [apply keeps_throw|].
  apply keeps_bind; [apply keeps_liftR|]. intros sorted.
  apply keeps_bind; [apply keeps_liftR|]. intros url.
  destruct (withHostname env url _); [apply keeps_ret|apply keeps_throw].
Qed.

(** X20: an id of 11 characters is taken for a video id: nothing is
    searched, the one request goes to the stream API for that id, and what
    [getStreamUrl] returns or throws for it is the outcome. *)
Theorem youTube_id_trusted env track id w :
  truthyOpt (t_url track) = false ->
  t_id track = Some id -> length id = 11%nat ->
  fst (getYouTubeAudioUrl env track w) = mapResult VStr (fst (getStreamUrl env (VStr id) w)) /\
  fetched (snd (getYouTubeAudioUrl env track w)) = fetched w ++ [streamUrl id].
Proof.
  intros Hu Hid Hlen. pose proof (getStreamUrl_fetched env (VStr id) id w eq_refl) as Hf.
  unfold getYouTubeAudioUrl. rewrite Hid. simpl default. rewrite Hlen.
  assert (Ht : truthyOpt (Some id) = true) by (by destruct id).
  rewrite Ht. simpl orb. cbv iota.
  cbv [tryCatch bind ret throw].
  destruct (t_url track) as [[|c s]|]; try discriminate Hu;
    by destruct (getStreamUrl env (VStr id) w) as [[u|e] w1].
Qed.

(** X20 at the track with the id of its video. *)
Lemma youTube_id_trusted_witness :
  fst (getYouTubeAudioUrl fourVariants blindingLightsVideo start)
    = Ok (VStr (str "https://yt.omada.cafe/videoplayback?id=320")) /\
  fetched (snd (getYouTubeAudioUrl fourVariants blindingLightsVideo start))
    = [str "https://yt.omada.cafe/api/v1/videos/4NRXx6U8ABQ"].
Proof.
  apply (youTube_id_trusted fourVariants blindingLightsVideo (str "4NRXx6U8ABQ") start);
    reflexivity.
Defined.

(** X21: with the YouTube provider there is one search and no retry: when
    it finds nothing the resolver throws [No matching videos found on
    YouTube], when it throws the resolver throws the same, and in both cases
    the search request is the only one made. *)
Theorem youTube_single_search env track w :
  truthyOpt (t_url track) = false ->
  truthyOpt (t_id track) = false \/ length (default [] (t_id track)) <> 11%nat ->
  (fst (searchYouTube env (youTubeQuery track) w) = Ok [] ->
   fst (getYouTubeAudioUrl env track w)
     = Throw (Error (str "No matching videos found on YouTube")) /\
   fetched (snd (getYouTubeAudioUrl env track w))
     = fetched w ++ [youTubeUrl env (youTubeQuery track)]) /\
  (forall e,
     fst (searchYouTube env (youTubeQuery track) w) = Throw e ->
     fst (getYouTubeAudioUrl env track w) = Throw e /\
     fetched (snd (getYouTubeAudioUrl env track w))
       = fetched w ++ [youTubeUrl env (youTubeQuery track)]).
Proof.
  intros Hu Hid. pose proof (searchYouTube_fetched env (youTubeQuery track) w) as Hf.
  assert (Hc : negb (truthyOpt (t_id track))
               || negb (bool_decide (length (default [] (t_id track)) = 11%nat)) = true).
  { destruct Hid as [->|Hne]; [done|]. rewrite (bool_decide_eq_false_2 _ Hne).
    apply orb_true_r. }
  unfold getYouTubeAudioUrl. rewrite Hc. cbv [tryCatch bind ret throw].
  destruct (t_url track) as [[|c s]|]; try discriminate Hu;
    (destruct (searchYouTube env (youTubeQuery track) w) as [[cs|e'] w1];
     cbn [fst snd] in Hf |- *;
     (split; [intros H|intros e H]); try discriminate H; injection H as ->; done).
Qed.

(** X21 at a backend that finds nothing and at one that is down, for a track
    whose id is no video id. *)
Lemma youTube_single_search_witness :
  (fst (getYouTubeAudioUrl noItems blindingLightsTrack start)
     = Throw (Error (str "No matching videos found on YouTube")) /\
   fetched (snd (getYouTubeAudioUrl noItems blindingLightsTrack start))
     = fetched start ++ [youTubeUrl noItems (youTubeQuery blindingLightsTrack)]) /\
  (fst (getYouTubeAudioUrl unavailable blindingLightsTrack start)
     = Throw (Error (str "Search API error: 503")) /\
   fetched (snd (getYouTubeAudioUrl unavailable blindingLightsTrack start))
     = fetched start ++ [youTubeUrl unavailable (youTubeQuery blindingLightsTrack)]).
Proof.
  assert (Hn : length (default [] (t_id blindingLightsTrack)) <> 11%nat) by discriminate.
  split.
  - apply (proj1 (youTube_single_search noItems blindingLightsTrack start eq_refl
                    (or_intror Hn))).
    reflexivity.
  - apply (proj2 (youTube_single_search unavailable blindingLightsTrack start eq_refl
                    (or_intror Hn))).
    reflexivity.
Defined.

Lemma dropWhile_app_keep {A} (p : A -> bool) a d q :
  p d = false -> exists a', dropWhile p (a ++ d :: q) = a' ++ d :: q.
Proof.
  intros Hd. induction a as [|x a IH]; simpl.
  - exists []. by rewrite Hd.
  - destruct (p x); [done|]. by exists (x :: a).
Qed.

(** Trimming keeps what stands in front when that starts and ends with
    characters that are not white space. *)
Lemma trim_keeps_prefix c mid d rest :
  isWhiteSpace c = false -> isWhiteSpace d = false ->
  startsWith (trim ((c :: mid ++ [d]) ++ rest)) (c :: mid ++ [d]) = true.
Proof.
  intros Hc Hd. unfold trim, trimStart, trimEnd.
  replace (dropWhile isWhiteSpace ((c :: mid ++ [d]) ++ rest))
    with ((c :: mid ++ [d]) ++ rest) by (simpl; by rewrite Hc).
  rewrite rev_app_distr.
  assert (Hr : rev (c :: mid ++ [d]) = d :: rev (c :: mid)).
  { change (c :: mid ++ [d]) with ((c :: mid) ++ [d]). by rewrite rev_app_distr. }
  rewrite Hr.
  destruct (dropWhile_app_keep isWhiteSpace (rev rest) d (rev (c :: mid)) Hd) as [a' ->].
  rewrite rev_app_distr, <- Hr, rev_involutive. apply startsWith_app.
Qed.

(** X22: for a track that has no name and no title the first JioSaavn query
    starts with the word [undefined], the retry query is empty, and so that
    one search is the only request. *)
Theorem nameless_track_query env track w :
  truthyOpt (t_name track) = false -> t_title track = None ->
  startsWith (strictQuery track) (str "undefined") = true /\
  retryQuery track = [] /\
  (truthyOpt (t_url track) = false ->
   fetched (snd (getJioSaavnAudioUrl env track w))
     = fetched w ++ [jioSaavnUrl (strictQuery track)]).
Proof.
  intros Hname Htitle.
  assert (Hs : startsWith (strictQuery track) (str "undefined") = true).
  { unfold strictQuery, orOpt. rewrite Hname, Htitle.
    apply (trim_keeps_prefix "u" (str "ndefine") "d"); reflexivity. }
  assert (Hr : retryQuery track = []).
  { unfold retryQuery, orOpt. rewrite Hname, Htitle. reflexivity. }
  split; [done|]. split; [done|]. intros Hu.
  rewrite (getJioSaavnAudioUrl_attempts env track w Hu).
  unfold bind at 1. rewrite attempt_search.
  assert (Ht : truthyStr (strictQuery track) = true).
  { destruct (strictQuery track); [discriminate Hs|done]. }
  rewrite Ht.
  destruct (searchJioSaavn_returns env (strictQuery track) w) as (cs & w1 & -> & Hf).
  destruct cs as [|first cs]; cbv [bind ret throw]; [|done].
  rewrite attempt_search, Hr. done.
Qed.

(** X22 at a track that has an artist only. *)
Lemma nameless_track_query_witness :
  startsWith (strictQuery namelessTrack) (str "undefined") = true /\
  retryQuery namelessTrack = [] /\
  fetched (snd (getJioSaavnAudioUrl starboyFirst namelessTrack start))
    = [jioSaavnUrl (str "undefined The Weeknd")].
Proof.
  destruct (nameless_track_query starboyFirst namelessTrack start eq_refl eq_refl)
    as (H1 & H2 & H3).
  split; [exact H1|]. split; [exact H2|]. exact (H3 eq_refl).
Defined.

End ServiceMore.

(** ** The class [JioSaavn] and its endpoints *)

Section JioSaavnMore.

Import JioSaavn.

Lemma mapR_Forall {A B} (f : A -> result B) (P : B -> Prop) l r :
  (forall x y, f x = Ok y -> P y) -> mapR f l = Ok r -> Forall P r.
Proof.
  intros Hf. revert r. induction l as [|x l IH]; intros r; simpl.
  - intros [= <-]. constructor.
  - destruct (f x) as [y|e] eqn:E; simpl; [|done].
    destruct (mapR f l) as [ys|e]; simpl; [|done].
    intros [= <-]. constructor; [by eapply Hf|by apply IH].
Qed.

Lemma mapR_length {A B} (f : A -> result B) l r :
  mapR f l = Ok r -> length r = length l.
Proof.
  revert r. induction l as [|x l IH]; intros r; simpl.
  - by intros [= <-].
  - destruct (f x) as [y|e]; simpl; [|done].
    destruct (mapR f l) as [ys|e]; simpl; [|done].
    intros [= <-]. simpl. by rewrite (IH ys).
Qed.

Lemma orElse_filled a : filled (orElse a (VStr [])).
Proof. unfold orElse, filled. destruct (truthy a) eqn:E; auto. Qed.

Lemma parseIntStr_numeric s : numeric (parseIntStr s).
Proof.
  unfold parseIntStr, numeric. repeat case_match; eauto.
Qed.

Lemma parseArtists_filled v l :
  _parseArtists v = Ok l -> Forall (fun a => filled (a_name a) /\ filled (a_id a)) l.
Proof.
  destruct v as [| |b|z| |s|vs|kv|f]; simpl; try (intros [= <-]; constructor).
  apply mapR_Forall. intros artist a.
  destruct artist as [| |b|z| |s|vs'|kv|f]; simpl; try done;
    intros [= <-]; simpl; (split; try apply orElse_filled).
  - destruct s; [by right|by left].
  - by right.
Qed.

(** X23: [_createSongPayload] throws for [null], and a payload it returns
    has no hole: name, album, download URL and image are truthy or the empty
    string, the duration is a number or [NaN], and every artist has a name
    and an id that are truthy or the empty string. *)
Theorem createSongPayload_shape rawSong :
  (nullish rawSong = true -> _createSongPayload rawSong = Throw TypeError) /\
  (forall p, _createSongPayload rawSong = Ok p -> wellFormed p).
Proof.
  split.
  - intros H. unfold _createSongPayload, get. by rewrite H.
  - intros p. unfold _createSongPayload, parseInt, mapResult.
    destruct (get rawSong "id") as [id|e]; simpl; [|done].
    destruct (ToString _) as [d|e]; simpl; [|done].
    destruct (_parseArtists (orElse (orElse _ _) _)) as [primary|e] eqn:Ep; simpl; [|done].
    destruct (_parseArtists (orElse (prop rawSong "all_artists") _)) as [all|e] eqn:Ea;
      simpl; [|done].
    intros [= <-]. unfold wellFormed. simpl.
    repeat split; try apply orElse_filled.
    + apply parseIntStr_numeric.
    + apply Forall_app. split; by eapply parseArtists_filled.
Qed.

(** X23 at a song of the API and at [null]. *)
Lemma createSongPayload_shape_witness :
  _createSongPayload VNull = Throw TypeError /\
  wellFormed (payloadOf "s2" "Blinding Lights" ["The Weeknd"]).
Proof.
  split.
  - apply (proj1 (createSongPayload_shape VNull)). reflexivity.
  - apply (proj2 (createSongPayload_shape (rawSong "s2" "Blinding Lights" ["The Weeknd"]))).
    reflexivity.
Defined.

Lemma normalize_str s : normalize (VStr s) = Ok (Server.normalize s).
Proof. by destruct s. Qed.

Lemma overlap_str a b : overlap (VStr a) (VStr b) = Ok (Server.namesOverlap a b).
Proof. unfold overlap. by rewrite !normalize_str. Qed.

Lemma someOverlap_str artist names :
  someOverlap (VStr artist) (map VStr names)
  = Ok (existsb (Server.namesOverlap artist) names).
Proof.
  induction names as [|a names IH]; [done|].
  cbn [map someOverlap existsb]. rewrite overlap_str. cbv [bindR].
  by destruct (Server.namesOverlap artist a).
Qed.

Lemma allArtists_typed p s : typedAs p s -> allArtists p = map VStr (Server.allArtists s).
Proof.
  intros (_ & Hp & Ha). unfold allArtists, Server.allArtists.
  by rewrite !map_app, Hp, Ha, !map_map.
Qed.

Lemma matchingLoop_typed ps ss title artist :
  Forall2 typedAs ps ss ->
  (matchingLoop ps title artist = Ok None /\ Server.matchingLoop ss title artist = None) \/
  (exists i p s,
     ps !! i = Some p /\ ss !! i = Some s /\
     matchingLoop ps title artist = Ok (Some p) /\
     Server.matchingLoop ss title artist = Some s).
Proof.
  induction 1 as [|p s ps ss Hps _ IH]; [by left|].
  cbn [matchingLoop Server.matchingLoop].
  rewrite (allArtists_typed p s Hps), someOverlap_str.
  destruct Hps as (Hn & _). rewrite Hn, overlap_str. cbv [bindR].
  unfold Server.titleMatches, Server.artistMatches.
  destruct (Server.namesOverlap title (Server.song_name s)
            && (existsb (Server.namesOverlap artist) (Server.allArtists s)
                || negb (truthyStr artist))).
  - right. by exists 0%nat, p, s.
  - destruct IH as [IH|(i & p' & s' & Hp & Hs & IH)]; [by left|].
    right. by exists (S i), p', s'.
Qed.

Lemma findTitle_typed ps ss title :
  Forall2 typedAs ps ss ->
  (findTitle ps title = Ok None /\ find (Server.titleMatches title) ss = None) \/
  (exists i p s,
     ps !! i = Some p /\ ss !! i = Some s /\
     findTitle ps title = Ok (Some p) /\
     find (Server.titleMatches title) ss = Some s).
Proof.
  induction 1 as [|p s ps ss Hps _ IH]; [by left|].
  cbn [findTitle find]. destruct Hps as (Hn & _). rewrite Hn, overlap_str. cbv [bindR].
  change (Server.titleMatches title s)
    with (Server.namesOverlap title (Server.song_name s)).
  destruct (Server.namesOverlap title (Server.song_name s)).
  - right. by exists 0%nat, p, s.
  - destruct IH as [IH|(i & p' & s' & Hp & Hs & IH)]; [by left|].
    right. by exists (S i), p', s'.
Qed.

(** X24: on payloads whose names are strings the method of the class
    selects the payload at the position at which the matcher on strings
    selects its song, and it does not throw. *)
Theorem findMatchingTrack_typed ps ss title artist :
  Forall2 typedAs ps ss ->
  exists i,
    _findMatchingTrack ps title artist = Ok (ps !! i) /\
    Server._findMatchingTrack ss title artist = ss !! i.
Proof.
  intros H. unfold _findMatchingTrack, Server._findMatchingTrack.
  destruct (matchingLoop_typed ps ss title artist H)
    as [[-> ->]|(i & p & s & Hp & Hs & -> & ->)].
  - cbv [bindR].
    destruct (findTitle_typed ps ss title H) as [[-> ->]|(i & p & s & Hp & Hs & -> & ->)].
    + exists 0%nat. by rewrite !head_lookup.
    + exists i. by rewrite Hp, Hs.
  - exists i. by rewrite Hp, Hs.
Qed.

(** X24 at two payloads of which the second has the title asked for. *)
Lemma findMatchingTrack_typed_witness :
  exists i,
    _findMatchingTrack
      [payloadOf "s1" "Starboy" ["The Weeknd"];
       payloadOf "s2" "Blinding Lights" ["The Weeknd"]]
      (str "Blinding Lights") (str "The Weeknd")
    = Ok ([payloadOf "s1" "Starboy" ["The Weeknd"];
           payloadOf "s2" "Blinding Lights" ["The Weeknd"]] !! i) /\
    Server._findMatchingTrack
      [song "Starboy" ["The Weeknd"]; song "Blinding Lights" ["The Weeknd"]]
      (str "Blinding Lights") (str "The Weeknd")
    = [song "Starboy" ["The Weeknd"]; song "Blinding Lights" ["The Weeknd"]] !! i.
Proof.
  apply findMatchingTrack_typed. repeat constructor.
Defined.

Lemma matchingLoop_member ps title artist t :
  matchingLoop ps title artist = Ok (Some t) -> t ∈ ps.
Proof.
  induction ps as [|p ps IH]; simpl; [done|].
  destruct (someOverlap _ _) as [a|e]; simpl; [|done].
  destruct (overlap _ _) as [b|e]; simpl; [|done].
  destruct (b && _).
  - intros [= <-]. left.
  - intros H. right. by apply IH.
Qed.

Lemma findTitle_member ps title t : findTitle ps title = Ok (Some t) -> t ∈ ps.
Proof.
  induction ps as [|p ps IH]; simpl; [done|].
  destruct (overlap _ _) as [b|e]; simpl; [|done].
  destruct b.
  - intros [= <-]. left.
  - intros H. right. by apply IH.
Qed.

Lemma findMatchingTrack_result ps title artist m :
  _findMatchingTrack ps title artist = Ok m ->
  match m with
  | Some t => t ∈ ps
  | None => ps = []
  end.
Proof.
  unfold _findMatchingTrack.
  destruct (matchingLoop ps title artist) as [[t|]|e] eqn:El; simpl; [| |done].
  - intros [= <-]. by eapply matchingLoop_member.
  - destruct (findTitle ps title) as [[t|]|e] eqn:Ef; simpl; [| |done].
    + intros [= <-]. by eapply findTitle_member.
    + intros [= <-]. destruct ps as [|p ps]; [done|]. left.
Qed.

Lemma ToString_throws v : forall e, ToString v = Throw e -> e = TypeError.
Proof.
  revert v. fix IH 1. intros [| |b|z| |s|l|kv|f] e; simpl; try done.
  - revert e.
    match goal with |- forall e, ?J l = Throw e -> _ => set (join := J) end.
    assert (Hjoin : forall x l,
              join (x :: l)
              = (s <- (if nullish x then Ok [] else ToString x) ;;
                 match l with
                 | [] => Ok s
                 | _ => r <- join l ;; Ok (s ++ str "," ++ r)
                 end)) by reflexivity.
    assert (Hnil : join [] = Ok []) by reflexivity.
    clearbody join.
    induction l as [|x l IHl]; intros e; rewrite ?Hjoin.
    + by rewrite Hnil.
    + destruct (nullish x) eqn:En.
      * cbv [bindR]. destruct l as [|y l]; [done|].
        destruct (join (y :: l)) as [r|e2]; [done|]. intros [= <-]. by apply IHl.
      * destruct (ToString x) as [sx|e'] eqn:Ex; cbv [bindR].
        -- destruct l as [|y l]; [done|].
           destruct (join (y :: l)) as [r|e2]; [done|]. intros [= <-]. by apply IHl.
        -- intros [= <-]. by apply (IH x).
  - destruct (lookupKey "toString" kv); [by intros [= <-]|done].
Qed.

Lemma mapR_throws {A B} (f : A -> result B) l e :
  (forall x e, f x = Throw e -> e = TypeError) -> mapR f l = Throw e -> e = TypeError.
Proof.
  intros Hf. induction l as [|x l IH]; simpl; [done|].
  destruct (f x) as [y|e'] eqn:E; simpl; [|intros [= <-]; by eapply Hf].
  destruct (mapR f l) as [ys|e']; simpl; [done|]. intros [= <-]. by apply IH.
Qed.

Lemma get_throws v k e : get v k = Throw e -> e = TypeError.
Proof. unfold get. destruct (nullish v); [by intros [= <-]|done]. Qed.

Lemma parseArtists_throws v e : _parseArtists v = Throw e -> e = TypeError.
Proof.
  destruct v as [| |b|z| |s|vs|kv|f]; simpl; try done.
  apply mapR_throws. intros artist e'.
  destruct artist as [| |b|z| |s|vs'|kv|f]; simpl; try done; by intros [= <-].
Qed.

Lemma createSongPayload_throws rawSong e :
  _createSongPayload rawSong = Throw e -> e = TypeError.
Proof.
  unfold _createSongPayload, parseInt, mapResult.
  destruct (get rawSong "id") as [id|e1] eqn:E1; cbv [bindR];
    [|intros [= <-]; by eapply get_throws].
  destruct (ToString _) as [d|e2] eqn:E2; [|intros [= <-]; by eapply ToString_throws].
  destruct (_parseArtists (orElse (orElse _ _) _)) as [primary|e3] eqn:E3;
    [|intros [= <-]; by eapply parseArtists_throws].
  destruct (_parseArtists (orElse (prop rawSong "all_artists") _)) as [all|e4] eqn:E4;
    [done|intros [= <-]; by eapply parseArtists_throws].
Qed.

Lemma normalize_throws v e : normalize v = Throw e -> e = TypeError.
Proof.
  unfold normalize, toStringOf. destruct (nullish _); cbv [bindR]; [by intros [= <-]|].
  destruct (ToString _) as [s|e'] eqn:E; [done|]. intros [= <-]. by eapply ToString_throws.
Qed.

Lemma overlap_throws a b e : overlap a b = Throw e -> e = TypeError.
Proof.
  unfold overlap.
  destruct (normalize a) as [na|e1] eqn:E1; cbv [bindR];
    [|intros [= <-]; by eapply normalize_throws].
  destruct (normalize b) as [nb|e2] eqn:E2; [done|intros [= <-]; by eapply normalize_throws].
Qed.

Lemma someOverlap_throws artist l e : someOverlap artist l = Throw e -> e = TypeError.
Proof.
  induction l as [|a l IH]; simpl; [done|].
  destruct (overlap artist a) as [b|e1] eqn:E1; cbv [bindR];
    [|intros [= <-]; by eapply overlap_throws].
  by destruct b.
Qed.

Lemma matchingLoop_throws ps title artist e :
  matchingLoop ps title artist = Throw e -> e = TypeError.
Proof.
  induction ps as [|p ps IH]; simpl; [done|].
  destruct (someOverlap _ _) as [a|e1] eqn:E1; cbv [bindR];
    [|intros [= <-]; by eapply someOverlap_throws].
  destruct (overlap _ _) as [b|e2] eqn:E2; [|intros [= <-]; by eapply overlap_throws].
  by destruct (b && _).
Qed.

Lemma findTitle_throws ps title e : findTitle ps title = Throw e -> e = TypeError.
Proof.
  induction ps as [|p ps IH]; simpl; [done|].
  destruct (overlap _ _) as [b|e2] eqn:E2; cbv [bindR];
    [|intros [= <-]; by eapply overlap_throws].
  by destruct b.
Qed.

Lemma findMatchingTrack_throws ps title artist e :
  _findMatchingTrack ps title artist = Throw e -> e = TypeError.
Proof.
  unfold _findMatchingTrack.
  destruct (matchingLoop ps title artist) as [[t|]|e1] eqn:E1; cbv [bindR];
    [done| |intros [= <-]; by eapply matchingLoop_throws].
  destruct (findTitle ps title) as [[t|]|e2] eqn:E2;
    [done|done|intros [= <-]; by eapply findTitle_throws].
Qed.

Lemma buildSearchURL_default query : exists url, _buildSearchURL query VUndef = Ok url.
Proof. eexists. reflexivity. Qed.

(** X25: a track that [search] returns is the payload of one of the songs
    the API listed under [results]; and [search] fails in four ways only:
    the fetch is rejected, the body is not JSON, a [TypeError], or
    [No results found].  It never throws [No matching track found]. *)
Theorem search_outcome net title artist :
  match search net title artist with
  | Ok track =>
      exists url response data rawSongs processedResults,
        net url = Service.Fulfilled response /\
        Service.json response = Some data /\
        prop data "results" = VArr rawSongs /\
        mapR _createSongPayload rawSongs = Ok processedResults /\
        track ∈ processedResults
  | Throw e =>
      e = NetworkError \/ e = SyntaxError \/ e = TypeError \/
      e = Error (str "No results found")
  end.
Proof.
  unfold search, fetchJson.
  destruct (buildSearchURL_default (title ++ str " " ++ artist)) as [url ->].
  cbv [bindR].
  destruct (net url) as [|response] eqn:Hn; [by left|].
  destruct (Service.json response) as [data|] eqn:Hj; [|by right; left].
  unfold get. destruct (nullish data); [by right; right; left|].
  unfold orElse. destruct (truthy (prop data "results")) eqn:Ht; [|by right; right; right].
  destruct (prop data "results") as [| |b|z| |s|l|kv|f] eqn:Hr; try discriminate Ht.
  - right; right; left. by destruct b.
  - right; right; left. by destruct z.
  - repeat case_match; simplify_eq; auto.
  - destruct l as [|rawSong l]; [by right; right; right|].
    change (prop (VArr (rawSong :: l)) "length")
      with (VNum (Z.of_nat (length (rawSong :: l)))).
    simpl Z.of_nat. cbv iota.
    destruct (mapR _createSongPayload (rawSong :: l)) as [ps|e] eqn:Hm.
    + destruct (_findMatchingTrack ps title artist) as [[t|]|e] eqn:Hf.
      * apply findMatchingTrack_result in Hf.
        by exists url, response, data, (rawSong :: l), ps.
      * apply findMatchingTrack_result in Hf. subst ps.
        apply mapR_length in Hm. discriminate Hm.
      * right; right; left. by eapply findMatchingTrack_throws.
    + right; right; left. eapply mapR_throws; [|exact Hm].
      intros x e'. apply createSongPayload_throws.
  - repeat case_match; simplify_eq; auto.
  - repeat case_match; simplify_eq; auto.
Qed.

(** X26: the two JioSaavn endpoints answer 400 exactly when the title or the
    query is missing or empty.  When the API lists no result, whatever its
    status is, [/jiosaavn/search] answers 500 with [No results found] and
    [/jiosaavn/search/all] answers 200 with no result. *)
Theorem jiosaavn_endpoints net :
  (forall req,
     Endpoints.statusCode (Endpoints.jiosaavnSearch net req) = 400
     <-> Service.truthyOpt (Endpoints.query_title req) = false) /\
  (forall req,
     Endpoints.statusCode (Endpoints.jiosaavnSearchAll net req) = 400
     <-> Service.truthyOpt (Endpoints.query_q req) = false) /\
  (forall response data,
     (forall url, net url = Service.Fulfilled response) ->
     Service.json response = Some data -> nullish data = false ->
     truthy (prop data "results") = false \/ prop data "results" = VArr [] ->
     (forall req,
        Service.truthyOpt (Endpoints.query_title req) = true ->
        Endpoints.jiosaavnSearch net req
        = {| Endpoints.statusCode := 500;
             Endpoints.body := Endpoints.ErrorMessage (Error (str "No results found")) |}) /\
     (forall req,
        Service.truthyOpt (Endpoints.query_q req) = true ->
        Endpoints.jiosaavnSearchAll net req
        = {| Endpoints.statusCode := 200; Endpoints.body := Endpoints.Result [] |})).
Proof.
  split; [|split].
  - intros req. unfold Endpoints.jiosaavnSearch.
    destruct (Endpoints.query_title req) as [[|c title]|]; try done.
    unfold Service.truthyOpt, truthyStr, from_option.
    by destruct (search net (c :: title) _).
  - intros req. unfold Endpoints.jiosaavnSearchAll.
    destruct (Endpoints.query_q req) as [[|c q]|]; try done.
    unfold Service.truthyOpt, truthyStr, from_option.
    by destruct (bindR _ _).
  - intros response data Hnet Hj Hd Hempty.
    assert (Hr : prop (orElse (prop data "results") (VArr [])) "length" = VNum 0).
    { unfold orElse. destruct Hempty as [->| ->]; reflexivity. }
    split.
    + intros [[[|c title]|] artist] Ht; try discriminate Ht.
      unfold Endpoints.jiosaavnSearch. cbn [Endpoints.query_title Endpoints.query_artist].
      unfold search, fetchJson.
      destruct (_buildSearchURL _ VUndef) as [url|e] eqn:Hu; [|discriminate Hu].
      cbv [bindR]. rewrite Hnet, Hj. unfold get. rewrite Hd, Hr. reflexivity.
    + intros [[[|c q]|] limit] Ht; try discriminate Ht.
      unfold Endpoints.jiosaavnSearchAll. cbn [Endpoints.query_q Endpoints.query_limit].
      unfold parseInt, mapResult.
      assert (Hn : exists n, (x <- ToString (match limit with
                                              | Some l => VStr l
                                              | None => VNum 20
                                              end) ;; Ok (parseIntStr x)) = Ok n
                             /\ numeric n).
      { destruct limit as [l|]; eexists; (split; [reflexivity|]); apply parseIntStr_numeric. }
      destruct Hn as (n & -> & Hn). cbv [bindR].
      unfold searchAll, fetchJson.
      destruct (_buildSearchURL _ _) as [url|e] eqn:Hu.
      * cbv [bindR]. rewrite Hnet, Hj. unfold get. rewrite Hd, Hr. reflexivity.
      * destruct Hn as [->|[z ->]]; discriminate Hu.
Qed.

(** X26 at an API that answers 403 and an object with no results. *)
Lemma jiosaavn_endpoints_witness :
  Endpoints.jiosaavnSearch (apiAnswering 403 (VObj [("error"%string, VStr (str "denied"))]))
    {| Endpoints.query_title := Some (str "Blinding Lights");
       Endpoints.query_artist := None |}
  = {| Endpoints.statusCode := 500;
       Endpoints.body := Endpoints.ErrorMessage (Error (str "No results found")) |} /\
  Endpoints.jiosaavnSearchAll
    (apiAnswering 403 (VObj [("error"%string, VStr (str "denied"))]))
    {| Endpoints.query_q := Some (str "Blinding Lights");
       Endpoints.query_limit := Some (str "5") |}
  = {| Endpoints.statusCode := 200; Endpoints.body := Endpoints.Result [] |}.
Proof.
  destruct (proj2 (proj2 (jiosaavn_endpoints
                            (apiAnswering 403 (VObj [("error"%string, VStr (str "denied"))]))))
              _ (VObj [("error"%string, VStr (str "denied"))])
              (fun _ => eq_refl) eq_refl eq_refl (or_introl eq_refl)) as [H1 H2].
  split; [apply H1|apply H2]; reflexivity.
Defined.

Lemma formEncodeChar_safe c : Forall (fun d => formSafe d = true) (formEncodeChar c).
Proof.
  apply Forall_forall. intros d Hd. apply list_elem_of_In in Hd. revert d Hd.
  apply forallb_forall. destruct c as [[] [] [] [] [] [] [] []]; vm_compute; reflexivity.
Qed.

Lemma formSafe_plain c :
  formSafe c = true -> isWhiteSpace c = false /\ c ∉ str "&=#?/".
Proof.
  intros H.
  assert (isWhiteSpace c = false /\ bool_decide (c ∈ str "&=#?/") = false) as [H1 H2].
  { revert H. destruct c as [[] [] [] [] [] [] [] []]; vm_compute; try discriminate;
      (intros _; split; reflexivity). }
  split; [done|]. by apply bool_decide_eq_false in H2.
Qed.

(** X27: the URL [_buildSearchURL] builds is the fixed parameters with the
    query as the value of [q] and the limit, 10 when none is given, as the
    value of [n]; the encoded query holds no white space and none of
    [& = # ? /], so a query cannot add or change a parameter. *)
Theorem buildSearchURL_shape query limit url :
  _buildSearchURL query limit = Ok url ->
  (exists n,
     toStringOf (orDefault limit (VNum 10)) = Ok n /\
     url = searchPrefix ++ formEncode query ++ str "&p=0&n=" ++ formEncode n) /\
  Forall (fun c => isWhiteSpace c = false /\ c ∉ str "&=#?/") (formEncode query).
Proof.
  unfold _buildSearchURL.
  destruct (toStringOf (orDefault limit (VNum 10))) as [n|e]; cbv [bindR]; [|done].
  intros [= <-]. split.
  - exists n. split; [done|]. reflexivity.
  - unfold formEncode. induction query as [|c query IH]; [constructor|].
    cbn [flat_map]. apply Forall_app. split; [|done].
    eapply Forall_impl; [apply formEncodeChar_safe|]. intros d. apply formSafe_plain.
Qed.

(** X27 at a query with spaces and an ampersand, with no limit given. *)
Lemma buildSearchURL_shape_witness :
  (exists n,
     toStringOf (orDefault VUndef (VNum 10)) = Ok n /\
     str "https://www.jiosaavn.com/api.php?_format=json&_marker=0&api_version=4&ctx=web6dot0&__call=search.getResults&q=Love+%26+War&p=0&n=10"
     = searchPrefix ++ formEncode (str "Love & War") ++ str "&p=0&n=" ++ formEncode n) /\
  Forall (fun c => isWhiteSpace c = false /\ c ∉ str "&=#?/") (formEncode (str "Love & War")).
Proof.
  apply (buildSearchURL_shape (str "Love & War") VUndef). reflexivity.
Defined.

End JioSaavnMore.

(** ** The endpoint [/scrape] *)

Section ScrapeMore.

Import Endpoints.

Lemma invidious_proxied env videoId proxiedUrl :
  invidious env videoId = Ok (Some proxiedUrl) ->
  exists u, proxiedUrl = Server.baseProxyUrl ++ encodeURIComponent u.
Proof.
  unfold invidious. intros H.
  repeat (case_match; simplify_eq); cbv [bindR] in *;
    repeat (case_match; simplify_eq); by eexists.
Qed.

(** X28: [/scrape] answers in three ways only: 400 with [Missing videoId]
    exactly when the id is missing or empty, 500 with [Failed to scrape], or
    200 with a URL of [/proxy] whose [url] parameter decodes to one upstream
    URL. *)
Theorem scrape_reply env req :
  match body (scrape env req) with
  | Result proxiedUrl =>
      statusCode (scrape env req) = 200 /\
      exists u,
        proxiedUrl = Server.baseProxyUrl ++ encodeURIComponent u /\
        decodeURIComponent (drop (length Server.baseProxyUrl) proxiedUrl) = Some u
  | ErrorText message =>
      (statusCode (scrape env req) = 400 /\ message = str "Missing videoId" /\
       Service.truthyOpt (query_videoId req) = false) \/
      (statusCode (scrape env req) = 500 /\ message = str "Failed to scrape" /\
       Service.truthyOpt (query_videoId req) = true)
  | ErrorMessage _ => False
  end.
Proof.
  assert (Hd : forall u,
            decodeURIComponent
              (drop (length Server.baseProxyUrl) (Server.baseProxyUrl ++ encodeURIComponent u))
            = Some u).
  { intros u. by rewrite drop_app_length, decode_encode. }
  unfold scrape. destruct (query_videoId req) as [[|c videoId]|]; cbn [body statusCode].
  - by left.
  - destruct (invidious env (c :: videoId)) as [[proxiedUrl|]|e] eqn:Hi.
    + cbn [body statusCode]. split; [done|].
      destruct (invidious_proxied _ _ _ Hi) as [u ->]. by exists u.
    + destruct (ytdlp env _) as [[| |b|z| |s|l|kv|f]|]; cbn [body statusCode];
        try (by right). split; [done|]. by eexists.
    + destruct (ytdlp env _) as [[| |b|z| |s|l|kv|f]|]; cbn [body statusCode];
        try (by right). split; [done|]. by eexists.
  - by left.
Qed.

(** X29: when the stream API cannot be used (the fetch is rejected, the
    status is no success, the body is not JSON, there are no formats, or no
    format is an audio format) the answer comes from [yt-dlp]: its output,
    trimmed, behind the proxy, or 500 when it fails. *)
Theorem scrape_fallback env req videoId :
  query_videoId req = Some videoId -> videoId <> [] ->
  fetch env (streamUrl videoId) = Service.Rejected \/
  (exists response,
     fetch env (streamUrl videoId) = Service.Fulfilled response /\
     (Service.ok response = false \/ Service.json response = None \/
      exists data,
        Service.json response = Some data /\
        (truthy data = false \/ truthy (prop data "adaptiveFormats") = false \/
         exists formats,
           prop data "adaptiveFormats" = VArr formats /\
           Forall (fun format => Service.isAudio format = Ok false) formats))) ->
  (forall streamUrl,
     ytdlp env (watchUrl videoId) = Some (VStr streamUrl) ->
     scrape env req
     = {| statusCode := 200;
          body := Result (Server.baseProxyUrl ++ encodeURIComponent (trim streamUrl)) |}) /\
  (ytdlp env (watchUrl videoId) = None ->
   scrape env req
   = {| statusCode := 500; body := ErrorText (str "Failed to scrape") |}).
Proof.
  intros Hreq Hne Hup.
  assert (Hi : forall p, invidious env videoId <> Ok (Some p)).
  { intros p. unfold invidious.
    change (INVIDIOUS_API ++ str "/api/v1/videos/" ++ videoId) with (streamUrl videoId).
    destruct Hup as [->|(response & -> & Hup)]; [done|].
    destruct Hup as [->|[Hj|(data & Hj & Hup)]]; [done| |].
    - destruct (Service.ok response); [|done]. by rewrite Hj.
    - destruct (Service.ok response); [|done]. rewrite Hj.
      destruct Hup as [->|[Ht|(formats & Hf & Hnone)]]; [done| |].
      + rewrite Ht. by rewrite andb_false_r.
      + rewrite Hf. destruct (truthy data && _); [|done].
        by rewrite (filterR_none _ _ Hnone). }
  unfold scrape, watchUrl. rewrite Hreq. destruct videoId as [|c videoId]; [done|].
  destruct (invidious env (c :: videoId)) as [[p|]|e] eqn:E;
    [by destruct (Hi p)| |]; (split; [by intros s ->|by intros ->]).
Qed.

(** X29 at a stream API that is down, with a [yt-dlp] that prints the URL
    and a line end. *)
Lemma scrape_fallback_witness :
  scrape (scrapeEnv Service.Rejected
            (Some (VStr (str "https://rr2.googlevideo.com/audio" ++ LF))))
    (scrapeRequest "4NRXx6U8ABQ")
  = {| statusCode := 200;
       body := Result (Server.baseProxyUrl
                         ++ encodeURIComponent (str "https://rr2.googlevideo.com/audio")) |}.
Proof.
  apply (proj1 (scrape_fallback
                  (scrapeEnv Service.Rejected
                     (Some (VStr (str "https://rr2.googlevideo.com/audio" ++ LF))))
                  (scrapeRequest "4NRXx6U8ABQ") (str "4NRXx6U8ABQ")
                  eq_refl ltac:(discriminate) (or_introl eq_refl))
           (str "https://rr2.googlevideo.com/audio" ++ LF)).
  reflexivity.
Defined.

(** Sorting with [b.key - a.key] puts the keys in descending order. *)
Lemma insertBy_key {A} (key : A -> Z) (P : A -> Prop) cmp x l :
  (forall a b, P a -> P b -> cmp a b = Ok (key b - key a)) ->
  P x -> Forall P l -> StronglySorted (fun a b => key b <= key a) l ->
  exists r, insertBy cmp x l = Ok r /\ r ≡ₚ x :: l /\
            StronglySorted (fun a b => key b <= key a) r.
Proof.
  intros Hcmp Hx Hl Hs. induction l as [|y l IH]; simpl.
  - exists [x]. repeat split; [done|]. repeat constructor.
  - apply Forall_cons in Hl as [Hy Hl].
    apply StronglySorted_inv in Hs as [Hs Hyl].
    rewrite (Hcmp x y Hx Hy). cbv [bindR].
    destruct (key y - key x <=? 0) eqn:E.
    + exists (x :: y :: l). split; [done|]. split; [done|].
      apply Z.leb_le in E.
      constructor; [by constructor|]. constructor; [lia|].
      eapply Forall_impl; [exact Hyl|]. simpl. intros; lia.
    + destruct (IH Hl Hs) as (r & -> & Hp & Hr). apply Z.leb_gt in E.
      exists (y :: r). split; [done|]. split.
      * rewrite Hp. apply Permutation_swap.
      * constructor; [done|]. rewrite Hp. constructor; [lia|done].
Qed.

Lemma stableSort_key {A} (key : A -> Z) (P : A -> Prop) cmp l :
  (forall a b, P a -> P b -> cmp a b = Ok (key b - key a)) ->
  Forall P l ->
  exists r, stableSort cmp l = Ok r /\ r ≡ₚ l /\
            StronglySorted (fun a b => key b <= key a) r.
Proof.
  intros Hcmp. induction 1 as [|x l Hx Hl IH]; simpl.
  - exists []. repeat split; [done|constructor].
  - destruct IH as (r & -> & Hp & Hr). cbv [bindR].
    destruct (insertBy_key key P cmp x r Hcmp Hx) as (r' & -> & Hp' & Hr');
      [by rewrite Hp|done|].
    exists r'. split; [done|]. split; [by rewrite Hp', Hp|done].
Qed.

Lemma mapR_map {A B} (f : A -> result B) (g : A -> B) l :
  Forall (fun x => f x = Ok (g x)) l -> mapR f l = Ok (map g l).
Proof.
  induction 1 as [|x l Hx _ IH]; simpl; [done|]. by rewrite Hx, IH.
Qed.

Lemma prop_array_truthy data k l : prop data k = VArr l -> truthy data = true.
Proof.
  destruct data as [| |b|z| |s|vs|kv|f]; simpl; try done; by repeat case_decide.
Qed.

(** X30: when every audio format has a bitrate that reads as a number,
    [/scrape] takes the URL of an audio format of the highest bitrate, with
    no regard to a quality setting, in every engine whose sort is as
    ECMAScript asks. *)
Theorem scrape_best_audio env videoId response data formats kept :
  conforming (sort env) ->
  fetch env (streamUrl videoId) = Service.Fulfilled response ->
  Service.ok response = true -> Service.json response = Some data ->
  prop data "adaptiveFormats" = VArr formats ->
  filterR Service.isAudio formats = Ok kept -> kept <> [] ->
  Forall (fun v => exists k, scrapeBitrate v k) kept ->
  exists bestAudio k,
    bestAudio ∈ kept /\ scrapeBitrate bestAudio k /\
    (forall v k', v ∈ kept -> scrapeBitrate v k' -> k' <= k) /\
    invidious env videoId =
      (if truthy (prop bestAudio "url") then
         u <- ToString (prop bestAudio "url") ;;
         match withHostname env u (str "yt.omada.cafe") with
         | Some originalStreamUrl =>
             Ok (Some (Server.baseProxyUrl ++ encodeURIComponent originalStreamUrl))
         | None => Throw TypeError
         end
       else Ok None).
Proof.
  intros [_ Hengine] Hf Hok Hj Hp Hk Hne Hnum.
  set (key := fun a : AudioStream => match s_bitrate a with VNum k => k | _ => 0 end).
  set (g := fun v : jsval =>
              {| s_bitrate := match parseInt (prop v "bitrate") with
                              | Ok b => b
                              | Throw _ => VNaN
                              end;
                 s_url := prop v "url"; s_type := prop v "type" |}).
  assert (Hmap : mapR audioStream kept = Ok (map g kept)).
  { apply mapR_map. eapply Forall_impl; [exact Hnum|]. intros v [k Hv].
    unfold audioStream, g. unfold scrapeBitrate in Hv. by rewrite Hv. }
  assert (HP : Forall (fun a => exists k, s_bitrate a = VNum k) (map g kept)).
  { apply Forall_fmap. eapply Forall_impl; [exact Hnum|]. intros v [k Hv].
    exists k. unfold scrapeBitrate in Hv. simpl. by rewrite Hv. }
  assert (Hcmp : forall a b,
            (exists k, s_bitrate a = VNum k) -> (exists k, s_bitrate b = VNum k) ->
            compareStreams a b = Ok (key b - key a)).
  { intros a b [ka Ha] [kb Hb]. unfold compareStreams, key. by rewrite Ha, Hb. }
  assert (Hcons : consistentOn compareStreams (map g kept)).
  { exists key. intros a b Ha Hb. rewrite Forall_forall in HP. by apply Hcmp; apply HP. }
  destruct (stableSort_key key (fun a => exists k, s_bitrate a = VNum k) compareStreams
              (map g kept) Hcmp HP) as (sorted & Hs & Hperm & Hsorted).
  rewrite <- (Hengine compareStreams (map g kept) Hcons) in Hs.
  destruct sorted as [|best sorted].
  { apply Permutation_nil_l in Hperm. by destruct kept. }
  assert (Hin : best ∈ map g kept) by (rewrite <- Hperm; left).
  apply list_elem_of_fmap in Hin as (bestAudio & -> & Hin).
  destruct (proj1 (Forall_forall _ _) Hnum bestAudio Hin) as [k Hbest].
  exists bestAudio, k. split; [done|]. split; [done|]. split.
  - intros v k' Hv Hk'.
    assert (Hgv : g v ∈ g bestAudio :: sorted).
    { rewrite Hperm. by apply list_elem_of_fmap_2. }
    assert (Hkv : key (g v) = k').
    { unfold key, g, scrapeBitrate in *. simpl. by rewrite Hk'. }
    assert (Hkb : key (g bestAudio) = k).
    { unfold key, g, scrapeBitrate in *. simpl. by rewrite Hbest. }
    apply elem_of_cons in Hgv as [Heq|Hgv]; [rewrite <- Hkv, <- Hkb, Heq; lia|].
    apply StronglySorted_inv in Hsorted as [_ Hall].
    rewrite <- Hkv, <- Hkb. by apply (proj1 (Forall_forall _ _) Hall).
  - unfold invidious.
    change (INVIDIOUS_API ++ str "/api/v1/videos/" ++ videoId) with (streamUrl videoId).
    rewrite Hf, Hok, Hj, Hp, (prop_array_truthy _ _ _ Hp). simpl andb. cbv iota.
    rewrite Hk. cbv [bindR]. rewrite Hmap.
    destruct (map g kept) as [|a l] eqn:Em; [by destruct kept|].
    by rewrite Hs.
Qed.

(** X30 at a video with a video format and four audio formats. *)
Lemma scrape_best_audio_witness :
  exists bestAudio k,
    bestAudio ∈ map variant ["128"; "320"; "64"; "256"]%string /\
    scrapeBitrate bestAudio k /\
    (forall v k', v ∈ map variant ["128"; "320"; "64"; "256"]%string ->
                  scrapeBitrate v k' -> k' <= k) /\
    invidious (scrapeEnv (apiAnswering 200 formatsData (str "")) None) (str "4NRXx6U8ABQ") =
      (if truthy (prop bestAudio "url") then
         u <- ToString (prop bestAudio "url") ;;
         match setHost u (str "yt.omada.cafe") with
         | Some originalStreamUrl =>
             Ok (Some (Server.baseProxyUrl ++ encodeURIComponent originalStreamUrl))
         | None => Throw TypeError
         end
       else Ok None).
Proof.
  eapply (scrape_best_audio (scrapeEnv (apiAnswering 200 formatsData (str "")) None)
            (str "4NRXx6U8ABQ") _ formatsData).
  - apply stableSort_conforming.
  - reflexivity.
  - reflexivity.
  - reflexivity.
  - reflexivity.
  - reflexivity.
  - discriminate.
  - repeat constructor; eexists; reflexivity.
Defined.

End ScrapeMore.
